(** * Batch text-analysis utilities: statistics, base conversion, word count

    A shallow embedding of the three scripts

      - [compute_statistics.py]  (module [ComputeStatistics]),
      - [convert_numbers.py]     (module [ConvertNumbers]),
      - [word_count.py]          (module [WordCount]),

    followed by the verification of their documented behaviour.

    Conventions of the embedding.

      - A Python [str] is a list of Unicode code points ([Py.str]).
      - A Python [int] is a [Z]; a Python [float] is an IEEE-754 binary64
        value, a [spec_float] operated at precision 53 and [emax] 1024.
      - A call that may raise returns an [outcome]; the one loop of the
        sources that may run forever has the outcome [Diverges].
      - [print] appends to a console transcript; writing the results file
        yields its contents. *)

From Stdlib Require Import ZArith NArith Ascii String List Bool Lia.
From Stdlib Require Import Permutation Sorted.
From Stdlib Require Import SpecFloat.
From Stdlib Require DecimalString.
From Stdlib Require DecimalPos.
From Equations Require Import Equations.
Import ListNotations.

Local Open Scope Z_scope.

(** ** The fragment of Python shared by the three scripts *)

Module Py.

(** A character is a code point; a string is a sequence of them. *)
Definition char := N.
Definition str := list char.

Definition ord (a : ascii) : char := N_of_ascii a.

Fixpoint str_of_string (s : string) : str :=
  match s with
  | EmptyString => []
  | String a s' => ord a :: str_of_string s'
  end.

Definition char_eqb (a b : char) : bool := N.eqb a b.

Fixpoint str_eqb (s t : str) : bool :=
  match s, t with
  | [], [] => true
  | a :: s', b :: t' => char_eqb a b && str_eqb s' t'
  | _, _ => false
  end.

(** [s < t] on strings: lexicographic on code points, a proper prefix
    being smaller. *)
Fixpoint str_ltb (s t : str) : bool :=
  match s, t with
  | _, [] => false
  | [], _ :: _ => true
  | a :: s', b :: t' =>
      if N.ltb a b then true
      else if N.ltb b a then false
      else str_ltb s' t'
  end.

(** [sep.join(parts)]. *)
Fixpoint join (sep : str) (parts : list str) : str :=
  match parts with
  | [] => []
  | [p] => p
  | p :: rest => p ++ sep ++ join sep rest
  end.

(** [str(n)] / [f"{n}"] for an [int]: plain decimal, [-] for negatives. *)
Definition str_of_int (n : Z) : str :=
  str_of_string (DecimalString.NilZero.string_of_int (Z.to_int n)).

Inductive exn :=
| ZeroDivisionError
| IndexError
| ValueError
| OverflowError.

Inductive outcome (A : Type) :=
| Returns (a : A)
| Raises (e : exn)
| Diverges.
Arguments Returns {A} a.
Arguments Raises {A} e.
Arguments Diverges {A}.

Definition bind {A B} (c : outcome A) (k : A -> outcome B) : outcome B :=
  match c with
  | Returns a => k a
  | Raises e => Raises e
  | Diverges => Diverges
  end.

(** [s[i]] for an integer index: negative indices count from the end,
    anything out of range raises [IndexError]. *)
Definition index {A} (s : list A) (i : Z) : outcome A :=
  let n := Z.of_nat (length s) in
  let j := if i <? 0 then i + n else i in
  if (j <? 0) || (n <=? j) then Raises IndexError
  else match nth_error s (Z.to_nat j) with
       | Some a => Returns a
       | None => Raises IndexError
       end.

(** [s[:k]]: the first [k] items, or all but the last [-k] when [k < 0]. *)
Definition slice_to {A} (s : list A) (k : Z) : list A :=
  if k <? 0 then firstn (Z.to_nat (Z.of_nat (length s) + k)) s
  else firstn (Z.to_nat k) s.

(** [max(xs)] on integers; [ValueError] on an empty sequence. *)
Definition max_int (xs : list Z) : outcome Z :=
  match xs with
  | [] => Raises ValueError
  | x :: rest => Returns (fold_left Z.max rest x)
  end.

(** [sorted] / [list.sort]: a stable sort that only uses [<].  Insertion
    after the items that are not above the new one is such a sort: its
    result is sorted and keeps tied items in their order, which leaves one
    possible result. *)
Section Sort.
Context {A : Type} (lt : A -> A -> bool).

Fixpoint insert (x : A) (l : list A) : list A :=
  match l with
  | [] => [x]
  | y :: l' => if lt x y then x :: l else y :: insert x l'
  end.

Definition sorted (l : list A) : list A :=
  fold_left (fun acc x => insert x acc) l [].

(** [x] may stand before [y] in a sorted list: [y < x] does not hold. *)
Definition may_precede (x y : A) : Prop := lt y x = false.

(** [x] and [y] tie: neither is below the other. *)
Definition ties (x y : A) : bool := negb (lt x y) && negb (lt y x).
End Sort.

(** A [dict]: keys in insertion order, each key once; lookup compares
    keys with [==]. *)
Section Dict.
Context {K V : Type} (eqb : K -> K -> bool).

Definition dict := list (K * V).

Fixpoint get (d : dict) (k : K) (default : V) : V :=
  match d with
  | [] => default
  | (k', v) :: d' => if eqb k' k then v else get d' k default
  end.

(** [d[k] = v]: an existing key keeps its place (and its first
    spelling), a new key goes last. *)
Fixpoint set (d : dict) (k : K) (v : V) : dict :=
  match d with
  | [] => [(k, v)]
  | (k', v') :: d' =>
      if eqb k' k then (k', v) :: d' else (k', v') :: set d' k v
  end.

Definition items (d : dict) : list (K * V) := d.
Definition values (d : dict) : list V := map snd d.
Definition keys (d : dict) : list K := map fst d.
End Dict.

(** Counting in a dict, [d[k] = d.get(k, 0) + 1] for each item in turn,
    and the number of items of a list that are [==] to [k]. *)
Section Tally.
Context {K : Type} (eqb : K -> K -> bool).

Definition tally (l : list K) (d : dict (K:=K) (V:=Z))
  : dict (K:=K) (V:=Z) :=
  fold_left (fun freq k => set eqb freq k (get eqb freq k 0 + 1)) l d.

Definition occurrences (k : K) (l : list K) : Z :=
  Z.of_nat (length (filter (fun v => eqb v k) l)).

(** What a dict built by counting looks like after [processed]: the
    keys are items of [processed], no two of them equal, each with the
    number of its occurrences, and every item has its key. *)
Record counted (processed : list K) (d : dict (K:=K) (V:=Z)) : Prop := {
  counted_keys : Forall (fun k => In k processed) (keys d);
  counted_distinct :
    ForallOrdPairs (fun j k => eqb j k = false) (keys d);
  counted_values :
    Forall (fun item => snd item = occurrences (fst item) processed)
           (items d);
  counted_all :
    Forall (fun v => Exists (fun k => eqb k v = true) (keys d))
           processed }.
End Tally.

(** What [open(filepath)] finds, and what a run of a script leaves
    behind: the chunks written to the console (one per [print]), the
    contents of the results file if it was written, the exit status. *)
Inductive file_open :=
| FileNotFound
| PermissionDenied
| Opened (raw_lines : list str).

Record run := mk_run {
  console : list str;
  results_file : option str;
  exit_status : Z }.

Definition newline : str := [10%N].

(** [sys.maxsize], the largest length a sequence can have. *)
Definition sys_maxsize : Z := 2 ^ 63 - 1.

(** [enumerate(xs, start)]. *)
Fixpoint enumerate {A} (xs : list A) (start : Z) : list (Z * A) :=
  match xs with
  | [] => []
  | x :: rest => (start, x) :: enumerate rest (start + 1)
  end.

(** The rows of the Unicode character database that the scripts consult:
    [str.isspace] (behind [strip] and [split]), [str.isalnum] and
    [str.lower] on a one-character string; the last may give several
    code points. *)
Record unicode_db := mk_unicode_db {
  isspace : char -> bool;
  isalnum : char -> bool;
  lower : char -> str }.

Section Text.
Variable db : unicode_db.

Fixpoint lstrip (s : str) : str :=
  match s with
  | [] => []
  | c :: s' => if isspace db c then lstrip s' else s
  end.

(** [s.strip()]. *)
Definition strip (s : str) : str := rev (lstrip (rev (lstrip s))).

(** [s.split()]: the maximal runs of non-space characters; [word] is the
    run being read. *)
Fixpoint split_from (s : str) (word : str) : list str :=
  match s with
  | [] => match word with [] => [] | _ :: _ => [word] end
  | c :: s' =>
      if isspace db c then
        match word with
        | [] => split_from s' []
        | _ :: _ => word :: split_from s' []
        end
      else split_from s' (word ++ [c])
  end.

Definition split (s : str) : list str := split_from s [].
End Text.

End Py.

Import Py.

Declare Scope pystr_scope.
Notation "'u' s" :=
  (str_of_string s%string) (at level 1, only parsing) : pystr_scope.
Local Open Scope pystr_scope.

(** ** convert_numbers.py *)

Module ConvertNumbers.

Definition RESULTS_FILENAME : str := u"ConvertionResults.txt".
Definition HEX_DIGITS : str := u"0123456789ABCDEF".

(** The loop of [parse_int_strict] over [text[start_idx:]]: [None] is the
    early [return False, 0] at the first character outside ['0'..'9']. *)
Fixpoint scan_digits (chars : str) (value : Z) : option Z :=
  match chars with
  | [] => Some value
  | ch :: rest =>
      if N.ltb ch (ord "0") || N.ltb (ord "9") ch then None
      else scan_digits rest (value * 10 + (Z.of_N ch - Z.of_N (ord "0")))
  end.

Definition empty_line (line_no : Z) : str :=
  u"[ERROR] Line " ++ str_of_int line_no
    ++ u": empty/blank line. Skipping." ++ newline.

(** The two messages below come from string literals without the [f]
    prefix, so the braces are printed as they stand. *)
Definition sign_without_digits (line_no : Z) : str :=
  u"[ERROR] Line " ++ str_of_int line_no ++ u": "
    ++ u"sign without digits '{text}'. Skipping." ++ newline.

Definition not_an_integer (line_no : Z) : str :=
  u"[ERROR] Line " ++ str_of_int line_no ++ u": "
    ++ u"not an integer '{text}'. Skipping." ++ newline.

(** Result: what is printed, then the returned pair [(success, value)]. *)
Definition parse_int_strict (text : str) (line_no : Z)
  : list str * (bool * Z) :=
  match text with
  | [] => ([empty_line line_no], (false, 0))
  | c0 :: _ =>
      let '(sign, start_idx) :=
        if char_eqb c0 (ord "+") then (1, 1%nat)
        else if char_eqb c0 (ord "-") then (-1, 1%nat)
        else (1, 0%nat) in
      if Nat.eqb start_idx (length text) then
        ([sign_without_digits line_no], (false, 0))
      else
        match scan_digits (skipn start_idx text) 0 with
        | None => ([not_an_integer line_no], (false, 0))
        | Some value => ([], (true, sign * value))
        end
  end.

(** The [while value > 0] loop of [convert_positive_to_base]; the list
    holds [result_chars].  [value // base] fails to be below [value] only
    for [base = 1], where the source loop never ends. *)
Equations? convert_loop (base : Z) (digits : str) (value : Z)
    (result_chars : str) : outcome str by wf (Z.to_nat value) lt :=
  convert_loop base digits value result_chars with Z_lt_dec 0 value := {
    | right _ => Returns result_chars
    | left Hpos with Z.eq_dec base 0 := {
        | left _ => Raises ZeroDivisionError
        | right Hbase with index digits (value mod base) := {
            | Raises e => Raises e
            | Diverges => Diverges
            | Returns d with Z_lt_dec (value / base) value := {
                | left Hlt =>
                    convert_loop base digits (value / base)
                                 (result_chars ++ [d])
                | right _ => Diverges } } } }.
Proof. lia. Qed.

Definition convert_positive_to_base (n base : Z) (digits : str)
  : outcome str :=
  if n =? 0 then Returns (u"0")
  else bind (convert_loop base digits n [])
            (fun result_chars => Returns (rev result_chars)).

Definition to_binary (n : Z) : outcome str :=
  if n <? 0 then
    bind (convert_positive_to_base (- n) 2 (u"01"))
         (fun s => Returns (u"-" ++ s))
  else convert_positive_to_base n 2 (u"01").

Definition to_hex (n : Z) : outcome str :=
  if n <? 0 then
    bind (convert_positive_to_base (- n) 16 HEX_DIGITS)
         (fun s => Returns (u"-" ++ s))
  else convert_positive_to_base n 16 HEX_DIGITS.


(** One turn of the loop of [read_numbers], on the console transcript,
    [numbers] and [invalid_count]. *)
Definition read_line (db : unicode_db)
    (state : list str * list Z * Z) (numbered : Z * str)
  : list str * list Z * Z :=
  let '(out, numbers, invalid_count) := state in
  let '(line_no, raw_line) := numbered in
  let line := strip db raw_line in
  let '(printed, (ok, value)) := parse_int_strict line line_no in
  if ok then (out ++ printed, numbers ++ [value], invalid_count)
  else (out ++ printed, numbers, invalid_count + 1).

Definition read_numbers (db : unicode_db) (filepath : str)
    (file : file_open) : list str * option (list Z * Z) :=
  match file with
  | FileNotFound =>
      ([u"[ERROR] File not found: " ++ filepath ++ newline], None)
  | PermissionDenied =>
      ([u"[ERROR] Permission denied: " ++ filepath ++ newline], None)
  | Opened raw_lines =>
      let '(out, numbers, invalid_count) :=
        fold_left (read_line db) (enumerate raw_lines 1) ([], [], 0) in
      (out, Some (numbers, invalid_count))
  end.

(** The [for n in shown] loop of [build_report]. *)
Fixpoint conversion_lines (shown : list Z) : outcome (list str) :=
  match shown with
  | [] => Returns []
  | n :: rest =>
      bind (to_binary n) (fun b =>
      bind (to_hex n) (fun h =>
      bind (conversion_lines rest) (fun more =>
      Returns ((str_of_int n ++ u" -> " ++ b ++ u" -> " ++ h) :: more))))
  end.

(** [elapsed] is the text of [f"{elapsed_seconds:.6f}"]. *)
Definition build_report (numbers : list Z) (invalid_count : Z)
    (elapsed : str) (console_limit : option Z) : outcome str :=
  let len := Z.of_nat (length numbers) in
  let head :=
    [ u"=== Conversion Results (Decimal -> Binary / Hex) ===";
      u"Valid numbers: " ++ str_of_int len;
      u"Invalid lines skipped: " ++ str_of_int invalid_count;
      [];
      u"Decimal -> Binary -> Hex";
      u"------------------------" ] in
  let shown :=
    match console_limit with
    | None => numbers
    | Some limit => slice_to numbers limit
    end in
  bind (conversion_lines shown) (fun body =>
  let note :=
    match console_limit with
    | Some limit =>
        if limit <? len then
          [ [];
            u"... showing first " ++ str_of_int limit ++ u" of "
              ++ str_of_int len ++ u" items. "
              ++ u"Full results were written to " ++ RESULTS_FILENAME
              ++ u"." ]
        else []
    | None => []
    end in
  let tail := [ []; u"Elapsed time (s): " ++ elapsed ] in
  Returns (join newline (head ++ body ++ note ++ tail) ++ newline)).

Definition main (db : unicode_db) (argv : list str)
    (fs : str -> file_open) (elapsed : str) : outcome run :=
  match argv with
  | _ :: filepath :: _ =>
      match read_numbers db filepath (fs filepath) with
      | (out, None) => Returns (mk_run out None 1)
      | (out, Some (numbers, invalid_count)) =>
          bind (build_report numbers invalid_count elapsed None)
            (fun report_full =>
          bind (build_report numbers invalid_count elapsed (Some 15))
            (fun report_console =>
          Returns (mk_run (out ++ [report_console]) (Some report_full) 0)))
      end
  | _ =>
      Returns (mk_run
                 [u"Usage: python3 convertNumbers.py fileWithData.txt"
                    ++ newline]
                 None 1)
  end.

(** *** Notions the statements below are written with *)

(** The strict integer grammar in the words of the specification: an
    optional single sign, then one or more ASCII digits, nothing else;
    the value is the decimal reading of the digits, negated after [-]. *)
Definition is_digit (c : char) : bool :=
  N.leb (ord "0") c && N.leb c (ord "9").

Definition digit_value (c : char) : Z := Z.of_N c - Z.of_N (ord "0").

Definition decimal_value (ds : str) : Z :=
  fold_left (fun value ch => value * 10 + digit_value ch) ds 0.

Inductive strict_integer : str -> Z -> Prop :=
| strict_unsigned ds :
    ds <> [] -> forallb is_digit ds = true ->
    strict_integer ds (decimal_value ds)
| strict_plus ds :
    ds <> [] -> forallb is_digit ds = true ->
    strict_integer (ord "+" :: ds) (decimal_value ds)
| strict_minus ds :
    ds <> [] -> forallb is_digit ds = true ->
    strict_integer (ord "-" :: ds) (- decimal_value ds).

(** Reading a digit string as a base-2 literal, as [int(s, 2)] does on a
    string of binary digits. *)
Definition base2_step (acc : option Z) (ch : char) : option Z :=
  match acc with
  | None => None
  | Some value =>
      if char_eqb ch (ord "0") then Some (value * 2)
      else if char_eqb ch (ord "1") then Some (value * 2 + 1)
      else None
  end.

Definition parse_base2_literal (s : str) : option Z :=
  match s with
  | [] => None
  | _ :: _ => fold_left base2_step s (Some 0)
  end.

(** The number a list of digits stands for, least significant first,
    and the character of a binary digit. *)
Fixpoint value_lsb (base : Z) (ds : list Z) : Z :=
  match ds with
  | [] => 0
  | d :: ds' => d + base * value_lsb base ds'
  end.

Definition binary_digit (d : Z) : char := nth (Z.to_nat d) (u"01") 0%N.

(** A rendering carries a sign when it starts with [-]. *)
Definition has_sign (s : str) : bool :=
  match s with
  | c :: _ => char_eqb c (ord "-")
  | [] => false
  end.

(** The lines of a file by what the scan makes of them: the integers of
    the valid lines, in order, and the number of the other lines. *)
Definition valid_value (db : unicode_db) (raw_line : str) : option Z :=
  match snd (parse_int_strict (strip db raw_line) 0) with
  | (true, value) => Some value
  | (false, _) => None
  end.

Definition valid_values (db : unicode_db) (raw_lines : list str)
  : list Z :=
  flat_map (fun l => match valid_value db l with
                     | Some value => [value]
                     | None => []
                     end) raw_lines.

Definition count_invalid (db : unicode_db) (raw_lines : list str) : Z :=
  Z.of_nat (length (filter (fun l => match valid_value db l with
                                     | Some _ => false
                                     | None => true
                                     end) raw_lines)).

End ConvertNumbers.

(** ** compute_statistics.py *)

Module ComputeStatistics.

Definition RESULTS_FILENAME : str := u"StatisticsResults.txt".

(** *** binary64 arithmetic *)

Definition float := spec_float.
Definition prec : Z := 53.
Definition emax : Z := 1024.

Definition fadd : float -> float -> float := SFadd prec emax.
Definition fsub : float -> float -> float := SFsub prec emax.
Definition fmul : float -> float -> float := SFmul prec emax.
Definition flt : float -> float -> bool := SFltb.
Definition fle : float -> float -> bool := SFleb.
Definition feq : float -> float -> bool := SFeqb.

Definition zero : float := S754_zero false.

(** [float(n)] for an [int]: round to nearest even, [OverflowError] when
    the integer is beyond the largest finite float. *)
Definition of_int (n : Z) : float := binary_normalize prec emax n 0 false.

Definition float_of_int (n : Z) : outcome float :=
  match of_int n with
  | S754_infinity _ => Raises OverflowError
  | x => Returns x
  end.

(** The literal [2.0]. *)
Definition two : float := S754_finite false 4503599627370496 (-51).

(** [x / y] on floats. *)
Definition truediv (x y : float) : outcome float :=
  if feq y zero then Raises ZeroDivisionError
  else Returns (SFdiv prec emax x y).

(** [x / n] with an [int] divisor: the divisor is converted first. *)
Definition truediv_int (x : float) (n : Z) : outcome float :=
  bind (float_of_int n) (fun y => truediv x y).

Definition isfinite (x : float) : bool :=
  match x with
  | S754_zero _ | S754_finite _ _ _ => true
  | S754_infinity _ | S754_nan => false
  end.

Definition isnan (x : float) : bool :=
  match x with
  | S754_nan => true
  | _ => false
  end.

(** [x] is not NaN and carries the sign bit [s]. *)
Definition signed (s : bool) (x : float) : bool :=
  match x with
  | S754_zero sx | S754_infinity sx | S754_finite sx _ _ => Bool.eqb sx s
  | S754_nan => false
  end.

(** [math.sqrt]: a NaN result on a non-NaN argument is a domain error. *)
Definition math_sqrt (x : float) : outcome float :=
  let r := SFsqrt prec emax x in
  if isnan r && negb (isnan x) then Raises ValueError else Returns r.

Record StatsResult := mk_StatsResult {
  count : Z;
  invalid_count : Z;
  avg : float;
  med : float;
  modes : list float;
  mode_freq : Z;
  var : float;
  std : float;
  elapsed_seconds : str }.

(** *** The aggregators *)

Definition mean (values : list float) : outcome float :=
  let total := fold_left (fun total v => fadd total v) values zero in
  truediv_int total (Z.of_nat (length values)).

Definition median (values : list float) : outcome float :=
  let sorted_vals := sorted flt values in
  let n := Z.of_nat (length sorted_vals) in
  let mid := n / 2 in
  if n mod 2 =? 1 then index sorted_vals mid
  else
    bind (index sorted_vals (mid - 1)) (fun lo =>
    bind (index sorted_vals mid) (fun hi =>
    truediv (fadd lo hi) two)).

(** The first loop of [mode]: [freq[value] = freq.get(value, 0) + 1]. *)
Definition count_values (values : list float) : dict (K:=float) (V:=Z) :=
  tally feq values [].

Definition mode (values : list float) : outcome (list float * Z) :=
  let freq := count_values values in
  bind (max_int (Py.values freq)) (fun max_count =>
  if max_count <=? 1 then Returns ([], 1)
  else
    let modes :=
      fold_left
        (fun modes '(value, count) =>
           if count =? max_count then modes ++ [value] else modes)
        (items freq) [] in
    Returns (sorted flt modes, max_count)).

Definition variance (values : list float) (avg : float) : outcome float :=
  let total :=
    fold_left
      (fun total value =>
         let diff := fsub value avg in
         fadd total (fmul diff diff))
      values zero in
  truediv_int total (Z.of_nat (length values)).

Definition std_deviation (var : float) : outcome float := math_sqrt var.

(** Population variance in the words of the specification: the mean of
    the squared deviations from the mean, with divisor the full count. *)
Definition squared_deviations (values : list float) (avg : float)
  : list float :=
  map (fun v => fmul (fsub v avg) (fsub v avg)) values.

Definition fsum (xs : list float) : float := fold_left fadd xs zero.

Definition population_variance (values : list float) (avg : float)
  : float :=
  SFdiv prec emax (fsum (squared_deviations values avg))
        (of_int (Z.of_nat (length values))).

(** *** The pipeline

    [float_of_str] is [float] on a string ([None] for [ValueError]) and
    [repr] is the text an f-string gives a float; both are built-ins and
    stay abstract, as does the character database. *)
Section Pipeline.
Variable db : unicode_db.
Variable float_of_str : str -> option float.
Variable repr : float -> str.

(** The body of the loop of [read_numbers_from_file] on one line: what
    it prints and, for a valid line, the number it appends. *)
Definition classify (line_no : Z) (raw_line : str)
  : list str * option float :=
  let line := strip db raw_line in
  match line with
  | [] =>
      ([u"[ERROR] Line " ++ str_of_int line_no
          ++ u": empty/blank line. Skipping." ++ newline], None)
  | _ :: _ =>
      match float_of_str line with
      | Some value =>
          if isfinite value then ([], Some value)
          else
            ([u"[ERROR] Line " ++ str_of_int line_no ++ u": "
                ++ u"non-finite value '{line}'. " ++ u"Skipping."
                ++ newline], None)
      | None =>
          ([u"[ERROR] Line " ++ str_of_int line_no ++ u": "
              ++ u"not a number '{line}'. Skipping." ++ newline], None)
      end
  end.

(** One turn of that loop, on the console transcript, [numbers] and
    [invalid_count]. *)
Definition read_line (state : list str * list float * Z)
    (numbered : Z * str) : list str * list float * Z :=
  let '(out, numbers, invalid_count) := state in
  let '(line_no, raw_line) := numbered in
  match classify line_no raw_line with
  | (printed, Some value) =>
      (out ++ printed, numbers ++ [value], invalid_count)
  | (printed, None) => (out ++ printed, numbers, invalid_count + 1)
  end.

Definition read_numbers_from_file (filepath : str) (file : file_open)
  : list str * option (list float * Z) :=
  match file with
  | FileNotFound =>
      ([u"[ERROR] File not found: " ++ filepath ++ newline], None)
  | PermissionDenied =>
      ([u"[ERROR] No permissions to read the file: " ++ filepath
          ++ newline], None)
  | Opened raw_lines =>
      let '(out, numbers, invalid_count) :=
        fold_left read_line (enumerate raw_lines 1) ([], [], 0) in
      (out, Some (numbers, invalid_count))
  end.

(** The lines of a file by what the scan makes of them: the numbers of
    the valid lines, in order, and the number of the other lines. *)
Definition valid_value (raw_line : str) : option float :=
  snd (classify 0 raw_line).

Definition valid_values (raw_lines : list str) : list float :=
  flat_map (fun l => match valid_value l with
                     | Some value => [value]
                     | None => []
                     end) raw_lines.

Definition count_invalid (raw_lines : list str) : Z :=
  Z.of_nat (length (filter (fun l => match valid_value l with
                                     | Some _ => false
                                     | None => true
                                     end) raw_lines)).

Definition repr_list (xs : list float) : str :=
  u"[" ++ join (u", ") (map repr xs) ++ u"]".

Definition format_results (result : StatsResult) : str :=
  let lines :=
    [ u"=== Statistical Results ===";
      u"Valid data count: " ++ str_of_int (count result);
      u"Invalid data count: " ++ str_of_int (invalid_count result);
      [];
      u"Mean: " ++ repr (avg result);
      u"Median: " ++ repr (med result) ]
    ++ (match modes result with
        | [] => [ u"Mode: No mode (all frequencies are 1)." ]
        | _ :: _ =>
            [ u"Mode(s) (frequency " ++ str_of_int (mode_freq result)
                ++ u"): " ++ repr_list (modes result) ]
        end)
    ++ [ u"Variance: " ++ repr (var result);
         u"Standard deviation: " ++ repr (std result);
         [];
         u"Elapsed time (s): " ++ elapsed_seconds result ] in
  join newline lines ++ newline.

Definition no_data_report (invalid_count : Z) (elapsed : str) : str :=
  u"=== Statistical Results ===" ++ newline
    ++ u"No valid data to process." ++ newline
    ++ u"Invalid data count: " ++ str_of_int invalid_count ++ newline
    ++ u"Elapsed time (s): " ++ elapsed ++ newline.

(** The aggregation half of [main], from [avg = mean(numbers)] on. *)
Definition aggregate (numbers : list float) (invalid_count : Z)
    (elapsed : str) : outcome StatsResult :=
  bind (mean numbers) (fun avg =>
  bind (median numbers) (fun med =>
  bind (mode numbers) (fun '(modes, mode_freq) =>
  bind (variance numbers avg) (fun var =>
  bind (std_deviation var) (fun std =>
  Returns (mk_StatsResult (Z.of_nat (length numbers)) invalid_count
             avg med modes mode_freq var std elapsed)))))).

Definition main (argv : list str) (fs : str -> file_open)
    (elapsed : str) : outcome run :=
  match argv with
  | _ :: filepath :: _ =>
      match read_numbers_from_file filepath (fs filepath) with
      | (out, None) => Returns (mk_run out None 1)
      | (out, Some ([], invalid_count)) =>
          let output := no_data_report invalid_count elapsed in
          Returns (mk_run (out ++ [output]) (Some output) 0)
      | (out, Some (numbers, invalid_count)) =>
          bind (aggregate numbers invalid_count elapsed) (fun result =>
          let output := format_results result in
          Returns (mk_run (out ++ [output]) (Some output) 0))
      end
  | _ =>
      Returns (mk_run
                 [u"[ERROR] missing parameter: "
                    ++ u"python3 compute_statistics.py fileWithData.txt"
                    ++ newline]
                 None 1)
  end.
End Pipeline.

End ComputeStatistics.

(** ** word_count.py *)

Module WordCount.

Definition RESULTS_FILENAME : str := u"WordCountResults.txt".

Section Script.
Variable db : unicode_db.

Definition apostrophe : char := ord "'".

Definition normalize_word (token : str) : str :=
  let cleaned_chars :=
    fold_left
      (fun cleaned_chars ch =>
         if isalnum db ch || char_eqb ch apostrophe
         then cleaned_chars ++ [lower db ch]
         else cleaned_chars)
      token [] in
  join [] cleaned_chars.

(** The test of that loop: the character is kept. *)
Definition kept (ch : char) : bool :=
  isalnum db ch || char_eqb ch apostrophe.

(** A kept character is stable when its lower-case form is made of
    kept characters that [lower] leaves alone; a token is stable when
    its kept characters are. *)
Definition settled (ch : char) : bool :=
  kept ch && forallb (N.eqb ch) (lower db ch)
  && Nat.eqb (length (lower db ch)) 1.

Definition stable (token : str) : bool :=
  forallb (fun ch => negb (kept ch) || forallb settled (lower db ch))
          token.

(** The state threaded through the two loops of
    [read_and_count_words]. *)
Record scan := mk_scan {
  printed : list str;
  freq : dict (K:=str) (V:=Z);
  total_words : Z;
  invalid_items : Z }.

Definition count_token (line_no : Z) (st : scan) (token : str) : scan :=
  let word := normalize_word token in
  match word with
  | [] =>
      mk_scan
        (printed st
           ++ [u"[ERROR] Line " ++ str_of_int line_no ++ u": "
                 ++ u"invalid token '{token}'. " ++ u"Skipping."
                 ++ newline])
        (freq st) (total_words st) (invalid_items st + 1)
  | _ :: _ =>
      mk_scan (printed st)
              (set str_eqb (freq st) word (get str_eqb (freq st) word 0 + 1))
              (total_words st + 1) (invalid_items st)
  end.

Definition count_line (st : scan) (numbered : Z * str) : scan :=
  let '(line_no, raw_line) := numbered in
  let line := strip db raw_line in
  match line with
  | [] =>
      mk_scan
        (printed st
           ++ [u"[ERROR] Line " ++ str_of_int line_no ++ u": "
                 ++ u"empty/blank line. Skipping." ++ newline])
        (freq st) (total_words st) (invalid_items st + 1)
  | _ :: _ => fold_left (count_token line_no) (split db line) st
  end.

Definition read_and_count_words (filepath : str) (file : file_open)
  : list str * option (dict (K:=str) (V:=Z) * Z * Z) :=
  match file with
  | FileNotFound =>
      ([u"[ERROR] File not found: " ++ filepath ++ newline], None)
  | PermissionDenied =>
      ([u"[ERROR] Permission denied: " ++ filepath ++ newline], None)
  | Opened raw_lines =>
      let st := fold_left count_line (enumerate raw_lines 1)
                          (mk_scan [] [] 0 0) in
      (printed st, Some (freq st, total_words st, invalid_items st))
  end.

(** What a scan goes through: the tokens of all lines, and the lines
    that are blank. *)
Definition tokens_scanned (raw_lines : list str) : list str :=
  flat_map (fun l => split db (strip db l)) raw_lines.

Definition is_blank (raw_line : str) : bool :=
  match strip db raw_line with
  | [] => true
  | _ :: _ => false
  end.

Definition blank_lines (raw_lines : list str) : list str :=
  filter is_blank raw_lines.

Definition is_word (token : str) : bool :=
  match normalize_word token with
  | [] => false
  | _ :: _ => true
  end.
End Script.

(** Sorting the table does not consult the character database. *)
Section Report.

(** [key=lambda item: (-item[1], item[0])] and [<] on such pairs. *)
Definition sort_key (item : str * Z) : Z * str := (- snd item, fst item).

Definition key_ltb (a b : Z * str) : bool :=
  if fst a =? fst b then str_ltb (snd a) (snd b) else fst a <? fst b.

Definition item_ltb (a b : str * Z) : bool :=
  key_ltb (sort_key a) (sort_key b).

(** [items = list(freq.items()); items.sort(key=...)]. *)
Definition sorted_items (freq : dict (K:=str) (V:=Z)) : list (str * Z) :=
  sorted item_ltb (items freq).

Definition format_results (freq : dict (K:=str) (V:=Z))
    (total_words distinct_words invalid_items : Z) (elapsed : str)
  : str :=
  let lines :=
    [ u"=== Word Count Results ===";
      u"Total valid words counted: " ++ str_of_int total_words;
      u"Distinct words: " ++ str_of_int distinct_words;
      u"Invalid items skipped: " ++ str_of_int invalid_items;
      [];
      u"Word -> Frequency";
      u"-----------------" ]
    ++ map (fun '(word, count) => word ++ u" -> " ++ str_of_int count)
           (sorted_items freq)
    ++ [ []; u"Elapsed time (s): " ++ elapsed ] in
  join newline lines ++ newline.

(** [print(type(output), end="")] writes the name of the class of
    [output], which is always [str]. *)
Definition type_of_str : str := u"<class 'str'>".
End Report.

(** The order the specification asks of the report: [a] is listed before
    [b] when it is more frequent, or as frequent and not after [b]
    alphabetically. *)
Definition report_order (a b : str * Z) : Prop :=
  snd b < snd a \/ (snd a = snd b /\ str_ltb (fst b) (fst a) = false).

Section Main.
Variable db : unicode_db.

Definition main (argv : list str) (fs : str -> file_open)
    (elapsed : str) : run :=
  match argv with
  | _ :: filepath :: _ =>
      match read_and_count_words db filepath (fs filepath) with
      | (out, None) => mk_run out None 1
      | (out, Some (freq, total_words, invalid_items)) =>
          let distinct_words := Z.of_nat (length freq) in
          let output :=
            format_results freq total_words distinct_words
                           invalid_items elapsed in
          mk_run (out ++ [type_of_str]) (Some output) 0
      end
  | _ =>
      mk_run [u"Usage: python3 wordCount.py fileWithData.txt" ++ newline]
             None 1
  end.
End Main.

End WordCount.

(** ** Concrete stand-ins for the built-ins, used to show runs *)

Module Examples.

(** An excerpt of the Unicode tables, enough to run the script on ASCII
    text and on U+0130 (capital I with dot above, whose lower-case form is
    [i] followed by U+0307, combining dot above; neither U+0130's
    expansion mark nor any control character is alphanumeric).  Code points
    outside ASCII, U+0130 and U+0307 are not covered by the excerpt. *)
Definition in_range (lo hi : ascii) (c : char) : bool :=
  N.leb (ord lo) c && N.leb c (ord hi).

Definition excerpt_isspace (c : char) : bool :=
  (N.leb 9 c && N.leb c 13) || (N.leb 28 c && N.leb c 32).

Definition excerpt_isalnum (c : char) : bool :=
  in_range "0" "9" c || in_range "A" "Z" c || in_range "a" "z" c
  || N.eqb c 304.

Definition excerpt_lower (c : char) : str :=
  if in_range "A" "Z" c then [c + 32]%N
  else if N.eqb c 304 then [ord "i"; 775%N]
  else [c].

Definition excerpt : unicode_db :=
  mk_unicode_db excerpt_isspace excerpt_isalnum excerpt_lower.

(** [float] on integer literals, which it reads as [float(int(s))]; the
    runs shown below feed it nothing else. *)
Definition float_of_integer_literal (s : str) : option spec_float :=
  match snd (ConvertNumbers.parse_int_strict s 0) with
  | (true, n) => Some (ComputeStatistics.of_int n)
  | (false, _) => None
  end.

(** The frequency table the scan builds from the lines of a file. *)
Definition table_of (raw_lines : list str) : dict (K:=str) (V:=Z) :=
  match snd (WordCount.read_and_count_words excerpt
               (u"input.txt") (Opened raw_lines)) with
  | Some (freq, _, _) => freq
  | None => []
  end.

End Examples.

(** ** Notions for the further properties *)

Module Numerals.

(** [digits.index(ch)]: the position of the first [ch] in a digit table. *)
Fixpoint position (digits : str) (ch : char) : option Z :=
  match digits with
  | [] => None
  | d :: rest =>
      if char_eqb d ch then Some 0
      else option_map Z.succ (position rest ch)
  end.

(** Reading a numeral, most significant digit first, with the digits of
    a table: what [int(s, base)] returns on a string made of them. *)
Definition read_step (base : Z) (digits : str) (acc : option Z)
    (ch : char) : option Z :=
  match acc, position digits ch with
  | Some value, Some d =>
      if d <? base then Some (value * base + d) else None
  | _, _ => None
  end.

Definition read_unsigned (base : Z) (digits s : str) : option Z :=
  match s with
  | [] => None
  | _ :: _ => fold_left (read_step base digits) s (Some 0)
  end.

Definition read_signed (base : Z) (digits s : str) : option Z :=
  match s with
  | [] => None
  | c :: rest =>
      if char_eqb c (ord "-")
      then option_map Z.opp (read_unsigned base digits rest)
      else read_unsigned base digits s
  end.

(** The default of [sys.get_int_max_str_digits()]: [str(n)] and an
    f-string give the decimal text of an integer of at most that many
    digits, and raise [ValueError] beyond. *)
Definition int_max_str_digits : Z := 4300.

End Numerals.

Module Zeros.

(** A float with the sign of a zero dropped: floats that are not NaN are
    [==] exactly when they agree after that. *)
Definition unsigned_zero (x : spec_float) : spec_float :=
  match x with
  | S754_zero _ => S754_zero false
  | _ => x
  end.

End Zeros.

Module Words.

(** The words a scan counts, in the order it meets them: the normalised
    forms of the tokens that do not normalise to the empty string. *)
Definition counted_words (db : unicode_db) (raw_lines : list str)
  : list str :=
  map (WordCount.normalize_word db)
      (filter (WordCount.is_word db)
              (WordCount.tokens_scanned db raw_lines)).

(** [sum(xs)] on integers. *)
Definition sum (xs : list Z) : Z := fold_right Z.add 0 xs.

End Words.

(** * Verification *)

(** ** Lists and sequences *)

Section Sequences.

Lemma index_in_range {A} (s : list A) (i : Z) :
  0 <= i < Z.of_nat (length s) ->
  exists a, index s i = Returns a /\ nth_error s (Z.to_nat i) = Some a.
Proof.
  intros Hi. unfold index.
  destruct (i <? 0) eqn:Hneg; [lia|].
  destruct ((i <? 0) || (Z.of_nat (length s) <=? i)) eqn:Hout.
  - apply orb_true_iff in Hout. lia.
  - destruct (nth_error s (Z.to_nat i)) as [a|] eqn:Hnth.
    + exists a. split; reflexivity.
    + apply nth_error_None in Hnth. lia.
Qed.

End Sequences.

Section OrderedPairs.
Context {A : Type} (R : A -> A -> Prop).

Lemma ForallOrdPairs_app_inv l1 l2 :
  ForallOrdPairs R (l1 ++ l2) ->
  ForallOrdPairs R l1 /\ ForallOrdPairs R l2
  /\ (forall a b, In a l1 -> In b l2 -> R a b).
Proof.
  induction l1 as [|x l1 IH]; cbn [app]; intros H.
  - split; [constructor|]. split; [exact H|]. intros a b [].
  - inversion H as [|? ? Hx Hrest]; subst.
    destruct (IH Hrest) as (H1 & H2 & H12).
    apply Forall_app in Hx. destruct Hx as [Hx1 Hx2].
    split; [constructor; assumption|]. split; [exact H2|].
    intros a b [<-|Ha] Hb; [|apply H12; assumption].
    rewrite Forall_forall in Hx2. apply Hx2, Hb.
Qed.

Lemma ForallOrdPairs_app l1 l2 :
  ForallOrdPairs R l1 -> ForallOrdPairs R l2 ->
  (forall a b, In a l1 -> In b l2 -> R a b) ->
  ForallOrdPairs R (l1 ++ l2).
Proof.
  induction 1 as [|x l1 Hx H1 IH]; cbn [app]; intros H2 H12;
    [exact H2|].
  constructor.
  - apply Forall_app. split; [exact Hx|].
    apply Forall_forall. intros b Hb. apply H12; [left; reflexivity | exact Hb].
  - apply IH; [exact H2|]. intros a b Ha Hb. apply H12; [right|]; assumption.
Qed.
End OrderedPairs.

(** ** The built-in sort *)

Section SortFacts.
Context {A : Type} (lt : A -> A -> bool).

Lemma insert_perm x l : Permutation (insert lt x l) (x :: l).
Proof.
  induction l as [|y l IH]; cbn [insert]; [reflexivity|].
  destruct (lt x y); [reflexivity|].
  rewrite IH. apply perm_swap.
Qed.

Lemma insert_all_perm l : forall acc,
  Permutation (fold_left (fun acc x => insert lt x acc) l acc) (acc ++ l).
Proof.
  induction l as [|x l IH]; intros acc; cbn [fold_left].
  - rewrite app_nil_r. reflexivity.
  - rewrite IH, insert_perm. apply Permutation_middle.
Qed.

Lemma sorted_perm l : Permutation (sorted lt l) l.
Proof. apply (insert_all_perm l []). Qed.

Lemma sorted_length l : length (sorted lt l) = length l.
Proof. apply Permutation_length, sorted_perm. Qed.

(** The order facts hold among the values [ok] singles out (for floats,
    everything but NaN). *)
Variable ok : A -> Prop.
Hypothesis lt_asym :
  forall x y, ok x -> ok y -> lt x y = true -> lt y x = false.
Hypothesis precede_trans :
  forall x y z, ok x -> ok y -> ok z ->
    may_precede lt x y -> may_precede lt y z -> may_precede lt x z.

Lemma insert_sorted x l :
  ok x -> Forall ok l -> StronglySorted (may_precede lt) l ->
  StronglySorted (may_precede lt) (insert lt x l).
Proof.
  intros Hx Hok Hsorted.
  induction Hsorted as [|y l Hl IH Hy]; cbn [insert].
  - repeat constructor.
  - inversion Hok as [|? ? Hoky Hokl]; subst.
    destruct (lt x y) eqn:Hxy.
    + constructor; [constructor; assumption|].
      assert (Hfirst : may_precede lt x y) by (apply lt_asym; assumption).
      constructor; [exact Hfirst|].
      rewrite Forall_forall in *. intros z Hz.
      apply (precede_trans x y z); auto.
    + constructor; [apply IH; assumption|].
      eapply Permutation_Forall; [symmetry; apply insert_perm|].
      constructor; assumption.
Qed.

Lemma insert_all_sorted l : forall acc,
  Forall ok l -> Forall ok acc -> StronglySorted (may_precede lt) acc ->
  StronglySorted (may_precede lt)
    (fold_left (fun acc x => insert lt x acc) l acc).
Proof.
  induction l as [|x l IH]; intros acc Hl Hacc Hsorted; cbn [fold_left];
    [exact Hsorted|].
  inversion Hl; subst. apply IH; [assumption| |].
  - eapply Permutation_Forall; [symmetry; apply insert_perm|].
    constructor; assumption.
  - apply insert_sorted; assumption.
Qed.

Lemma sorted_sorted l :
  Forall ok l -> StronglySorted (may_precede lt) (sorted lt l).
Proof.
  intros Hl. apply insert_all_sorted; [exact Hl | constructor | constructor].
Qed.

Lemma lt_after x y w :
  ok x -> ok y -> ok w ->
  lt x y = true -> may_precede lt y w -> lt x w = true.
Proof.
  intros Hx Hy Hw Hxy Hyw. destruct (lt x w) eqn:Hxw; [reflexivity|].
  assert (Hyx : may_precede lt y x) by (apply (precede_trans y w x); auto).
  unfold may_precede in Hyx. congruence.
Qed.

Lemma tie_before z x w :
  ok z -> ok x -> ok w ->
  ties lt z x = true -> lt x w = true -> ties lt z w = false.
Proof.
  intros Hz Hx Hw Hzx Hxw. unfold ties in *.
  apply andb_true_iff in Hzx. destruct Hzx as [_ Hxz].
  apply negb_true_iff in Hxz.
  destruct (lt z w) eqn:Hzw; [reflexivity|]. exfalso.
  assert (Hwx : may_precede lt w x) by (apply (precede_trans w z x); auto).
  unfold may_precede in Hwx. congruence.
Qed.

(** The sort is stable: the items that tie with [z] keep their order. *)
Lemma insert_stable z x l :
  ok z -> ok x -> Forall ok l -> StronglySorted (may_precede lt) l ->
  filter (ties lt z) (insert lt x l) = filter (ties lt z) (l ++ [x]).
Proof.
  intros Hz Hx Hok Hsorted.
  induction Hsorted as [|y l Hl IH Hy]; [reflexivity|].
  inversion Hok as [|? ? Hoky Hokl]; subst.
  cbn [insert]. destruct (lt x y) eqn:Hxy.
  - rewrite filter_app.
    change (filter (ties lt z) (x :: y :: l))
      with (if ties lt z x then x :: filter (ties lt z) (y :: l)
            else filter (ties lt z) (y :: l)).
    change (filter (ties lt z) [x])
      with (if ties lt z x then [x] else []).
    destruct (ties lt z x) eqn:Hzx; [|rewrite app_nil_r; reflexivity].
    assert (Hall : Forall (fun w => ties lt z w = false) (y :: l)).
    { constructor; [apply (tie_before z x y); auto|].
      rewrite Forall_forall in *. intros w Hw.
      apply (tie_before z x w); auto.
      apply (lt_after x y w); auto. }
    assert (Hnone : filter (ties lt z) (y :: l) = []).
    { clear - Hall. induction Hall as [|w ws Hw _ IHws]; [reflexivity|].
      cbn [filter]. rewrite Hw. exact IHws. }
    rewrite Hnone. reflexivity.
  - cbn [app filter]. rewrite (IH Hokl). reflexivity.
Qed.

Lemma sorted_stable z l :
  ok z -> Forall ok l ->
  filter (ties lt z) (sorted lt l) = filter (ties lt z) l.
Proof.
  intros Hz Hl. unfold sorted.
  assert (Hacc : forall acc,
            Forall ok acc -> StronglySorted (may_precede lt) acc ->
            filter (ties lt z) (fold_left (fun acc x => insert lt x acc) l acc)
            = filter (ties lt z) (acc ++ l)).
  { induction Hl as [|x l Hx Hl IH]; intros acc Hacc Hsorted;
      cbn [fold_left].
    - rewrite app_nil_r. reflexivity.
    - rewrite IH.
      + rewrite !filter_app, insert_stable by assumption.
        change (x :: l) with ([x] ++ l).
        rewrite !filter_app, <- app_assoc. reflexivity.
      + eapply Permutation_Forall; [symmetry; apply insert_perm|].
        constructor; assumption.
      + apply insert_sorted; assumption. }
  apply (Hacc []); constructor.
Qed.

Lemma ties_refl x : ok x -> ties lt x x = true.
Proof.
  intros Hx. unfold ties. destruct (lt x x) eqn:Hxx; [|reflexivity].
  rewrite (lt_asym x x Hx Hx Hxx) in Hxx. discriminate.
Qed.

(** A list has one arrangement that is sorted and keeps tied items in
    their order, so every stable sort returns what [sorted] returns. *)
Lemma stable_arrangement_unique l l' :
  Forall ok l -> Permutation l l' ->
  StronglySorted (may_precede lt) l -> StronglySorted (may_precede lt) l' ->
  (forall z, ok z -> filter (ties lt z) l = filter (ties lt z) l') ->
  l = l'.
Proof.
  intros Hok Hperm Hs. revert l' Hperm.
  induction Hs as [|x l Hl IH Hx]; intros l' Hperm Hs' Hties.
  - apply Permutation_nil in Hperm. congruence.
  - destruct Hs' as [|y l' Hl' Hy].
    { apply Permutation_sym, Permutation_nil in Hperm. discriminate. }
    inversion Hok as [|? ? Hokx Hokl]; subst.
    assert (Hoky : ok y).
    { eapply Permutation_Forall in Hok; [|exact Hperm].
      inversion Hok; assumption. }
    assert (Hxy : x = y).
    { assert (Hyx : ties lt x y = true).
      { assert (Hin : In y (x :: l))
          by (eapply Permutation_in;
              [symmetry; exact Hperm | left; reflexivity]).
        assert (Hin' : In x (y :: l'))
          by (eapply Permutation_in; [exact Hperm | left; reflexivity]).
        destruct Hin as [->|Hin]; [apply ties_refl, Hokx|].
        destruct Hin' as [->|Hin']; [apply ties_refl, Hoky|].
        rewrite Forall_forall in Hx, Hy. unfold ties.
        rewrite (Hy x Hin'), (Hx y Hin). reflexivity. }
      specialize (Hties x Hokx). cbn [filter] in Hties.
      rewrite (ties_refl x Hokx), Hyx in Hties. congruence. }
    subst y. f_equal. apply IH; [assumption| |assumption|].
    + eapply Permutation_cons_inv; exact Hperm.
    + intros z Hz. specialize (Hties z Hz). cbn [filter] in Hties.
      destruct (ties lt z x); congruence.
Qed.

(** When values that may precede each other are equal, a list has one
    sorted arrangement only. *)
Hypothesis precede_antisym :
  forall x y, ok x -> ok y -> may_precede lt x y -> may_precede lt y x -> x = y.

Lemma sorted_arrangement_unique l l' :
  Forall ok l -> Permutation l l' ->
  StronglySorted (may_precede lt) l ->
  StronglySorted (may_precede lt) l' -> l = l'.
Proof.
  intros Hok Hperm Hs. revert l' Hperm.
  induction Hs as [|x l Hl IH Hx]; intros l' Hperm Hs'.
  - apply Permutation_nil in Hperm. congruence.
  - destruct Hs' as [|y l' Hl' Hy].
    { apply Permutation_sym, Permutation_nil in Hperm. discriminate. }
    inversion Hok as [|? ? Hokx Hokl]; subst.
    assert (Hoky : ok y).
    { eapply Permutation_Forall in Hok; [|exact Hperm].
      inversion Hok; assumption. }
    assert (Hxy : x = y).
    { assert (Hin : In y (x :: l))
        by (eapply Permutation_in; [symmetry; exact Hperm | left; reflexivity]).
      assert (Hin' : In x (y :: l'))
        by (eapply Permutation_in; [exact Hperm | left; reflexivity]).
      destruct Hin as [|Hin]; [assumption|].
      destruct Hin' as [|Hin']; [congruence|].
      rewrite Forall_forall in Hx, Hy.
      apply precede_antisym; auto. }
    subst y. f_equal. apply IH; [assumption| |assumption].
    eapply Permutation_cons_inv; exact Hperm.
Qed.

Lemma sorted_deterministic l l' :
  Forall ok l -> Permutation l l' -> sorted lt l = sorted lt l'.
Proof.
  intros Hok Hperm.
  assert (Hok' : Forall ok l') by (eapply Permutation_Forall; eassumption).
  apply sorted_arrangement_unique.
  - eapply Permutation_Forall; [symmetry; apply sorted_perm | exact Hok].
  - rewrite !sorted_perm. exact Hperm.
  - apply sorted_sorted; assumption.
  - apply sorted_sorted; assumption.
Qed.
End SortFacts.

(** ** Counting with a dict *)

Section DictFacts.
Context {K : Type} (eqb : K -> K -> bool).

(** The keys [ok] singles out are those on which [==] is an equivalence
    (for floats, everything but NaN). *)
Variable ok : K -> Prop.
Hypothesis eqb_refl : forall k, ok k -> eqb k k = true.
Hypothesis eqb_sym : forall j k, ok j -> ok k -> eqb j k = eqb k j.
Hypothesis eqb_trans :
  forall j k l, ok j -> ok k -> ok l ->
    eqb j k = true -> eqb k l = true -> eqb j l = true.


Lemma occurrences_app k l l' :
  occurrences eqb k (l ++ l') = occurrences eqb k l + occurrences eqb k l'.
Proof.
  unfold occurrences.
  rewrite filter_app, length_app. lia.
Qed.

Lemma occurrences_one k v :
  occurrences eqb k [v] = if eqb v k then 1 else 0.
Proof.
  unfold occurrences. cbn [filter].
  destruct (eqb v k); reflexivity.
Qed.

Lemma occurrences_none k l :
  Forall (fun v => eqb v k = false) l -> occurrences eqb k l = 0.
Proof.
  unfold occurrences. induction 1 as [|v l Hv _ IH]; [reflexivity|].
  cbn [filter]. rewrite Hv. exact IH.
Qed.

(** One insertion: the count of an existing key goes up by one and its
    place is kept; a new key is appended with count one. *)
Lemma tally_one d v :
  (Forall (fun k => eqb k v = false) (keys d)
   /\ set eqb d v (get eqb d v 0 + 1) = d ++ [(v, 1)])
  \/ (exists d1 k c d2,
        d = d1 ++ (k, c) :: d2
        /\ Forall (fun j => eqb j v = false) (keys d1)
        /\ eqb k v = true
        /\ set eqb d v (get eqb d v 0 + 1) = d1 ++ (k, c + 1) :: d2).
Proof.
  induction d as [|[k c] d IH].
  - left. split; [constructor | reflexivity].
  - cbn [set get]. destruct (eqb k v) eqn:Hkv.
    + right. exists [], k, c, d.
      split; [reflexivity|]. split; [constructor|].
      split; [exact Hkv | reflexivity].
    + destruct IH
        as [[Hnone Hset] | (d1 & k' & c' & d2 & -> & Hd1 & Hk' & Hset)].
      * left. split; [constructor; assumption|]. rewrite Hset. reflexivity.
      * right. exists ((k, c) :: d1), k', c', d2.
        split; [reflexivity|]. split; [constructor; assumption|].
        split; [assumption|]. rewrite Hset. reflexivity.
Qed.

Lemma counted_empty : counted eqb [] [].
Proof. split; constructor. Qed.

Lemma counted_step processed d v :
  Forall ok processed -> ok v -> counted eqb processed d ->
  counted eqb (processed ++ [v]) (set eqb d v (get eqb d v 0 + 1)).
Proof.
  intros Hok Hv [Hkeys Hdistinct Hvalues Hall].
  assert (Hokd : Forall ok (keys d)).
  { rewrite Forall_forall in *. intros k Hk. apply Hok, Hkeys, Hk. }
  destruct (tally_one d v)
    as [[Hnone ->] | (d1 & k & c & d2 & -> & Hd1 & Hkv & ->)].
  - (* a new key *)
    split.
    + unfold keys. rewrite map_app, Forall_app. split.
      * eapply Forall_impl; [|exact Hkeys]. intros k Hk.
        apply in_or_app. left. exact Hk.
      * repeat constructor. apply in_or_app. right. left. reflexivity.
    + unfold keys. rewrite map_app. cbn [map fst].
      apply ForallOrdPairs_app; [exact Hdistinct | repeat constructor|].
      intros j k Hj [<-|[]]. rewrite Forall_forall in Hnone. auto.
    + unfold items. rewrite Forall_app. split.
      * rewrite Forall_forall in *. intros [k c] Hin. cbn [fst snd].
        rewrite occurrences_app, occurrences_one.
        assert (Hk : In k (keys d)) by (apply (in_map fst _ _ Hin)).
        pose proof (Hvalues _ Hin) as Hc. cbn [fst snd] in Hc.
        rewrite (eqb_sym v k), (Hnone k Hk) by auto. lia.
      * repeat constructor. cbn [fst snd].
        rewrite occurrences_app, occurrences_one, (eqb_refl v Hv).
        assert (Hzero : occurrences eqb v processed = 0).
        { apply occurrences_none.
          rewrite Forall_forall in Hall, Hnone, Hok, Hokd.
          apply Forall_forall. intros w Hw.
          destruct (eqb w v) eqn:Hwv; [|reflexivity].
          specialize (Hall w Hw). apply Exists_exists in Hall.
          destruct Hall as (k & Hk & Hkw).
          rewrite <- (Hnone k Hk). symmetry.
          apply (eqb_trans k w v); auto. }
        lia.
    + unfold keys. rewrite map_app. cbn [map fst].
      rewrite Forall_app. split.
      * eapply Forall_impl; [|exact Hall]. intros w Hw.
        apply Exists_app. left. exact Hw.
      * repeat constructor. apply Exists_app. right. left.
        apply eqb_refl, Hv.
  - (* an existing key *)
    unfold keys, items in *. rewrite map_app in *. cbn [map fst] in *.
    assert (Hk : ok k).
    { rewrite Forall_forall in Hokd. apply Hokd, in_or_app. right. left.
      reflexivity. }
    apply Forall_app in Hokd. destruct Hokd as [Hok1 Hok2].
    inversion Hok2 as [|? ? _ Hok2']; subst.
    assert (Hd2 : Forall (fun j => eqb j v = false) (map fst d2)).
    { apply ForallOrdPairs_app_inv in Hdistinct.
      destruct Hdistinct as (_ & Hd2 & _).
      inversion Hd2 as [|? ? Hkd2 _]; subst.
      rewrite Forall_forall in *. intros j Hj.
      destruct (eqb j v) eqn:Hjv; [|reflexivity].
      rewrite <- (Hkd2 j Hj). symmetry.
      apply (eqb_trans k v j); auto.
      rewrite (eqb_sym v j), Hjv; auto. }
    assert (Hunchanged : forall d',
              Forall ok (map fst d') ->
              Forall (fun j => eqb j v = false) (map fst d') ->
              Forall (fun item =>
                        snd item = occurrences eqb (fst item) processed) d' ->
              Forall (fun item =>
                        snd item
                        = occurrences eqb (fst item) (processed ++ [v])) d').
    { intros d' Hokd' Hnot Hcount. rewrite Forall_forall in *.
      intros [j cj] Hin. cbn [fst snd].
      assert (Hj : In j (map fst d')) by (apply (in_map fst _ _ Hin)).
      rewrite occurrences_app, occurrences_one.
      specialize (Hcount _ Hin). cbn [fst snd] in Hcount.
      rewrite (eqb_sym v j), (Hnot j Hj) by auto. lia. }
    apply Forall_app in Hvalues. destruct Hvalues as [Hv1 Hv2].
    inversion Hv2 as [|? ? Hc Hv2']; subst. cbn [fst snd] in Hc.
    split; unfold keys, items; rewrite ?map_app; cbn [map fst].
    + eapply Forall_impl; [|exact Hkeys]. intros j Hj.
      apply in_or_app. left. exact Hj.
    + exact Hdistinct.
    + rewrite Forall_app. split; [apply Hunchanged; assumption|].
      constructor; [|apply Hunchanged; assumption].
      cbn [fst snd]. rewrite occurrences_app, occurrences_one.
      rewrite (eqb_sym v k), Hkv by assumption. lia.
    + rewrite Forall_app. split; [exact Hall|].
      repeat constructor. apply Exists_app. right. left. exact Hkv.
Qed.

Lemma counted_tally l : forall processed d,
  Forall ok processed -> Forall ok l -> counted eqb processed d ->
  counted eqb (processed ++ l) (tally eqb l d).
Proof.
  induction l as [|v l IH]; intros processed d Hp Hl Hd; cbn [tally fold_left].
  - rewrite app_nil_r. exact Hd.
  - inversion Hl; subst.
    change (processed ++ v :: l) with (processed ++ [v] ++ l).
    rewrite app_assoc. apply IH; [|assumption|].
    + apply Forall_app. split; [assumption | repeat constructor; assumption].
    + apply counted_step; assumption.
Qed.

Lemma tally_counted l :
  Forall ok l -> counted eqb l (tally eqb l []).
Proof.
  intros Hl. apply (counted_tally l [] []); [constructor | exact Hl|].
  split; constructor.
Qed.

Lemma ForallOrdPairs_perm (R : K -> K -> Prop) l l' :
  (forall a b, R a b -> R b a) ->
  Permutation l l' -> ForallOrdPairs R l -> ForallOrdPairs R l'.
Proof.
  intros Hsym Hperm.
  induction Hperm as [|x l l' Hp IH|x y l|l l' l'' _ IH1 _ IH2]; intros H.
  - exact H.
  - inversion H; subst. constructor; [|apply IH; assumption].
    eapply Permutation_Forall; eassumption.
  - inversion H as [|? ? Hy Hrest]; subst.
    inversion Hrest as [|? ? Hx Hl]; subst.
    inversion Hy as [|? ? Hyx Hyl]; subst.
    constructor; [constructor; [apply Hsym; exact Hyx | exact Hx]|].
    constructor; assumption.
  - apply IH2, IH1, H.
Qed.

Lemma ForallOrdPairs_filter_keys (R : K -> K -> Prop) (p : K * Z -> bool)
    (d : dict (K:=K) (V:=Z)) :
  ForallOrdPairs R (keys d) -> ForallOrdPairs R (keys (filter p d)).
Proof.
  unfold keys. induction d as [|item d IH]; cbn [map filter]; intros H;
    [constructor|].
  inversion H as [|? ? Hitem Hrest]; subst.
  destruct (p item); [|apply IH; assumption].
  cbn [map]. constructor; [|apply IH; assumption].
  rewrite Forall_forall in *. intros k Hk. apply Hitem.
  apply in_map_iff in Hk. destruct Hk as (it & <- & Hin).
  apply in_map, (proj1 (filter_In _ _ _) Hin).
Qed.
End DictFacts.

Section MaxFacts.

Lemma fold_max_spec rest : forall x,
  let m := fold_left Z.max rest x in
  In m (x :: rest) /\ Forall (fun y => y <= m) (x :: rest).
Proof.
  induction rest as [|y rest IH]; intros x; cbn [fold_left].
  - split; [left; reflexivity | repeat constructor; lia].
  - destruct (IH (Z.max x y)) as [Hin Hall].
    inversion Hall as [|? ? Hxy Hrest]; subst. split.
    + destruct Hin as [Hin|Hin]; [|right; right; exact Hin].
      rewrite <- Hin.
      destruct (Z.max_spec x y) as [[_ Hm]|[_ Hm]]; rewrite Hm;
        [right; left | left]; reflexivity.
    + constructor; [lia|]. constructor; [lia | exact Hrest].
Qed.

Lemma max_int_spec xs :
  xs <> [] ->
  exists m, max_int xs = Returns m /\ In m xs /\ Forall (fun y => y <= m) xs.
Proof.
  destruct xs as [|x rest]; [congruence|]. intros _.
  exists (fold_left Z.max rest x). split; [reflexivity|].
  apply fold_max_spec.
Qed.

Lemma collect_modes (max_count : Z) (its : list (spec_float * Z)) : forall acc,
  fold_left
    (fun modes '(value, count) =>
       if count =? max_count then modes ++ [value] else modes)
    its acc
  = acc ++ keys (filter (fun item => snd item =? max_count) its).
Proof.
  unfold keys.
  induction its as [|[value count] its IH]; intros acc;
    cbn [fold_left filter snd].
  - rewrite app_nil_r. reflexivity.
  - rewrite IH. destruct (count =? max_count); [|reflexivity].
    cbn [map fst]. rewrite <- app_assoc. reflexivity.
Qed.
End MaxFacts.

(** ** Base conversion and the strict integer parser *)

Module ConvertNumbersFacts.
Import ConvertNumbers.

Section ConvertFacts.

Ltac unfold_loop :=
  rewrite convert_loop_equation_1;
  unfold convert_loop_unfold_clause_1,
         convert_loop_unfold_clause_1_clause_2,
         convert_loop_unfold_clause_1_clause_2_clause_2,
         convert_loop_unfold_clause_1_clause_2_clause_2_clause_3.

(** One turn of the loop, for a base the digit table covers. *)
Lemma convert_loop_step base digits value acc :
  0 < value -> 2 <= base <= Z.of_nat (length digits) ->
  exists d, nth_error digits (Z.to_nat (value mod base)) = Some d /\
    convert_loop base digits value acc
    = convert_loop base digits (value / base) (acc ++ [d]).
Proof.
  intros Hpos Hbase.
  destruct (index_in_range digits (value mod base)) as (d & Hidx & Hnth).
  { pose proof (Z.mod_pos_bound value base). lia. }
  exists d. split; [exact Hnth|].
  unfold_loop.
  destruct (Z_lt_dec 0 value) as [Hp|]; [|lia].
  destruct (Z.eq_dec base 0) as [|Hb]; [lia|].
  rewrite Hidx.
  destruct (Z_lt_dec (value / base) value) as [Hlt|Hge]; [reflexivity|].
  exfalso. apply Hge. apply Z.div_lt; lia.
Qed.

Lemma convert_loop_stop base digits value acc :
  value <= 0 -> convert_loop base digits value acc = Returns acc.
Proof.
  intros Hle. unfold_loop.
  destruct (Z_lt_dec 0 value); [lia|reflexivity].
Qed.

Lemma convert_loop_digits base digits :
  2 <= base <= Z.of_nat (length digits) ->
  forall value, 0 <= value -> forall acc,
  exists ds,
    convert_loop base digits value acc
    = Returns (acc ++ map (fun d => nth (Z.to_nat d) digits 0%N) ds)
    /\ Forall (fun d => 0 <= d < base) ds
    /\ value_lsb base ds = value
    /\ (0 < value -> ds <> []).
Proof.
  intros Hbase value.
  induction value as [value IH] using (well_founded_induction (Z.lt_wf 0)).
  intros Hnonneg acc.
  destruct (Z_lt_dec 0 value) as [Hpos|Hzero].
  - destruct (convert_loop_step base digits value acc Hpos Hbase)
      as (d & Hnth & Hstep).
    destruct (IH (value / base)) with (acc := acc ++ [d])
      as (ds & Hrun & Hrange & Hval & _).
    { split; [apply Z.div_pos; lia | apply Z.div_lt; lia]. }
    { apply Z.div_pos; lia. }
    exists (value mod base :: ds). repeat split.
    + rewrite Hstep, Hrun, <- app_assoc. simpl.
      rewrite (nth_error_nth _ _ _ Hnth). reflexivity.
    + constructor; [apply Z.mod_pos_bound; lia | exact Hrange].
    + simpl. rewrite Hval. pose proof (Z.div_mod value base). lia.
    + discriminate.
  - exists []. rewrite convert_loop_stop by lia. simpl.
    rewrite app_nil_r. repeat split; try constructor; lia.
Qed.

Lemma parse_base2_digits ds :
  Forall (fun d => 0 <= d < 2) ds -> ds <> [] ->
  parse_base2_literal (rev (map binary_digit ds)) = Some (value_lsb 2 ds).
Proof.
  intros Hrange Hne.
  assert (Hfold : fold_left base2_step (rev (map binary_digit ds)) (Some 0)
                  = Some (value_lsb 2 ds)).
  { clear Hne. induction Hrange as [|d ds Hd _ IH]; [reflexivity|].
    cbn [map rev value_lsb]. rewrite fold_left_app, IH.
    cbn [fold_left].
    assert (d = 0 \/ d = 1) as [-> | ->] by lia;
      [change (base2_step (Some (value_lsb 2 ds)) (binary_digit 0))
         with (Some (value_lsb 2 ds * 2))
      |change (base2_step (Some (value_lsb 2 ds)) (binary_digit 1))
         with (Some (value_lsb 2 ds * 2 + 1))];
      f_equal; lia. }
  unfold parse_base2_literal.
  destruct (rev (map binary_digit ds)) eqn:Hrev; [|exact Hfold].
  apply (f_equal (@length _)) in Hrev.
  rewrite length_rev, length_map in Hrev.
  destruct ds; [congruence | discriminate].
Qed.

Lemma convert_positive_returns base digits n :
  2 <= base <= Z.of_nat (length digits) -> 0 <= n ->
  exists s, convert_positive_to_base n base digits = Returns s
            /\ (n = 0 -> s = u"0")
            /\ (0 < n -> exists ds,
                   s = rev (map (fun d => nth (Z.to_nat d) digits 0%N) ds)
                   /\ Forall (fun d => 0 <= d < base) ds
                   /\ value_lsb base ds = n /\ ds <> []).
Proof.
  intros Hbase Hn. unfold convert_positive_to_base.
  destruct (n =? 0) eqn:Hz.
  - exists (u"0"). repeat split; intros; lia.
  - destruct (convert_loop_digits base digits Hbase n Hn [])
      as (ds & Hrun & Hrange & Hval & Hne).
    rewrite Hrun. simpl. eexists. split; [reflexivity|]. split; [lia|].
    intros Hpos. exists ds. auto.
Qed.
End ConvertFacts.

Lemma digits_unsigned base digits ds :
  Forall (fun c => char_eqb c (ord "-") = false) digits ->
  Forall (fun d => 0 <= d < base) ds -> base <= Z.of_nat (length digits) ->
  has_sign (rev (map (fun d => nth (Z.to_nat d) digits 0%N) ds)) = false.
Proof.
  intros Htable Hrange Hlen.
  assert (Hall : Forall (fun c => char_eqb c (ord "-") = false)
                   (rev (map (fun d => nth (Z.to_nat d) digits 0%N) ds))).
  { apply Forall_rev, Forall_map. eapply Forall_impl; [|exact Hrange].
    intros d Hd. cbv beta in Hd.
    rewrite Forall_forall in Htable. apply Htable, nth_In. lia. }
  destruct Hall; [reflexivity | assumption].
Qed.

(** C1: a non-negative integer converted to base 2 reads back as itself;
    zero converts to the single digit [0] in binary and in hexadecimal; a
    negative integer converts to [-] followed by the conversion of its
    absolute value, as in [to_binary(-5) = "-101"]; a rendering starts with
    [-] for negative integers only, so zero never carries a sign. *)
Theorem base_conversion_round_trip (n : Z) :
  (0 <= n ->
     exists s, convert_positive_to_base n 2 (u"01") = Returns s
               /\ parse_base2_literal s = Some n)
  /\ to_binary 0 = Returns (u"0") /\ to_hex 0 = Returns (u"0")
  /\ (n < 0 ->
        exists b h,
          to_binary (Z.abs n) = Returns b /\ to_binary n = Returns (u"-" ++ b)
          /\ to_hex (Z.abs n) = Returns h /\ to_hex n = Returns (u"-" ++ h))
  /\ to_binary (-5) = Returns (u"-101")
  /\ (forall s, to_binary n = Returns s \/ to_hex n = Returns s ->
                has_sign s = (n <? 0)).
Proof.
  assert (Hbin : 2 <= 2 <= Z.of_nat (length (u"01"))) by (simpl; lia).
  assert (Hhex : 2 <= 16 <= Z.of_nat (length HEX_DIGITS)) by (simpl; lia).
  assert (Hbt : Forall (fun c => char_eqb c (ord "-") = false) (u"01"))
    by (repeat constructor).
  assert (Hht : Forall (fun c => char_eqb c (ord "-") = false) HEX_DIGITS)
    by (repeat constructor).
  assert (Hunsigned : forall base digits m s,
            2 <= base <= Z.of_nat (length digits) ->
            Forall (fun c => char_eqb c (ord "-") = false) digits ->
            0 <= m -> convert_positive_to_base m base digits = Returns s ->
            has_sign s = false).
  { intros base digits m s Hb Ht Hm Hs.
    destruct (convert_positive_returns base digits m Hb Hm)
      as (s' & Hs' & Hzero & Hpos).
    rewrite Hs in Hs'. injection Hs' as <-.
    destruct (Z.eq_dec m 0) as [Hz|Hnz].
    - rewrite (Hzero Hz). reflexivity.
    - destruct Hpos as (ds & -> & Hrange & _); [lia|].
      apply (digits_unsigned base); [assumption | assumption | lia]. }
  split; [|split; [|split; [|split; [|split]]]].
  - intros Hn.
    destruct (convert_positive_returns 2 (u"01") n Hbin Hn)
      as (s & Hs & Hzero & Hpos).
    exists s. split; [exact Hs|].
    destruct (Z.eq_dec n 0) as [Hz|Hnz].
    + rewrite (Hzero Hz), Hz. reflexivity.
    + destruct Hpos as (ds & -> & Hrange & <- & Hne); [lia|].
      apply parse_base2_digits; assumption.
  - reflexivity.
  - reflexivity.
  - intros Hneg.
    destruct (convert_positive_returns 2 (u"01") (- n) Hbin) as (b & Hb & _);
      [lia|].
    destruct (convert_positive_returns 16 HEX_DIGITS (- n) Hhex)
      as (h & Hh & _); [lia|].
    exists b, h. unfold to_binary, to_hex.
    rewrite Z.abs_neq by lia.
    destruct (- n <? 0) eqn:H1; [lia|].
    destruct (n <? 0) eqn:H2; [|lia].
    rewrite Hb, Hh. repeat split; reflexivity.
  - vm_compute. reflexivity.
  - intros s Hs. unfold to_binary, to_hex in Hs.
    destruct (n <? 0) eqn:Hneg.
    + destruct Hs as [Hs|Hs];
        [destruct (convert_positive_to_base (- n) 2 (u"01"))
        |destruct (convert_positive_to_base (- n) 16 HEX_DIGITS)];
        simpl in Hs; try discriminate; injection Hs as <-; reflexivity.
    + destruct Hs as [Hs|Hs];
        [apply (Hunsigned 2 (u"01") n) | apply (Hunsigned 16 HEX_DIGITS n)];
        auto; lia.
Qed.

Lemma base_conversion_round_trip_witness :
  (exists s, convert_positive_to_base 6 2 (u"01") = Returns s
             /\ parse_base2_literal s = Some 6)
  /\ (exists b h,
        to_binary (Z.abs (-5)) = Returns b
        /\ to_binary (-5) = Returns (u"-" ++ b)
        /\ to_hex (Z.abs (-5)) = Returns h
        /\ to_hex (-5) = Returns (u"-" ++ h)).
Proof.
  split.
  - apply (proj1 (base_conversion_round_trip 6)). lia.
  - apply (proj1 (proj2 (proj2 (proj2 (base_conversion_round_trip (-5)))))).
    lia.
Defined.

Section ParseFacts.

Lemma scan_digits_fold ds : forall value,
  scan_digits ds value
  = if forallb is_digit ds
    then Some (fold_left (fun value ch => value * 10 + digit_value ch)
                         ds value)
    else None.
Proof.
  induction ds as [|ch ds IH]; intros value; [reflexivity|].
  cbn [scan_digits forallb fold_left].
  assert (Hdigit : N.ltb ch (ord "0") || N.ltb (ord "9") ch
                   = negb (is_digit ch)).
  { unfold is_digit. rewrite negb_andb, !N.leb_antisym, !negb_involutive.
    reflexivity. }
  rewrite Hdigit. destruct (is_digit ch); simpl; [apply IH | reflexivity].
Qed.

Lemma scan_digits_aborts ds ch rest value :
  is_digit ch = false -> scan_digits (ds ++ ch :: rest) value = None.
Proof.
  intros Hch. rewrite scan_digits_fold, forallb_app. cbn [forallb].
  rewrite Hch, andb_false_r. reflexivity.
Qed.

Lemma sign_not_digit :
  is_digit (ord "+") = false /\ is_digit (ord "-") = false.
Proof. split; reflexivity. Qed.

Lemma digit_is_no_sign c :
  is_digit c = true ->
  char_eqb c (ord "+") = false /\ char_eqb c (ord "-") = false.
Proof.
  intros Hc. split; apply N.eqb_neq; intros ->; discriminate.
Qed.

Lemma strict_integer_functional text v v' :
  strict_integer text v -> strict_integer text v' -> v = v'.
Proof.
  intros H H'.
  destruct H as [ds Hne Hds|ds Hne Hds|ds Hne Hds];
    inversion H' as [ds' Hne' Hds' Heq|ds' Hne' Hds' Heq|ds' Hne' Hds' Heq];
    subst; try reflexivity; discriminate.
Qed.

(** Text after an optional sign: all digits and not empty, or refused. *)
Lemma parse_body sign start_idx c0 rest line_no printed :
  (start_idx = 0%nat \/ start_idx = 1%nat) ->
  skipn start_idx (c0 :: rest) <> [] ->
  (if Nat.eqb start_idx (length (c0 :: rest)) then
     (printed, (false, 0))
   else
     match scan_digits (skipn start_idx (c0 :: rest)) 0 with
     | None => ([not_an_integer line_no], (false, 0))
     | Some value => ([], (true, sign * value))
     end)
  = if forallb is_digit (skipn start_idx (c0 :: rest))
    then ([], (true, sign * decimal_value (skipn start_idx (c0 :: rest))))
    else ([not_an_integer line_no], (false, 0)).
Proof.
  intros Hidx Hbody.
  destruct (Nat.eqb start_idx (length (c0 :: rest))) eqn:Hlen.
  - apply Nat.eqb_eq in Hlen. exfalso. apply Hbody. rewrite Hlen.
    apply skipn_all.
  - rewrite scan_digits_fold.
    destruct (forallb is_digit (skipn start_idx (c0 :: rest)));
      reflexivity.
Qed.

Lemma parse_int_strict_cases text line_no :
  (exists v, strict_integer text v
             /\ parse_int_strict text line_no = ([], (true, v)))
  \/ ((forall v, ~ strict_integer text v)
      /\ snd (parse_int_strict text line_no) = (false, 0)).
Proof.
  destruct text as [|c0 rest].
  { right. split; [|reflexivity]. intros v H. inversion H; congruence. }
  unfold parse_int_strict.
  destruct (char_eqb c0 (ord "+")) eqn:Hplus;
    [|destruct (char_eqb c0 (ord "-")) eqn:Hminus].
  - apply N.eqb_eq in Hplus. subst c0.
    destruct rest as [|c1 rest].
    + right. split; [|reflexivity].
      intros v H. inversion H; subst; try congruence; discriminate.
    +         rewrite (parse_body 1 1) by (auto; discriminate). cbn [skipn].
      destruct (forallb is_digit (c1 :: rest)) eqn:Hds.
      * left. eexists. split; [|reflexivity].
        rewrite Z.mul_1_l. apply strict_plus; [discriminate | exact Hds].
      * right. split; [|reflexivity].
        intros v H. inversion H; subst; try congruence; discriminate.
  - apply N.eqb_eq in Hminus. subst c0.
    destruct rest as [|c1 rest].
    + right. split; [|reflexivity].
      intros v H. inversion H; subst; try congruence; discriminate.
    +         rewrite (parse_body (-1) 1) by (auto; discriminate). cbn [skipn].
      destruct (forallb is_digit (c1 :: rest)) eqn:Hds.
      * left. eexists. split; [|reflexivity].
        replace (-1 * decimal_value (c1 :: rest))
          with (- decimal_value (c1 :: rest)) by lia.
        apply strict_minus; [discriminate | exact Hds].
      * right. split; [|reflexivity].
        intros v H. inversion H; subst; try congruence; discriminate.
  - rewrite (parse_body 1 0) by (auto; discriminate). cbn [skipn].
    apply N.eqb_neq in Hplus, Hminus.
    destruct (forallb is_digit (c0 :: rest)) eqn:Hds.
    + left. eexists. split; [|reflexivity].
      rewrite Z.mul_1_l. apply strict_unsigned; [discriminate | exact Hds].
    + right. split; [|reflexivity].
      intros v H.
      inversion H; subst;
        first [congruence | now apply Hplus | now apply Hminus].
Qed.
End ParseFacts.

(** C7: the parser accepts exactly the strict integer grammar (an optional
    single sign, then one or more ASCII digits) and returns the decimal
    value of the digits with the sign applied; any other line is refused
    with [(False, 0)]; a lone sign is reported as a sign without digits;
    the scan of the digits stops at the first character that is not a
    digit, whatever follows it, and the line is reported as not an
    integer. *)
Theorem strict_integer_parser (text : str) (line_no : Z) :
  (forall v, strict_integer text v ->
             parse_int_strict text line_no = ([], (true, v)))
  /\ ((forall v, ~ strict_integer text v) ->
      snd (parse_int_strict text line_no) = (false, 0))
  /\ (text = u"+" \/ text = u"-" ->
      parse_int_strict text line_no
      = ([sign_without_digits line_no], (false, 0)))
  /\ (forall sign digits ch rest,
        text = sign ++ digits ++ ch :: rest ->
        sign = [] \/ sign = u"+" \/ sign = u"-" ->
        forallb is_digit digits = true -> is_digit ch = false ->
        (sign = [] -> digits = [] -> ch <> ord "+" /\ ch <> ord "-") ->
        scan_digits (digits ++ ch :: rest) 0 = None
        /\ parse_int_strict text line_no
           = ([not_an_integer line_no], (false, 0))).
Proof.
  split; [|split; [|split]].
  - intros v Hv.
    destruct (parse_int_strict_cases text line_no)
      as [(v' & Hv' & Hrun)|[Hno _]].
    + rewrite (strict_integer_functional _ _ _ Hv Hv'). exact Hrun.
    + destruct (Hno v Hv).
  - intros Hno.
    destruct (parse_int_strict_cases text line_no) as [(v' & Hv' & _)|[_ Hrun]].
    + destruct (Hno v' Hv').
    + exact Hrun.
  - intros [-> | ->]; reflexivity.
  - intros sign digits ch rest Htext Hsign Hdigits Hch Hfirst.
    split; [apply scan_digits_aborts; exact Hch|].
    assert (Hbody : forallb is_digit (digits ++ ch :: rest) = false).
    { rewrite forallb_app. cbn [forallb]. rewrite Hch, andb_false_r.
      reflexivity. }
    subst text. unfold parse_int_strict.
    destruct Hsign as [-> | [-> | ->]].
    + cbn [app].
      assert (Hc0 : exists c0 body, digits ++ ch :: rest = c0 :: body
                /\ char_eqb c0 (ord "+") = false
                /\ char_eqb c0 (ord "-") = false).
      { destruct digits as [|d digits'].
        - exists ch, rest. destruct Hfirst as [H1 H2]; auto.
          split; [reflexivity|]. split; apply N.eqb_neq; assumption.
        - exists d, (digits' ++ ch :: rest).
          cbn [forallb] in Hdigits. apply andb_true_iff in Hdigits.
          destruct (digit_is_no_sign d) as [H1 H2]; [tauto|].
          repeat split; assumption. }
      destruct Hc0 as (c0 & body & Heq & Hplus & Hminus).
      rewrite Heq in *. rewrite Hplus, Hminus.
      rewrite (parse_body 1 0) by (auto; discriminate). cbn [skipn].
      rewrite Hbody. reflexivity.
    + cbn [app str_of_string]. change (char_eqb (ord "+") (ord "+")) with true.
      cbv iota.
      rewrite (parse_body 1 1)
        by (auto; cbn [skipn]; destruct digits; discriminate).
      cbn [skipn]. rewrite Hbody. reflexivity.
    + cbn [app str_of_string]. change (char_eqb (ord "-") (ord "+")) with false.
      change (char_eqb (ord "-") (ord "-")) with true. cbv iota.
      rewrite (parse_body (-1) 1)
        by (auto; cbn [skipn]; destruct digits; discriminate).
      cbn [skipn]. rewrite Hbody. reflexivity.
Qed.

Lemma strict_integer_parser_witness :
  strict_integer (u"-12") (-12)
  /\ parse_int_strict (u"-12") 7 = ([], (true, -12))
  /\ parse_int_strict (u"-") 7 = ([sign_without_digits 7], (false, 0))
  /\ parse_int_strict (u"12.5") 7 = ([not_an_integer 7], (false, 0))
  /\ parse_int_strict (u"+-5") 7 = ([not_an_integer 7], (false, 0))
  /\ parse_int_strict (u"1e5") 7 = ([not_an_integer 7], (false, 0))
  /\ parse_int_strict (u"1 000") 7 = ([not_an_integer 7], (false, 0)).
Proof.
  assert (Hgrammar : strict_integer (u"-12") (-12))
    by (apply (strict_minus (u"12")); [discriminate | reflexivity]).
  split; [exact Hgrammar|].
  split; [apply (proj1 (strict_integer_parser (u"-12") 7)); exact Hgrammar|].
  split; [apply (proj1 (proj2 (proj2 (strict_integer_parser (u"-") 7))));
          right; reflexivity|].
  split; [|split; [|split]].
  - apply (proj2 (proj2 (proj2 (strict_integer_parser (u"12.5") 7)))
             [] (u"12") (ord ".") (u"5"));
      [reflexivity | left; reflexivity | reflexivity | reflexivity|].
    intros _ H. discriminate H.
  - apply (proj2 (proj2 (proj2 (strict_integer_parser (u"+-5") 7)))
             (u"+") [] (ord "-") (u"5"));
      [reflexivity | right; left; reflexivity | reflexivity | reflexivity|].
    intros H. discriminate H.
  - apply (proj2 (proj2 (proj2 (strict_integer_parser (u"1e5") 7)))
             [] (u"1") (ord "e") (u"5"));
      [reflexivity | left; reflexivity | reflexivity | reflexivity|].
    intros _ H. discriminate H.
  - apply (proj2 (proj2 (proj2 (strict_integer_parser (u"1 000") 7)))
             [] (u"1") (ord " ") (u"000"));
      [reflexivity | left; reflexivity | reflexivity | reflexivity|].
    intros _ H. discriminate H.
Defined.

End ConvertNumbersFacts.

(** ** Statistics *)

Module ComputeStatisticsFacts.
Import ComputeStatistics.

(** ** Comparison of floats *)

Section FloatOrder.

Lemma SFcompare_not_nan x y :
  isnan x = false -> isnan y = false -> exists c, SFcompare x y = Some c.
Proof.
  destruct x as [sx|sx| |sx mx ex], y as [sy|sy| |sy my ey];
    cbn [isnan SFcompare]; try discriminate; intros _ _; eexists; reflexivity.
Qed.

Lemma SFcompare_antisym x y :
  SFcompare y x = option_map CompOpp (SFcompare x y).
Proof.
  destruct x as [[]|[]| |[] mx ex], y as [[]|[]| |[] my ey];
    cbn [SFcompare option_map CompOpp]; try reflexivity;
    rewrite (Z.compare_antisym ex ey);
    destruct (ex ?= ey); cbn [CompOpp]; try reflexivity;
    change (Pos.compare_cont Eq my mx) with (Pos.compare my mx);
    change (Pos.compare_cont Eq mx my) with (Pos.compare mx my);
    rewrite (Pos.compare_antisym mx my); try reflexivity;
    rewrite CompOpp_involutive; reflexivity.
Qed.

(** Floats that compare equal are the same, up to the sign of zero. *)
Lemma SFcompare_eq x y :
  SFcompare x y = Some Eq ->
  x = y \/ (exists sx sy, x = S754_zero sx /\ y = S754_zero sy).
Proof.
  destruct x as [[]|[]| |[] mx ex], y as [[]|[]| |[] my ey];
    cbn [SFcompare]; try discriminate; intros H;
    try (left; reflexivity); try (right; eauto; fail);
    injection H as H; left;
    destruct (Z.compare_spec ex ey); try discriminate; subst;
    change (Pos.compare_cont Eq mx my) with (Pos.compare mx my) in H;
    destruct (Pos.compare_spec mx my); try discriminate; subst; reflexivity.
Qed.

Lemma SFcompare_zero_l sx sy z :
  SFcompare (S754_zero sx) z = SFcompare (S754_zero sy) z.
Proof. destruct z; reflexivity. Qed.

Lemma SFcompare_eq_l x y z :
  SFcompare x y = Some Eq -> SFcompare x z = SFcompare y z.
Proof.
  intros H. destruct (SFcompare_eq x y H) as [-> | (sx & sy & -> & ->)];
    [reflexivity | apply SFcompare_zero_l].
Qed.

Lemma SFcompare_refl x : isnan x = false -> SFcompare x x = Some Eq.
Proof.
  destruct x as [[]|[]| |[] mx ex]; cbn [isnan SFcompare];
    try discriminate; try reflexivity; intros _;
    rewrite Z.compare_refl;
    change (Pos.compare_cont Eq mx mx) with (Pos.compare mx mx);
    rewrite Pos.compare_refl; reflexivity.
Qed.

Lemma SFcompare_lt_trans x y z :
  SFcompare x y = Some Lt -> SFcompare y z = Some Lt ->
  SFcompare x z = Some Lt.
Proof.
  destruct x as [[]|[]| |[] mx ex], y as [[]|[]| |[] my ey],
           z as [[]|[]| |[] mz ez];
    cbn [SFcompare]; try discriminate; try reflexivity;
    change (Pos.compare_cont Eq mx my) with (Pos.compare mx my);
    change (Pos.compare_cont Eq my mz) with (Pos.compare my mz);
    change (Pos.compare_cont Eq mx mz) with (Pos.compare mx mz);
    intros H1 H2; injection H1 as H1; injection H2 as H2; f_equal;
    destruct (Z.compare_spec ex ey), (Z.compare_spec ey ez),
      (Z.compare_spec ex ez); try discriminate; try reflexivity; try lia;
    destruct (Pos.compare_spec mx my), (Pos.compare_spec my mz),
      (Pos.compare_spec mx mz); try discriminate; try reflexivity; try lia.
Qed.

Lemma flt_asym x y : flt x y = true -> flt y x = false.
Proof.
  unfold flt, SFltb. rewrite (SFcompare_antisym x y).
  destruct (SFcompare x y) as [[]|]; try discriminate. reflexivity.
Qed.

(** Away from NaN, [x] may precede [y] exactly when [x <= y]. *)
Lemma may_precede_fle x y :
  isnan x = false -> isnan y = false ->
  may_precede flt x y <-> fle x y = true.
Proof.
  intros Hx Hy. unfold may_precede, flt, fle, SFltb, SFleb.
  rewrite (SFcompare_antisym x y).
  destruct (SFcompare_not_nan x y Hx Hy) as [[] ->]; cbn;
    split; congruence.
Qed.

Lemma fle_trans x y z :
  fle x y = true -> fle y z = true -> fle x z = true.
Proof.
  unfold fle, SFleb. intros Hxy Hyz.
  destruct (SFcompare x y) as [[]|] eqn:Cxy; try discriminate;
    destruct (SFcompare y z) as [[]|] eqn:Cyz; try discriminate.
  - rewrite (SFcompare_eq_l x y z Cxy), Cyz. reflexivity.
  - rewrite (SFcompare_eq_l x y z Cxy), Cyz. reflexivity.
  - assert (Czy : SFcompare z y = Some Eq)
      by (rewrite (SFcompare_antisym y z), Cyz; reflexivity).
    assert (Czx : SFcompare z x = Some Gt).
    { rewrite (SFcompare_eq_l z y x Czy), (SFcompare_antisym x y), Cxy.
      reflexivity. }
    rewrite (SFcompare_antisym z x), Czx. reflexivity.
  - rewrite (SFcompare_lt_trans x y z Cxy Cyz). reflexivity.
Qed.

Lemma flt_precede_trans x y z :
  isnan x = false -> isnan y = false -> isnan z = false ->
  may_precede flt x y -> may_precede flt y z -> may_precede flt x z.
Proof.
  intros Hx Hy Hz. rewrite !may_precede_fle by assumption.
  apply fle_trans.
Qed.

Lemma isfinite_not_nan x : isfinite x = true -> isnan x = false.
Proof. destruct x; cbn; congruence. Qed.

Lemma sorted_floats_ascending values :
  Forall (fun v => isnan v = false) values ->
  StronglySorted (fun a b => fle a b = true) (sorted flt values).
Proof.
  intros Hok.
  assert (Hsorted : StronglySorted (may_precede flt) (sorted flt values)).
  { apply (sorted_sorted flt (fun v => isnan v = false)).
    - intros x y _ _. apply flt_asym.
    - apply flt_precede_trans.
    - exact Hok. }
  assert (Hok' : Forall (fun v => isnan v = false) (sorted flt values))
    by (eapply Permutation_Forall; [symmetry; apply sorted_perm | exact Hok]).
  induction Hsorted as [|a l Hl IH Ha]; constructor.
  - apply IH. inversion Hok'; assumption.
  - inversion Hok' as [|? ? Hnan Hrest]; subst.
    rewrite Forall_forall in *. intros b Hb.
    apply may_precede_fle; auto.
Qed.
End FloatOrder.

(** The float written [2.0] is the integer 2 as a float. *)
Example two_is_2 : two = of_int 2.
Proof. reflexivity. Qed.

(** ** Median *)

(** C3: on a list of finite floats that is not empty, the median sorts the
    values in ascending order and returns the middle item when their number
    is odd, and half the sum of the two middle items when it is even; the
    median of [1, 2, 3] is [2] and that of [1, 2, 3, 4] is [2.5], the float
    [5629499534213120 * 2^-51]. *)
Theorem median_of_sorted_values (values : list float) :
  (values <> [] -> Forall (fun v => isfinite v = true) values ->
   let sorted_vals := sorted flt values in
   let n := Z.of_nat (length values) in
   let item i := nth (Z.to_nat i) sorted_vals zero in
   Permutation sorted_vals values
   /\ StronglySorted (fun a b => fle a b = true) sorted_vals
   /\ (n mod 2 = 1 -> median values = Returns (item (n / 2)))
   /\ (n mod 2 = 0 ->
       median values
       = Returns (SFdiv prec emax (fadd (item (n / 2 - 1)) (item (n / 2)))
                        two)))
  /\ median [of_int 1; of_int 2; of_int 3] = Returns (of_int 2)
  /\ median [of_int 1; of_int 2; of_int 3; of_int 4]
     = Returns (S754_finite false 5629499534213120 (-51))
  /\ truediv (of_int 5) (of_int 2)
     = Returns (S754_finite false 5629499534213120 (-51)).
Proof.
  split.
  { intros Hne Hfinite sorted_vals n item.
    assert (Hlen : Z.of_nat (length sorted_vals) = n)
      by (unfold sorted_vals, n; rewrite sorted_length; reflexivity).
    assert (Hpos : 0 < n)
      by (unfold n; destruct values; [congruence | cbn; lia]).
    assert (Hitem : forall i, 0 <= i < n ->
                          index sorted_vals i = Returns (item i)).
    { intros i Hi. destruct (index_in_range sorted_vals i) as (a & Hidx & Hnth);
        [lia|]. rewrite Hidx. unfold item.
      rewrite (nth_error_nth _ _ _ Hnth). reflexivity. }
    split; [apply sorted_perm|].
    split.
    { apply sorted_floats_ascending. eapply Forall_impl; [|exact Hfinite].
      intros v. apply isfinite_not_nan. }
    split.
    - intros Hodd. unfold median. fold sorted_vals. rewrite Hlen, Hodd.
      cbn [Z.eqb Pos.eqb]. apply Hitem.
      split; [apply Z.div_pos; lia | apply Z.div_lt_upper_bound; lia].
    - intros Heven. unfold median. fold sorted_vals. rewrite Hlen, Heven.
      cbn [Z.eqb]. pose proof (Z.div_mod n 2 ltac:(lia)) as Hdiv.
      rewrite !Hitem by lia. reflexivity. }
  split; [|split]; vm_compute; reflexivity.
Qed.

Lemma median_of_sorted_values_witness :
  let values := [of_int 7; of_int 1; of_int 3] in
  values <> [] /\ Forall (fun v => isfinite v = true) values
  /\ median values = Returns (nth 1 (sorted flt values) zero).
Proof.
  intros values.
  assert (Hne : values <> []) by discriminate.
  assert (Hfinite : Forall (fun v => isfinite v = true) values)
    by (repeat constructor).
  split; [exact Hne|]. split; [exact Hfinite|].
  apply (proj1 (proj2 (proj2 (proj1 (median_of_sorted_values values)
                                     Hne Hfinite)))).
  reflexivity.
Defined.

Section FloatKeys.

Lemma feq_refl x : isnan x = false -> feq x x = true.
Proof. intros Hx. unfold feq, SFeqb. rewrite SFcompare_refl; auto. Qed.

Lemma feq_sym x y : feq x y = feq y x.
Proof.
  unfold feq, SFeqb. rewrite (SFcompare_antisym x y).
  destruct (SFcompare x y) as [[]|]; reflexivity.
Qed.

Lemma feq_compare x y : feq x y = true <-> SFcompare x y = Some Eq.
Proof.
  unfold feq, SFeqb. destruct (SFcompare x y) as [[]|]; split; congruence.
Qed.

Lemma feq_trans x y z : feq x y = true -> feq y z = true -> feq x z = true.
Proof.
  rewrite !feq_compare. intros Hxy Hyz.
  rewrite (SFcompare_eq_l x y z Hxy). exact Hyz.
Qed.

Lemma occurrences_feq j k l :
  feq j k = true -> occurrences feq j l = occurrences feq k l.
Proof.
  intros Hjk. unfold occurrences. do 2 f_equal.
  apply filter_ext. intros v. rewrite (feq_sym v j), (feq_sym v k).
  unfold feq, SFeqb.
  rewrite (SFcompare_eq_l j k v (proj1 (feq_compare j k) Hjk)). reflexivity.
Qed.

Lemma count_values_counted values :
  Forall (fun v => isnan v = false) values ->
  counted feq values (count_values values).
Proof.
  apply (tally_counted feq (fun v => isnan v = false)).
  - apply feq_refl.
  - intros j k _ _. apply feq_sym.
  - intros j k l _ _ _. apply feq_trans.
Qed.

Lemma count_values_not_empty values :
  values <> [] -> Forall (fun v => isnan v = false) values ->
  Py.values (count_values values) <> [].
Proof.
  intros Hne Hnan. destruct values as [|v values']; [congruence|].
  pose proof (counted_all _ _ _ (count_values_counted _ Hnan)) as Hall.
  inversion Hall as [|? ? Hv _]; subst.
  apply Exists_exists in Hv. destruct Hv as (k & Hk & _).
  unfold Py.values, keys in *. intros Hnil.
  apply map_eq_nil in Hnil. rewrite Hnil in Hk. destruct Hk.
Qed.

(** Distinct floats in sorted order are in strictly ascending order. *)
Lemma flt_of_precede x y :
  isnan x = false -> isnan y = false ->
  may_precede flt x y -> feq x y = false -> flt x y = true.
Proof.
  intros Hx Hy. unfold may_precede, flt, feq, SFltb, SFeqb.
  rewrite (SFcompare_antisym x y).
  destruct (SFcompare_not_nan x y Hx Hy) as [[] ->]; cbn; congruence.
Qed.

Lemma strictly_ascending l :
  Forall (fun v => isnan v = false) l ->
  StronglySorted (may_precede flt) l ->
  ForallOrdPairs (fun j k => feq j k = false) l ->
  StronglySorted (fun a b => flt a b = true) l.
Proof.
  intros Hnan Hsorted. induction Hsorted as [|a l Hl IH Ha]; intros Hdist;
    constructor.
  - apply IH; [inversion Hnan | inversion Hdist]; assumption.
  - inversion Hdist as [|? ? Hda _]; subst.
    inversion Hnan as [|? ? Hna Hnl]; subst.
    rewrite Forall_forall in *. intros b Hb.
    apply flt_of_precede; auto.
Qed.
End FloatKeys.

(** ** Mode *)

(** C2: on a list of finite floats that is not empty, the mode counts the
    occurrences of each value in a dict; with [max_count] the highest count,
    it reports no mode (an empty list) when [max_count <= 1], and otherwise
    the values whose count is [max_count], each once and in ascending order,
    together with [max_count]; [1, 1, 2, 2, 3] has the tied modes [1, 2]
    with frequency [2], and [1, 2, 3] has none. *)
Theorem mode_reports_most_frequent (values : list float) :
  (values <> [] -> Forall (fun v => isfinite v = true) values ->
   exists max_count,
     counted feq values (count_values values)
     /\ (exists v, In v values /\ occurrences feq v values = max_count)
     /\ (forall v, In v values -> occurrences feq v values <= max_count)
     /\ (max_count <= 1 -> mode values = Returns ([], 1))
     /\ (1 < max_count ->
         exists modes,
           mode values = Returns (modes, max_count)
           /\ StronglySorted (fun a b => flt a b = true) modes
           /\ (forall m, In m modes ->
                 In m values /\ occurrences feq m values = max_count)
           /\ (forall v, In v values ->
                 occurrences feq v values = max_count ->
                 exists m, In m modes /\ feq m v = true)))
  /\ mode [of_int 1; of_int 1; of_int 2; of_int 2; of_int 3]
     = Returns ([of_int 1; of_int 2], 2)
  /\ mode [of_int 1; of_int 2; of_int 3] = Returns ([], 1).
Proof.
  split.
  { intros Hne Hfinite.
    assert (Hnan : Forall (fun v => isnan v = false) values).
    { eapply Forall_impl; [|exact Hfinite]. intros v. apply isfinite_not_nan. }
    pose proof (count_values_counted values Hnan) as Hcounted.
    set (freq := count_values values) in *.
    assert (Hcounted' := Hcounted).
    destruct Hcounted as [Hkeys Hdistinct Hvalues Hall].
    assert (Hitems : forall k c, In (k, c) freq ->
              In k values /\ c = occurrences feq k values).
    { intros k c Hin. split.
      - rewrite Forall_forall in Hkeys. apply Hkeys.
        apply (in_map fst _ _ Hin).
      - rewrite Forall_forall in Hvalues. apply (Hvalues _ Hin). }
    assert (Hkey : forall v, In v values ->
              exists k c, In (k, c) freq /\ feq k v = true).
    { intros v Hv. rewrite Forall_forall in Hall.
      specialize (Hall v Hv). apply Exists_exists in Hall.
      destruct Hall as (k & Hk & Hkv). apply in_map_iff in Hk.
      destruct Hk as ([k' c] & <- & Hin). exists k', c. auto. }
    assert (Hfreq : Py.values freq <> [])
      by (apply count_values_not_empty; assumption).
    destruct (max_int_spec (Py.values freq) Hfreq) as (m & Hmax & Hin & Hle).
    exists m.
    split; [exact Hcounted'|].
    split.
    { apply in_map_iff in Hin. destruct Hin as ([k c] & <- & Hin).
      destruct (Hitems k c Hin) as [Hk ->]. exists k. auto. }
    split.
    { intros v Hv. destruct (Hkey v Hv) as (k & c & Hkc & Hkv).
      rewrite <- (occurrences_feq k v values Hkv).
      destruct (Hitems k c Hkc) as [_ <-].
      rewrite Forall_forall in Hle. apply Hle. apply (in_map snd _ _ Hkc). }
    split.
    { intros Hsmall. unfold mode. fold freq. rewrite Hmax. cbn [bind].
      destruct (Z.leb_spec m 1); [reflexivity | lia]. }
    intros Hbig. unfold mode. fold freq. rewrite Hmax. cbn [bind].
    destruct (Z.leb_spec m 1); [lia|].
    rewrite collect_modes. cbn [app].
    set (tied := keys (filter (fun item => snd item =? m) (items freq))).
    assert (Htied : forall k, In k tied <-> In (k, m) freq).
    { intros k. unfold tied, keys. rewrite in_map_iff. split.
      - intros ([k' c] & <- & Hf). apply filter_In in Hf.
        destruct Hf as [Hf Hc]. cbn [snd] in Hc. apply Z.eqb_eq in Hc.
        subst c. exact Hf.
      - intros Hf. exists (k, m). split; [reflexivity|].
        apply filter_In. split; [exact Hf | apply Z.eqb_refl]. }
    eexists. split; [reflexivity|].
    assert (Hperm : Permutation (sorted flt tied) tied) by apply sorted_perm.
    split; [|split].
    - assert (Htied_nan : Forall (fun v => isnan v = false) tied).
      { apply Forall_forall. intros k Hk. apply Htied in Hk.
        rewrite Forall_forall in Hnan. apply Hnan, (Hitems k m Hk). }
      assert (Hsorted : StronglySorted (may_precede flt) (sorted flt tied)).
      { apply (sorted_sorted flt (fun v => isnan v = false)).
        - intros x y _ _. apply flt_asym.
        - apply flt_precede_trans.
        - exact Htied_nan. }
      assert (Hdist : ForallOrdPairs (fun j k => feq j k = false)
                        (sorted flt tied)).
      { apply (ForallOrdPairs_perm _ tied).
        - intros a b. rewrite (feq_sym b a). auto.
        - symmetry. exact Hperm.
        - apply ForallOrdPairs_filter_keys. exact Hdistinct. }
      assert (Hnan' : Forall (fun v => isnan v = false) (sorted flt tied))
        by (eapply Permutation_Forall;
          [symmetry; exact Hperm | exact Htied_nan]).
      apply strictly_ascending; assumption.
    - intros k Hk. apply (Permutation_in _ Hperm), Htied in Hk.
      destruct (Hitems k m Hk) as [Hin' Hocc]. auto.
    - intros v Hv Hocc. destruct (Hkey v Hv) as (k & c & Hkc & Hkv).
      exists k. split; [|exact Hkv].
      apply (Permutation_in _ (Permutation_sym Hperm)), Htied.
      destruct (Hitems k c Hkc) as [_ Hc].
      rewrite (occurrences_feq k v values Hkv), Hocc in Hc. subst c.
    exact Hkc. }
  split; vm_compute; reflexivity.
Qed.

Lemma mode_reports_most_frequent_witness :
  let values := [of_int 2; of_int 1; of_int 2] in
  values <> [] /\ Forall (fun v => isfinite v = true) values
  /\ exists max_count,
       counted feq values (count_values values)
       /\ (forall v, In v values -> occurrences feq v values <= max_count).
Proof.
  intros values.
  assert (Hne : values <> []) by discriminate.
  assert (Hfinite : Forall (fun v => isfinite v = true) values)
    by (repeat constructor).
  split; [exact Hne|]. split; [exact Hfinite|].
  destruct (proj1 (mode_reports_most_frequent values) Hne Hfinite)
    as (max_count & Hcounted & _ & Hmax & _).
  exists max_count. split; assumption.
Defined.

(** ** Signs of rounded results *)

Section Rounding.
Variables prec emax : Z.

Lemma shr_1_nonneg mrs : 0 <= shr_m mrs -> 0 <= shr_m (shr_1 mrs).
Proof.
  destruct mrs as [m r s]. cbn [shr_m shr_1].
  destruct m as [|[p|p|]|[p|p|]]; cbn [shr_m]; lia.
Qed.

Lemma iter_shr_1_nonneg n : forall mrs,
  0 <= shr_m mrs -> 0 <= shr_m (iter_pos shr_1 n mrs).
Proof.
  induction n as [n IH|n IH|]; intros mrs Hm; cbn [iter_pos].
  - apply IH, IH, shr_1_nonneg, Hm.
  - apply IH, IH, Hm.
  - apply shr_1_nonneg, Hm.
Qed.

Lemma shr_fexp_nonneg m e l :
  0 <= m -> 0 <= shr_m (fst (shr_fexp prec emax m e l)).
Proof.
  intros Hm. unfold shr_fexp, shr.
  assert (Hrec : shr_m (shr_record_of_loc m l) = m)
    by (destruct l as [|[]]; reflexivity).
  destruct (fexp prec emax (Zdigits2 m + e) - e); cbn [fst];
    [lia | | lia].
  apply iter_shr_1_nonneg. lia.
Qed.

Lemma round_nearest_even_nonneg m l :
  0 <= m -> 0 <= round_nearest_even m l.
Proof.
  intros Hm. unfold round_nearest_even.
  destruct l as [|[]]; try destruct (Z.even m); lia.
Qed.

(** Rounding a non-negative mantissa keeps the sign it is given and
    never yields NaN. *)
Lemma binary_round_aux_sign sx mx ex lx :
  0 <= mx -> signed sx (binary_round_aux prec emax sx mx ex lx) = true.
Proof.
  intros Hmx. unfold binary_round_aux.
  pose proof (shr_fexp_nonneg mx ex lx Hmx) as H1.
  destruct (shr_fexp prec emax mx ex lx) as [mrs' e']. cbn [fst] in H1.
  pose proof (shr_fexp_nonneg
                (round_nearest_even (shr_m mrs') (loc_of_shr_record mrs'))
                e' loc_Exact
                (round_nearest_even_nonneg _ _ H1)) as H2.
  destruct (shr_fexp prec emax _ e' loc_Exact) as [mrs'' e''].
  cbn [fst] in H2.
  destruct (shr_m mrs'') as [|m|m]; [| |lia].
  - cbn. apply eqb_reflx.
  - destruct (e'' <=? emax - prec); cbn; apply eqb_reflx.
Qed.

Lemma binary_round_sign sx mx ex :
  signed sx (binary_round prec emax sx mx ex) = true.
Proof.
  unfold binary_round. destruct (shl_align mx ex _) as [mz ez].
  apply binary_round_aux_sign. lia.
Qed.

Lemma binary_normalize_not_nan m e :
  isnan (binary_normalize prec emax m e false) = false.
Proof.
  destruct m as [|p|p]; cbn [binary_normalize]; [reflexivity| |].
  - pose proof (binary_round_sign false p e) as H.
    destruct (binary_round prec emax false p e); cbn in *; congruence.
  - pose proof (binary_round_sign true p e) as H.
    destruct (binary_round prec emax true p e); cbn in *; congruence.
Qed.
End Rounding.

Section Arithmetic.

Lemma signed_not_nan s x : signed s x = true -> isnan x = false.
Proof. destruct x; cbn; congruence. Qed.

Lemma not_nan_signed x :
  isnan x = false -> signed false x = true \/ signed true x = true.
Proof. destruct x as [[]|[]| |[] m e]; cbn; auto; discriminate. Qed.

Lemma fmul_square d : isnan d = false -> signed false (fmul d d) = true.
Proof.
  destruct d as [[]|[]| |[] m e]; cbn [isnan]; try discriminate; intros _;
    try reflexivity; unfold fmul; cbn [SFmul xorb];
    apply binary_round_aux_sign; lia.
Qed.

Lemma fadd_nonneg x y :
  signed false x = true -> signed false y = true ->
  signed false (fadd x y) = true.
Proof.
  destruct x as [[]|[]| |[] mx ex], y as [[]|[]| |[] my ey];
    cbn [signed Bool.eqb]; try discriminate; intros _ _; try reflexivity.
  unfold fadd. cbn [SFadd cond_Zopp Z.add]. apply binary_round_sign.
Qed.

Lemma fadd_not_nan x y :
  isnan x = false -> isfinite y = true -> isnan (fadd x y) = false.
Proof.
  destruct x as [[]|[]| |sx mx ex], y as [[]|[]| |sy my ey];
    cbn [isnan isfinite]; try discriminate; intros _ _; try reflexivity.
  unfold fadd. cbn [SFadd]. apply binary_normalize_not_nan.
Qed.

Lemma fsub_not_nan x y :
  isfinite x = true -> isnan y = false -> isnan (fsub x y) = false.
Proof.
  destruct x as [[]|[]| |sx mx ex], y as [[]|[]| |sy my ey];
    cbn [isnan isfinite]; try discriminate; intros _ _; try reflexivity.
  unfold fsub. cbn [SFsub]. apply binary_normalize_not_nan.
Qed.

Lemma SFdiv_core_nonneg m1 e1 m2 e2 :
  0 <= fst (fst (SFdiv_core_binary prec emax (Zpos m1) e1 (Zpos m2) e2)).
Proof.
  unfold SFdiv_core_binary.
  set (s := _ - _ - _).
  set (m' := match s with Z0 => Zpos m1 | Zpos _ => Z.shiftl (Zpos m1) s
                        | Zneg _ => 0 end).
  assert (Hm' : 0 <= m').
  { unfold m'. destruct s; [lia | apply Z.shiftl_nonneg; lia | lia]. }
  pose proof (Z.div_pos m' (Zpos m2) Hm' ltac:(lia)) as Hq.
  unfold Z.div in Hq.
  destruct (Z.div_eucl m' (Zpos m2)) as [q r]. exact Hq.
Qed.

(** Division by a positive finite float keeps the sign of the dividend. *)
Lemma fdiv_signed s x my ey :
  signed s x = true ->
  signed s (SFdiv prec emax x (S754_finite false my ey)) = true.
Proof.
  destruct x as [sx|sx| |sx mx ex]; cbn [signed]; try discriminate;
    intros Hs; cbn [SFdiv signed]; rewrite ?xorb_false_r; try exact Hs.
  pose proof (SFdiv_core_nonneg mx ex my ey) as Hq.
  destruct (SFdiv_core_binary prec emax (Zpos mx) ex (Zpos my) ey)
    as [[mz ez] lz]. cbn [fst] in Hq.
  apply Bool.eqb_prop in Hs. subst s.
  apply binary_round_aux_sign, Hq.
Qed.

Lemma sqrt_nonneg x :
  signed false x = true -> signed false (SFsqrt prec emax x) = true.
Proof.
  destruct x as [[]|[]| |[] mx ex]; cbn [signed Bool.eqb]; try discriminate;
    intros _; try reflexivity.
  cbn [SFsqrt]. unfold SFsqrt_core_binary.
  match goal with
  | |- context [Z.sqrtrem ?m] =>
      pose proof (Z.sqrtrem_sqrt m) as Hq;
      pose proof (Z.sqrt_nonneg m) as Hnonneg;
      destruct (Z.sqrtrem m) as [q r]
  end.
  cbn [fst] in Hq. apply binary_round_aux_sign. lia.
Qed.

Lemma nonneg_fle x : signed false x = true -> fle zero x = true.
Proof. destruct x as [[]|[]| |[] m e]; cbn; congruence. Qed.
End Arithmetic.

(** The sign facts, for [auto]. *)
Create HintDb float_signs.
#[export] Hint Resolve fmul_square fadd_nonneg fadd_not_nan fsub_not_nan
  fdiv_signed sqrt_nonneg nonneg_fle : float_signs.

(** ** Integers as floats *)

Section Digits.

Lemma digits2_bounds p :
  2 ^ (Zpos (digits2_pos p) - 1) <= Zpos p < 2 ^ Zpos (digits2_pos p).
Proof.
  induction p as [p IH|p IH|]; cbn [digits2_pos];
    rewrite ?Pos2Z.inj_succ;
    try (replace (Z.succ (Zpos (digits2_pos p)) - 1)
           with (Z.succ (Zpos (digits2_pos p) - 1)) by lia;
         rewrite !Z.pow_succ_r by lia; lia).
  cbn. lia.
Qed.

Lemma digits2_le p k :
  0 <= k -> Zpos p < 2 ^ k -> Zpos (digits2_pos p) <= k.
Proof.
  intros Hk Hp. pose proof (digits2_bounds p) as [Hlow _].
  destruct (Z_le_gt_dec (Zpos (digits2_pos p)) k) as [|Hgt]; [assumption|].
  assert (2 ^ k <= 2 ^ (Zpos (digits2_pos p) - 1))
    by (apply Z.pow_le_mono_r; lia).
  lia.
Qed.

Lemma shr_1_digits mrs :
  1 < Zdigits2 (shr_m mrs) -> 0 < shr_m mrs ->
  0 < shr_m (shr_1 mrs)
  /\ Zdigits2 (shr_m (shr_1 mrs)) = Zdigits2 (shr_m mrs) - 1.
Proof.
  destruct mrs as [m r s]. cbn [shr_m shr_1].
  destruct m as [|[p|p|]|p]; cbn [shr_m Zdigits2 digits2_pos];
    rewrite ?Pos2Z.inj_succ; lia.
Qed.

Lemma iter_shr_1_digits k : forall mrs,
  0 < shr_m mrs -> Zpos k < Zdigits2 (shr_m mrs) ->
  0 < shr_m (iter_pos shr_1 k mrs)
  /\ Zdigits2 (shr_m (iter_pos shr_1 k mrs))
     = Zdigits2 (shr_m mrs) - Zpos k.
Proof.
  induction k as [k IH|k IH|]; intros mrs Hpos Hk; cbn [iter_pos].
  - destruct (shr_1_digits mrs) as [H1 D1]; [lia | lia|].
    destruct (IH (shr_1 mrs)) as [H2 D2]; [lia | lia|].
    destruct (IH (iter_pos shr_1 k (shr_1 mrs))) as [H3 D3]; [lia | lia|].
    split; [exact H3 | lia].
  - destruct (IH mrs) as [H2 D2]; [lia | lia|].
    destruct (IH (iter_pos shr_1 k mrs)) as [H3 D3]; [lia | lia|].
    split; [exact H3 | lia].
  - apply shr_1_digits; lia.
Qed.

(** One use of [shr_fexp] on a positive mantissa, at an exponent not
    below [emin]: the mantissa stays positive, is cut to at most [prec]
    digits, and the exponent grows by the digits cut. *)
Lemma shr_fexp_positive m e l :
  emin prec emax <= e ->
  let cut := Z.max (Zpos (digits2_pos m) - prec) 0 in
  let '(mrs, e') := shr_fexp prec emax (Zpos m) e l in
  0 < shr_m mrs
  /\ Zdigits2 (shr_m mrs) = Zpos (digits2_pos m) - cut
  /\ e' = e + cut
  /\ (cut = 0 -> mrs = shr_record_of_loc (Zpos m) l).
Proof.
  intros He cut. unfold shr_fexp, shr, fexp. cbn [Zdigits2].
  assert (Hrec : shr_m (shr_record_of_loc (Zpos m) l) = Zpos m)
    by (destruct l as [|[]]; reflexivity).
  destruct (Z.max (Zpos (digits2_pos m) + e - prec) (emin prec emax) - e)
    as [|k|k] eqn:Hn.
  - rewrite Hrec. cbn [Zdigits2]. unfold cut, prec in *. repeat split; lia.
  - destruct (iter_shr_1_digits k (shr_record_of_loc (Zpos m) l))
      as [Hpos Hdigits].
    + rewrite Hrec. lia.
    + rewrite Hrec. cbn [Zdigits2]. unfold prec in *. lia.
    + rewrite Hrec in Hdigits. cbn [Zdigits2] in Hdigits.
      unfold cut, prec in *. repeat split; lia.
  - rewrite Hrec. cbn [Zdigits2]. unfold cut, prec in *. repeat split; lia.
Qed.
End Digits.

Section IntToFloat.

Lemma round_nearest_even_bounds m l :
  m <= round_nearest_even m l <= m + 1.
Proof.
  unfold round_nearest_even.
  destruct l as [|[]]; try destruct (Z.even m); lia.
Qed.

(** A positive mantissa rounds to a positive float: finite when the
    exponent stays in range, infinite otherwise, never zero. *)
Lemma binary_round_aux_positive sx m e l :
  emin prec emax <= e ->
  let r := binary_round_aux prec emax sx (Zpos m) e l in
  signed sx r = true /\ feq r zero = false
  /\ (e + Z.max (Zpos (digits2_pos m) - prec) 0 < emax - prec ->
      isfinite r = true).
Proof.
  intros He r. unfold r, binary_round_aux.
  pose proof (shr_fexp_positive m e l He) as H1. cbv zeta in H1.
  destruct (shr_fexp prec emax (Zpos m) e l) as [mrs' e'].
  destruct H1 as (Hpos1 & Hdigits1 & He1 & _).
  pose proof (round_nearest_even_bounds (shr_m mrs') (loc_of_shr_record mrs'))
    as Hround.
  destruct (round_nearest_even (shr_m mrs') (loc_of_shr_record mrs'))
    as [|m2|m2] eqn:Hm2; [lia| |lia].
  pose proof (shr_fexp_positive m2 e' loc_Exact ltac:(lia)) as H2.
  cbv zeta in H2.
  destruct (shr_fexp prec emax (Zpos m2) e' loc_Exact) as [mrs'' e''].
  destruct H2 as (Hpos2 & Hdigits2 & He2 & _).
  destruct (shr_m mrs'') as [|m3|m3]; [lia| |lia].
  assert (Hm2digits : Zpos (digits2_pos m2) <= prec + 1).
  { destruct (shr_m mrs') as [|m1|m1] eqn:Hm1; [lia| |lia].
    cbn [Zdigits2] in Hdigits1.
    pose proof (digits2_bounds m1) as [_ Hup].
    apply digits2_le; [unfold prec; lia|].
    assert (2 ^ Zpos (digits2_pos m1) <= 2 ^ prec)
      by (apply Z.pow_le_mono_r; unfold prec in *; lia).
    replace (prec + 1) with (Z.succ prec) by lia.
    rewrite Z.pow_succ_r by (unfold prec; lia). lia. }
  destruct (Z.leb_spec e'' (emax - prec)); cbn [signed feq isfinite].
  - split; [apply eqb_reflx|]. split; [destruct sx; reflexivity|].
    reflexivity.
  - split; [apply eqb_reflx|]. split; [destruct sx; reflexivity|].
    unfold prec, emax in *. lia.
Qed.

Lemma of_int_positive p :
  signed false (of_int (Zpos p)) = true
  /\ feq (of_int (Zpos p)) zero = false
  /\ (Zpos p < 2 ^ 1023 -> isfinite (of_int (Zpos p)) = true).
Proof.
  unfold of_int. cbn [binary_normalize]. unfold binary_round.
  pose proof (digits2_bounds p) as [Hlow Hup].
  set (d := Zpos (digits2_pos p)) in *.
  assert (Hfexp : fexp prec emax (d + 0) = d - prec)
    by (unfold fexp, emin, prec, emax; lia).
  rewrite Hfexp. unfold shl_align.
  destruct (d - prec - 0) as [|k|k] eqn:Hk.
  - destruct (binary_round_aux_positive false p 0 loc_Exact) as (Hs & Hz & Hf);
      [unfold emin, prec, emax; lia|].
    repeat split; try assumption. intros _. apply Hf.
    fold d. unfold prec, emax in *. lia.
  - destruct (binary_round_aux_positive false p 0 loc_Exact) as (Hs & Hz & Hf);
      [unfold emin, prec, emax; lia|].
    repeat split; try assumption. intros Hbound. apply Hf. fold d.
    assert (d <= 1023) by (apply digits2_le; lia).
    unfold prec, emax in *. lia.
  - destruct (binary_round_aux_positive false (Pos.iter xO p k) (d - prec)
                                        loc_Exact)
      as (Hs & Hz & Hf); [unfold emin, prec, emax in *; lia|].
    repeat split; try assumption. intros _. apply Hf.
    assert (Hshift : Zpos (digits2_pos (Pos.iter xO p k)) = d + Zpos k).
    { clear. induction k as [|k IH] using Pos.peano_ind.
      - cbn [Pos.iter digits2_pos]. unfold d. lia.
      - rewrite Pos.iter_succ. cbn [digits2_pos].
        rewrite Pos2Z.inj_succ, IH. lia. }
    rewrite Hshift. unfold prec, emax in *. lia.
Qed.

Lemma float_of_int_positive n :
  0 < n ->
  (float_of_int n = Raises OverflowError
   \/ exists m e, float_of_int n = Returns (S754_finite false m e))
  /\ (n < 2 ^ 1023 ->
      exists m e, float_of_int n = Returns (S754_finite false m e)).
Proof.
  intros Hn. destruct n as [|p|p]; try lia.
  destruct (of_int_positive p) as (Hs & Hz & Hf).
  unfold float_of_int.
  destruct (of_int (Zpos p)) as [s|s| |s m e] eqn:Hof;
    cbn in Hs, Hz; try discriminate.
  - split; [left; reflexivity|]. intros Hb. specialize (Hf Hb).
    discriminate.
  - apply Bool.eqb_prop in Hs. subst s.
    split; [right|intros _]; eauto.
Qed.
End IntToFloat.

(** ** Mean, variance, standard deviation *)

Section Moments.

Lemma fold_left_map {A B C} (f : A -> C -> A) (g : B -> C) l : forall a,
  fold_left (fun a x => f a (g x)) l a = fold_left f (map g l) a.
Proof. induction l as [|x l IH]; intros a; cbn; [reflexivity | apply IH]. Qed.

Lemma fsum_nonneg xs : forall acc,
  signed false acc = true -> Forall (fun x => signed false x = true) xs ->
  signed false (fold_left fadd xs acc) = true.
Proof.
  induction xs as [|x xs IH]; intros acc Hacc Hxs; cbn [fold_left];
    [exact Hacc|].
  inversion Hxs; subst. apply IH; auto with float_signs.
Qed.

Lemma fsum_not_nan xs : forall acc,
  isnan acc = false -> Forall (fun x => isfinite x = true) xs ->
  isnan (fold_left fadd xs acc) = false.
Proof.
  induction xs as [|x xs IH]; intros acc Hacc Hxs; cbn [fold_left];
    [exact Hacc|].
  inversion Hxs; subst. apply IH; auto with float_signs.
Qed.

(** Dividing by the length of a list that is not empty. *)
Lemma truediv_int_length {A} (l : list A) (x : float) :
  l <> [] -> Z.of_nat (length l) <= sys_maxsize ->
  exists m e,
    of_int (Z.of_nat (length l)) = S754_finite false m e
    /\ truediv_int x (Z.of_nat (length l))
       = Returns (SFdiv prec emax x (of_int (Z.of_nat (length l)))).
Proof.
  intros Hne Hlen.
  assert (Hpos : 0 < Z.of_nat (length l))
    by (destruct l; [congruence | cbn [length]; lia]).
  destruct (float_of_int_positive _ Hpos) as [_ Hfinite].
  destruct Hfinite as (m & e & Hy).
  { unfold sys_maxsize in Hlen.
    assert (2 ^ 63 < 2 ^ 1023) by (apply Z.pow_lt_mono_r; lia). lia. }
  assert (Hof : of_int (Z.of_nat (length l)) = S754_finite false m e).
  { unfold float_of_int in Hy.
    destruct (of_int (Z.of_nat (length l))); congruence. }
  exists m, e. split; [exact Hof|].
  unfold truediv_int. rewrite Hy, Hof. reflexivity.
Qed.

Lemma mean_returns values :
  values <> [] -> Forall (fun v => isfinite v = true) values ->
  Z.of_nat (length values) <= sys_maxsize ->
  exists avg, mean values = Returns avg /\ isnan avg = false.
Proof.
  intros Hne Hfinite Hlen. unfold mean.
  set (total := fold_left _ values zero).
  destruct (truediv_int_length values total Hne Hlen) as (m & e & Hof & ->).
  eexists. split; [reflexivity|]. rewrite Hof.
  assert (Htotal : isnan total = false)
    by (apply fsum_not_nan; [reflexivity | exact Hfinite]).
  destruct (not_nan_signed total Htotal) as [Hs|Hs];
    eapply signed_not_nan, fdiv_signed, Hs.
Qed.

Lemma variance_returns values avg :
  values <> [] -> Forall (fun v => isfinite v = true) values ->
  Z.of_nat (length values) <= sys_maxsize -> isnan avg = false ->
  variance values avg = Returns (population_variance values avg)
  /\ signed false (population_variance values avg) = true.
Proof.
  intros Hne Hfinite Hlen Havg. unfold variance, population_variance.
  rewrite (fold_left_map fadd (fun v => fmul (fsub v avg) (fsub v avg))).
  fold (squared_deviations values avg).
  fold (fsum (squared_deviations values avg)).
  destruct (truediv_int_length values (fsum (squared_deviations values avg))
                               Hne Hlen) as (m & e & Hof & ->).
  split; [reflexivity|]. rewrite Hof. apply fdiv_signed.
  apply fsum_nonneg; [reflexivity|].
  unfold squared_deviations. apply Forall_map.
  eapply Forall_impl; [|exact Hfinite]. intros v Hv.
  auto with float_signs.
Qed.

Lemma std_deviation_returns var :
  signed false var = true ->
  std_deviation var = Returns (SFsqrt prec emax var).
Proof.
  intros Hvar. unfold std_deviation, math_sqrt.
  rewrite (signed_not_nan _ _ (sqrt_nonneg var Hvar)). reflexivity.
Qed.
End Moments.

(** C4: on a list of finite floats that is not empty, the variance is the
    population variance, the sum of the squared deviations from the mean
    divided by the full count; it is [>= 0], and the standard deviation is
    its square root.  The mean the pipeline passes is never NaN, and the
    statement holds for any such [avg]. *)
Theorem variance_is_population_variance (values : list float) :
  values <> [] -> Forall (fun v => isfinite v = true) values ->
  Z.of_nat (length values) <= sys_maxsize ->
  (exists avg, mean values = Returns avg /\ isnan avg = false)
  /\ (forall avg, isnan avg = false ->
        exists var,
          variance values avg = Returns var
          /\ var = population_variance values avg
          /\ fle zero var = true
          /\ std_deviation var = Returns (SFsqrt prec emax var)).
Proof.
  intros Hne Hfinite Hlen. split; [apply mean_returns; assumption|].
  intros avg Havg.
  destruct (variance_returns values avg Hne Hfinite Hlen Havg) as [Hvar Hsign].
  exists (population_variance values avg).
  split; [exact Hvar|]. split; [reflexivity|].
  split; [auto with float_signs | apply std_deviation_returns, Hsign].
Qed.

Lemma variance_is_population_variance_witness :
  let values := [of_int 1; of_int 2; of_int 4] in
  values <> [] /\ Forall (fun v => isfinite v = true) values
  /\ Z.of_nat (length values) <= sys_maxsize
  /\ exists avg, mean values = Returns avg /\ isnan avg = false.
Proof.
  intros values.
  assert (Hne : values <> []) by discriminate.
  assert (Hfinite : Forall (fun v => isfinite v = true) values)
    by (repeat constructor).
  assert (Hlen : Z.of_nat (length values) <= sys_maxsize)
    by (intros H; discriminate H).
  split; [exact Hne|]. split; [exact Hfinite|]. split; [exact Hlen|].
  apply (proj1 (variance_is_population_variance values Hne Hfinite Hlen)).
Defined.

End ComputeStatisticsFacts.

Import ComputeStatisticsFacts.

(** ** Counting lines and tokens *)

Section StatisticsScan.
Import ComputeStatistics.
Variable db : unicode_db.
Variable float_of_str : str -> option float.

Lemma classify_line_no line_no raw_line :
  snd (classify db float_of_str line_no raw_line)
  = valid_value db float_of_str raw_line.
Proof.
  unfold valid_value, classify.
  destruct (strip db raw_line); [reflexivity|].
  destruct (float_of_str _) as [value|]; [|reflexivity].
  destruct (isfinite value); reflexivity.
Qed.

Lemma valid_value_finite raw_line value :
  valid_value db float_of_str raw_line = Some value ->
  isfinite value = true.
Proof.
  unfold valid_value, classify.
  destruct (strip db raw_line); [discriminate|].
  destruct (float_of_str _) as [v|]; [|discriminate].
  destruct (isfinite v) eqn:Hv; [|discriminate].
  cbn [snd]. congruence.
Qed.

Lemma scan_statistics raw_lines : forall start out numbers invalid_count,
  exists out',
    fold_left (read_line db float_of_str) (enumerate raw_lines start)
              (out, numbers, invalid_count)
    = (out', numbers ++ valid_values db float_of_str raw_lines,
       invalid_count + count_invalid db float_of_str raw_lines).
Proof.
  unfold count_invalid.
  induction raw_lines as [|raw_line raw_lines IH];
    intros start out numbers invalid_count; cbn [enumerate fold_left].
  - exists out. cbn. rewrite app_nil_r, Z.add_0_r. reflexivity.
  - cbn [read_line valid_values flat_map filter].
    pose proof (classify_line_no start raw_line) as Hc.
    destruct (classify db float_of_str start raw_line) as [printed value].
    cbn [snd] in Hc. rewrite <- Hc.
    destruct value as [value|].
    + destruct (IH (start + 1) (out ++ printed) (numbers ++ [value])
                   invalid_count) as [out' ->].
      exists out'. rewrite <- app_assoc. reflexivity.
    + destruct (IH (start + 1) (out ++ printed) numbers
                   (invalid_count + 1)) as [out' ->].
      exists out'. cbn [app length]. f_equal. lia.
Qed.

Lemma valid_values_finite raw_lines :
  Forall (fun v => isfinite v = true)
         (valid_values db float_of_str raw_lines).
Proof.
  induction raw_lines as [|l raw_lines IH]; [constructor|].
  cbn [valid_values flat_map].
  destruct (valid_value db float_of_str l) as [v|] eqn:Hv; [|exact IH].
  constructor; [eapply valid_value_finite; exact Hv | exact IH].
Qed.

Lemma valid_invalid_total raw_lines :
  Z.of_nat (length (valid_values db float_of_str raw_lines))
  + count_invalid db float_of_str raw_lines
  = Z.of_nat (length raw_lines).
Proof.
  unfold count_invalid.
  induction raw_lines as [|l raw_lines IH]; [reflexivity|].
  cbn [valid_values flat_map filter].
  fold (valid_values db float_of_str raw_lines).
  destruct (valid_value db float_of_str l);
    cbn [app length]; lia.
Qed.

Lemma read_numbers_from_file_opened filepath raw_lines :
  exists out,
    read_numbers_from_file db float_of_str filepath (Opened raw_lines)
    = (out, Some (valid_values db float_of_str raw_lines,
                  count_invalid db float_of_str raw_lines)).
Proof.
  unfold read_numbers_from_file.
  destruct (scan_statistics raw_lines 1 [] [] 0) as [out ->].
  exists out. reflexivity.
Qed.
End StatisticsScan.

Section ConversionScan.
Import ConvertNumbers.
Variable db : unicode_db.

Lemma parse_line_no text line_no :
  snd (parse_int_strict text line_no) = snd (parse_int_strict text 0).
Proof.
  unfold parse_int_strict. destruct text as [|c0 rest]; [reflexivity|].
  destruct (if char_eqb c0 (ord "+") then (1, 1%nat)
            else if char_eqb c0 (ord "-") then (-1, 1%nat) else (1, 0%nat))
    as [sign start_idx].
  destruct (Nat.eqb start_idx (length (c0 :: rest))); [reflexivity|].
  destruct (scan_digits _ 0); reflexivity.
Qed.

Lemma scan_conversion raw_lines : forall start out numbers invalid_count,
  exists out',
    fold_left (read_line db) (enumerate raw_lines start)
              (out, numbers, invalid_count)
    = (out', numbers ++ valid_values db raw_lines,
       invalid_count + count_invalid db raw_lines).
Proof.
  unfold count_invalid.
  induction raw_lines as [|raw_line raw_lines IH];
    intros start out numbers invalid_count; cbn [enumerate fold_left].
  - exists out. cbn. rewrite app_nil_r, Z.add_0_r. reflexivity.
  - cbn [read_line valid_values flat_map filter].
    assert (Hv : valid_value db raw_line
                 = match snd (parse_int_strict (strip db raw_line) start) with
                   | (true, value) => Some value
                   | (false, _) => None
                   end)
      by (unfold valid_value;
          rewrite (parse_line_no (strip db raw_line) start); reflexivity).
    destruct (parse_int_strict (strip db raw_line) start)
      as [printed [[|] value]]; cbn [snd] in Hv; rewrite Hv.
    + destruct (IH (start + 1) (out ++ printed) (numbers ++ [value])
                   invalid_count) as [out' ->].
      exists out'. rewrite <- app_assoc. reflexivity.
    + destruct (IH (start + 1) (out ++ printed) numbers
                   (invalid_count + 1)) as [out' ->].
      exists out'. cbn [app length]. f_equal. lia.
Qed.

Lemma conversion_valid_invalid_total raw_lines :
  Z.of_nat (length (valid_values db raw_lines))
  + count_invalid db raw_lines
  = Z.of_nat (length raw_lines).
Proof.
  unfold count_invalid.
  induction raw_lines as [|l raw_lines IH]; [reflexivity|].
  cbn [valid_values flat_map filter]. fold (valid_values db raw_lines).
  destruct (valid_value db l); cbn [app length]; lia.
Qed.

Lemma read_numbers_opened filepath raw_lines :
  exists out,
    read_numbers db filepath (Opened raw_lines)
    = (out, Some (valid_values db raw_lines,
                  count_invalid db raw_lines)).
Proof.
  unfold read_numbers.
  destruct (scan_conversion raw_lines 1 [] [] 0) as [out ->].
  exists out. reflexivity.
Qed.
End ConversionScan.

Section WordScan.
Import WordCount.
Variable db : unicode_db.

Lemma count_token_counts line_no st token :
  total_words (count_token db line_no st token)
  = total_words st + (if is_word db token then 1 else 0)
  /\ invalid_items (count_token db line_no st token)
     = invalid_items st + (if is_word db token then 0 else 1).
Proof.
  unfold count_token, is_word.
  destruct (normalize_word db token); cbn; lia.
Qed.

Lemma count_tokens_counts line_no tokens : forall st,
  let st' := fold_left (count_token db line_no) tokens st in
  total_words st'
  = total_words st + Z.of_nat (length (filter (is_word db) tokens))
  /\ invalid_items st'
     = invalid_items st
       + Z.of_nat (length (filter (fun t => negb (is_word db t)) tokens)).
Proof.
  induction tokens as [|token tokens IH]; intros st; cbn [fold_left filter].
  - cbn. lia.
  - destruct (IH (count_token db line_no st token)) as [Hw Hi].
    destruct (count_token_counts line_no st token) as [Hw1 Hi1].
    cbv zeta. rewrite Hw, Hi, Hw1, Hi1.
    destruct (is_word db token); cbn [negb length]; lia.
Qed.

Lemma count_line_counts st line_no raw_line :
  let st' := count_line db st (line_no, raw_line) in
  total_words st'
  = total_words st
    + Z.of_nat (length (filter (is_word db) (split db (strip db raw_line))))
  /\ invalid_items st'
     = invalid_items st
       + Z.of_nat (length (filter (fun t => negb (is_word db t))
                                  (split db (strip db raw_line))))
       + (if is_blank db raw_line then 1 else 0).
Proof.
  unfold count_line, is_blank.
  destruct (strip db raw_line) as [|c line] eqn:Hline.
  - cbn. lia.
  - pose proof (count_tokens_counts line_no (split db (c :: line)) st) as H.
    cbv zeta in *. lia.
Qed.

Lemma scan_words raw_lines : forall start st,
  let st' := fold_left (count_line db) (enumerate raw_lines start) st in
  total_words st'
  = total_words st
    + Z.of_nat (length (filter (is_word db) (tokens_scanned db raw_lines)))
  /\ invalid_items st'
     = invalid_items st
       + Z.of_nat (length (filter (fun t => negb (is_word db t))
                                  (tokens_scanned db raw_lines)))
       + Z.of_nat (length (blank_lines db raw_lines)).
Proof.
  induction raw_lines as [|raw_line raw_lines IH]; intros start st;
    cbn [enumerate fold_left tokens_scanned flat_map blank_lines filter].
  - cbn. lia.
  - destruct (IH (start + 1) (count_line db st (start, raw_line)))
      as [Hw Hi].
    destruct (count_line_counts st start raw_line) as [Hw1 Hi1].
    cbv zeta in *. rewrite Hw, Hi, Hw1, Hi1.
    fold (tokens_scanned db raw_lines). fold (blank_lines db raw_lines).
    rewrite !filter_app, !length_app.
    destruct (is_blank db raw_line); cbn [length]; lia.
Qed.

Lemma filter_partition {A} (f : A -> bool) l :
  (length (filter f l) + length (filter (fun x => negb (f x)) l))%nat
  = length l.
Proof.
  induction l as [|x l IH]; [reflexivity|]. cbn [filter].
  destruct (f x); cbn [negb length]; lia.
Qed.
End WordScan.

(** ** Counters of the scans *)

(** C6: after a scan, the valid numbers and the invalid lines
    account for every line in statistics and in conversion mode; in word
    count mode the words counted and the invalid items account for every
    token scanned and, besides, for every blank line, each of which is one
    invalid item; five lines of which two are blank and three are numbers
    give a count of 3 and an invalid count of 2. *)
Theorem scan_counters_account_for_input
    (db : unicode_db) (float_of_str : str -> option spec_float)
    (filepath : str) (raw_lines : list str) :
  (exists out numbers invalid_count,
     ComputeStatistics.read_numbers_from_file db float_of_str filepath
       (Opened raw_lines) = (out, Some (numbers, invalid_count))
     /\ numbers = ComputeStatistics.valid_values db float_of_str raw_lines
     /\ invalid_count
        = ComputeStatistics.count_invalid db float_of_str raw_lines
     /\ Z.of_nat (length numbers) + invalid_count
        = Z.of_nat (length raw_lines))
  /\ (exists out numbers invalid_count,
        ConvertNumbers.read_numbers db filepath (Opened raw_lines)
        = (out, Some (numbers, invalid_count))
        /\ numbers = ConvertNumbers.valid_values db raw_lines
        /\ invalid_count = ConvertNumbers.count_invalid db raw_lines
        /\ Z.of_nat (length numbers) + invalid_count
           = Z.of_nat (length raw_lines))
  /\ (exists out freq total_words invalid_items,
        WordCount.read_and_count_words db filepath (Opened raw_lines)
        = (out, Some (freq, total_words, invalid_items))
        /\ total_words
           = Z.of_nat (length (filter (WordCount.is_word db)
                                      (WordCount.tokens_scanned db raw_lines)))
        /\ total_words + invalid_items
           = Z.of_nat (length (WordCount.tokens_scanned db raw_lines))
             + Z.of_nat (length (WordCount.blank_lines db raw_lines)))
  /\ snd (ComputeStatistics.read_numbers_from_file
            Examples.excerpt Examples.float_of_integer_literal (u"input.txt")
            (Opened [u"1"; u""; u"2"; u"   "; u"3"]))
     = Some ([ComputeStatistics.of_int 1; ComputeStatistics.of_int 2;
              ComputeStatistics.of_int 3], 2).
Proof.
  split; [|split; [|split]].
  - destruct (read_numbers_from_file_opened db float_of_str filepath raw_lines)
      as [out Hread].
    eexists _, _, _. split; [exact Hread|].
    split; [reflexivity|]. split; [reflexivity|].
    apply valid_invalid_total.
  - destruct (read_numbers_opened db filepath raw_lines) as [out Hread].
    eexists _, _, _. split; [exact Hread|].
    split; [reflexivity|]. split; [reflexivity|].
    apply conversion_valid_invalid_total.
  - unfold WordCount.read_and_count_words.
    destruct (scan_words db raw_lines 1 (WordCount.mk_scan [] [] 0 0))
      as [Hw Hi].
    cbv zeta in Hw, Hi.
    cbn [WordCount.total_words WordCount.invalid_items] in Hw, Hi.
    eexists _, _, _, _. split; [reflexivity|].
    split; [rewrite Hw; lia|].
    rewrite Hw, Hi.
    pose proof (filter_partition (WordCount.is_word db)
                  (WordCount.tokens_scanned db raw_lines)).
    lia.
  - vm_compute. reflexivity.
Qed.

(** A blank line is counted as an invalid item though it holds no token: on
    the two lines [""] and ["a"] one word and one invalid item are counted
    for a single token. *)
Lemma blank_line_counts_as_invalid_item :
  exists out freq total_words invalid_items,
    WordCount.read_and_count_words Examples.excerpt (u"input.txt")
      (Opened [u""; u"a"])
    = (out, Some (freq, total_words, invalid_items))
    /\ total_words + invalid_items
       <> Z.of_nat (length (WordCount.tokens_scanned Examples.excerpt
                              [u""; u"a"])).
Proof.
  eexists _, _, _, _. split; [vm_compute; reflexivity|].
  vm_compute. discriminate.
Qed.

(** ** The statistics pipeline *)

Section StatisticsPipeline.
Import ComputeStatistics.

Lemma median_returns values :
  values <> [] -> exists med, median values = Returns med.
Proof.
  intros Hne. unfold median.
  set (sorted_vals := sorted flt values).
  assert (Hlen : 0 < Z.of_nat (length sorted_vals)).
  { unfold sorted_vals. rewrite sorted_length.
    destruct values; [congruence | cbn [length]; lia]. }
  set (n := Z.of_nat (length sorted_vals)) in *.
  pose proof (Z.mod_pos_bound n 2 ltac:(lia)) as Hmod.
  pose proof (Z.div_mod n 2 ltac:(lia)) as Hdiv.
  destruct (Z.eqb_spec (n mod 2) 1) as [Hodd|Heven].
  - destruct (index_in_range sorted_vals (n / 2)) as (med & -> & _);
      [fold n; lia | eexists; reflexivity].
  - destruct (index_in_range sorted_vals (n / 2 - 1)) as (lo & -> & _);
      [fold n; lia|].
    destruct (index_in_range sorted_vals (n / 2)) as (hi & -> & _);
      [fold n; lia|].
    eexists. reflexivity.
Qed.

Lemma mode_returns values :
  values <> [] -> Forall (fun v => isfinite v = true) values ->
  exists modes mode_freq, mode values = Returns (modes, mode_freq).
Proof.
  intros Hne Hfinite. unfold mode.
  assert (Hnan : Forall (fun v => isnan v = false) values).
  { eapply Forall_impl; [|exact Hfinite]. intros v. apply isfinite_not_nan. }
  destruct (max_int_spec _ (count_values_not_empty values Hne Hnan))
    as (max_count & -> & _).
  cbn [bind]. destruct (max_count <=? 1); eexists _, _; reflexivity.
Qed.

Lemma aggregate_returns numbers invalid_count elapsed :
  numbers <> [] -> Forall (fun v => isfinite v = true) numbers ->
  Z.of_nat (length numbers) <= sys_maxsize ->
  exists result, aggregate numbers invalid_count elapsed = Returns result.
Proof.
  intros Hne Hfinite Hlen. unfold aggregate.
  destruct (mean_returns numbers Hne Hfinite Hlen) as (avg & -> & Havg).
  destruct (median_returns numbers Hne) as (med & ->).
  destruct (mode_returns numbers Hne Hfinite) as (modes & mode_freq & ->).
  cbn [bind].
  destruct (variance_returns numbers avg Hne Hfinite Hlen Havg)
    as [-> Hsign].
  cbn [bind]. rewrite (std_deviation_returns _ Hsign). cbn [bind].
  eexists. reflexivity.
Qed.

Lemma aggregators_raise_on_empty :
  mean [] = Raises ZeroDivisionError
  /\ median [] = Raises IndexError
  /\ mode [] = Raises ValueError
  /\ (forall avg, variance [] avg = Raises ZeroDivisionError).
Proof. repeat split. Qed.

Lemma all_invalid_no_values db float_of_str raw_lines :
  Forall (fun l => valid_value db float_of_str l = None) raw_lines ->
  valid_values db float_of_str raw_lines = [].
Proof.
  induction 1 as [|l raw_lines Hl _ IH]; [reflexivity|].
  cbn [valid_values flat_map]. rewrite Hl. exact IH.
Qed.
End StatisticsPipeline.

(** C9: when no line of the input is valid, the statistics pipeline writes
    the "no valid data" report and calls no aggregator; the aggregators are
    called on the numbers read only when there is at least one; a run ends
    without raising, so the division by zero of [mean] and [variance], the
    [max] of an empty collection in [mode] and the index error of [median],
    which an empty list would cause, are not reached. *)
Theorem empty_input_skips_aggregation
    (db : unicode_db) (float_of_str : str -> option spec_float)
    (repr : spec_float -> str) (prog filepath : str) (rest : list str)
    (fs : str -> file_open) (elapsed : str) (raw_lines : list str) :
  fs filepath = Opened raw_lines ->
  let run := ComputeStatistics.main db float_of_str repr
               (prog :: filepath :: rest) fs elapsed in
  let numbers := ComputeStatistics.valid_values db float_of_str raw_lines in
  let invalid_count :=
    ComputeStatistics.count_invalid db float_of_str raw_lines in
  exists out,
    ComputeStatistics.read_numbers_from_file db float_of_str filepath
      (fs filepath) = (out, Some (numbers, invalid_count))
    /\ (Forall (fun l => ComputeStatistics.valid_value db float_of_str l
                         = None) raw_lines ->
        let output :=
          ComputeStatistics.no_data_report invalid_count elapsed in
        numbers = []
        /\ run = Returns (mk_run (out ++ [output]) (Some output) 0))
    /\ (numbers <> [] ->
        run = bind (ComputeStatistics.aggregate numbers invalid_count elapsed)
                (fun result =>
                   let output :=
                     ComputeStatistics.format_results repr result in
                   Returns (mk_run (out ++ [output]) (Some output) 0)))
    /\ (Z.of_nat (length raw_lines) <= sys_maxsize ->
        exists r, run = Returns r)
    /\ ComputeStatistics.mean [] = Raises ZeroDivisionError
    /\ ComputeStatistics.median [] = Raises IndexError
    /\ ComputeStatistics.mode [] = Raises ValueError
    /\ (forall avg, ComputeStatistics.variance [] avg
                    = Raises ZeroDivisionError).
Proof.
  intros Hfs run numbers invalid_count.
  destruct (read_numbers_from_file_opened db float_of_str filepath raw_lines)
    as [out Hread].
  exists out. rewrite Hfs. split; [exact Hread|].
  assert (Hrun : run
                 = match numbers with
                   | [] =>
                       let output :=
                         ComputeStatistics.no_data_report invalid_count
                                                          elapsed in
                       Returns (mk_run (out ++ [output]) (Some output) 0)
                   | _ :: _ =>
                       bind (ComputeStatistics.aggregate numbers invalid_count
                                                         elapsed)
                         (fun result =>
                            let output :=
                              ComputeStatistics.format_results repr result in
                            Returns (mk_run (out ++ [output]) (Some output) 0))
                   end).
  { unfold run, ComputeStatistics.main. rewrite Hfs, Hread. reflexivity. }
  split; [|split; [|split]].
  - intros Hinvalid output.
    pose proof (all_invalid_no_values db float_of_str raw_lines Hinvalid)
      as Hnone.
    split; [exact Hnone|]. rewrite Hrun. fold numbers in Hnone.
    rewrite Hnone. reflexivity.
  - intros Hne. rewrite Hrun. destruct numbers; [congruence | reflexivity].
  - intros Hlen. rewrite Hrun.
    destruct numbers as [|v numbers'] eqn:Hnumbers; [eexists; reflexivity|].
    destruct (aggregate_returns (v :: numbers') invalid_count elapsed)
      as [result ->].
    + discriminate.
    + rewrite <- Hnumbers. apply valid_values_finite.
    + pose proof (valid_invalid_total db float_of_str raw_lines) as Htotal.
      fold numbers in Htotal. rewrite Hnumbers in Htotal.
      unfold ComputeStatistics.count_invalid in Htotal. lia.
    + eexists. reflexivity.
  - apply aggregators_raise_on_empty.
Qed.

Lemma empty_input_skips_aggregation_witness :
  exists out,
    ComputeStatistics.main Examples.excerpt Examples.float_of_integer_literal
      (fun _ => u"?") [u"compute_statistics.py"; u"input.txt"]
      (fun _ => Opened [u""; u"abc"]) (u"0.000010")
    = Returns
        (mk_run (out ++ [ComputeStatistics.no_data_report 2 (u"0.000010")])
                (Some (ComputeStatistics.no_data_report 2 (u"0.000010"))) 0).
Proof.
  destruct (empty_input_skips_aggregation
              Examples.excerpt Examples.float_of_integer_literal
              (fun _ => u"?") (u"compute_statistics.py") (u"input.txt") []
              (fun _ => Opened [u""; u"abc"]) (u"0.000010") [u""; u"abc"]
              eq_refl)
    as (out & _ & Hempty & _).
  exists out. apply Hempty. repeat constructor.
Defined.

(** ** Console and results file *)

Section Outputs.

Lemma statistics_console_mirrors_file db float_of_str repr argv fs
    elapsed r output :
  ComputeStatistics.main db float_of_str repr argv fs elapsed
    = Returns r ->
  results_file r = Some output ->
  exists diagnostics, console r = diagnostics ++ [output].
Proof.
  unfold ComputeStatistics.main.
  destruct argv as [|prog [|filepath rest]];
    try (intros [= <-]; discriminate).
  destruct (ComputeStatistics.read_numbers_from_file _ _ _ _)
    as [out [[[|v numbers] invalid_count]|]].
  - intros [= <-] [= <-]. exists out. reflexivity.
  - destruct (ComputeStatistics.aggregate _ _ _) as [result| |];
      try discriminate.
    intros [= <-] [= <-]. exists out. reflexivity.
  - intros [= <-]; discriminate.
Qed.

Lemma slice_to_short {A} (l : list A) k :
  Z.of_nat (length l) <= k -> slice_to l k = l.
Proof.
  intros Hk. unfold slice_to. destruct (Z.ltb_spec k 0); [lia|].
  apply firstn_all2. lia.
Qed.

(** Up to 15 numbers the console report is the report of the file. *)
Lemma conversion_console_uncapped numbers invalid_count elapsed :
  Z.of_nat (length numbers) <= 15 ->
  ConvertNumbers.build_report numbers invalid_count elapsed (Some 15)
  = ConvertNumbers.build_report numbers invalid_count elapsed None.
Proof.
  intros Hlen. unfold ConvertNumbers.build_report.
  rewrite (slice_to_short numbers 15 Hlen).
  destruct (Z.ltb_spec 15 (Z.of_nat (length numbers))); [lia|].
  reflexivity.
Qed.

Lemma conversion_console_and_file db argv fs elapsed r full :
  ConvertNumbers.main db argv fs elapsed = Returns r ->
  results_file r = Some full ->
  exists out numbers invalid_count capped,
    console r = out ++ [capped]
    /\ ConvertNumbers.build_report numbers invalid_count elapsed None
       = Returns full
    /\ ConvertNumbers.build_report numbers invalid_count elapsed (Some 15)
       = Returns capped.
Proof.
  unfold ConvertNumbers.main.
  destruct argv as [|prog [|filepath rest]];
    try (intros [= <-]; discriminate).
  destruct (ConvertNumbers.read_numbers _ _ _)
    as [out [[numbers invalid_count]|]]; [|intros [= <-]; discriminate].
  destruct (ConvertNumbers.build_report numbers invalid_count elapsed None)
    as [report_full| |] eqn:Hfull; try discriminate.
  destruct (ConvertNumbers.build_report numbers invalid_count elapsed
                                        (Some 15))
    as [report_console| |] eqn:Hconsole; try discriminate.
  cbn [bind]. intros [= <-] [= <-].
  exists out, numbers, invalid_count, report_console. auto.
Qed.

(** The word count script prints the class of the report and never the
    report. *)
Lemma word_count_console db argv fs elapsed output :
  results_file (WordCount.main db argv fs elapsed) = Some output ->
  exists diagnostics,
    console (WordCount.main db argv fs elapsed)
    = diagnostics ++ [WordCount.type_of_str]
    /\ output <> WordCount.type_of_str.
Proof.
  unfold WordCount.main.
  destruct argv as [|prog [|filepath rest]]; try discriminate.
  destruct (WordCount.read_and_count_words db filepath (fs filepath))
    as [out [[[freq total_words] invalid_items]|]]; [|discriminate].
  cbn [results_file console]. intros [= <-]. exists out.
  split; [reflexivity | discriminate].
Qed.
End Outputs.

(** C8: the word count script run on a file holding the line [a a b]: the
    results file receives the report, the console receives the text
    [<class 'str'>] and not the report. *)
Theorem word_count_prints_type_instead_of_report :
  let r := WordCount.main Examples.excerpt
             [u"word_count.py"; u"input.txt"]
             (fun _ => Opened [u"a a b"]) (u"0.000012") in
  let report :=
    join newline
      [ u"=== Word Count Results ===";
        u"Total valid words counted: 3";
        u"Distinct words: 2";
        u"Invalid items skipped: 0";
        [];
        u"Word -> Frequency";
        u"-----------------";
        u"a -> 2";
        u"b -> 1";
        [];
        u"Elapsed time (s): 0.000012" ] ++ newline in
  results_file r = Some report
  /\ console r = [u"<class 'str'>"]
  /\ console r <> [report].
Proof.
  split; [vm_compute; reflexivity|].
  split; [vm_compute; reflexivity|].
  vm_compute. discriminate.
Qed.

(** ** Word count *)

Module WordCountFacts.
Import WordCount.

(** *** Order of the report *)

Section StringOrder.

Lemma str_ltb_irrefl s : str_ltb s s = false.
Proof.
  induction s as [|a s IH]; [reflexivity|].
  cbn [str_ltb]. rewrite N.ltb_irrefl. exact IH.
Qed.

Lemma str_ltb_trans s : forall t v,
  str_ltb s t = true -> str_ltb t v = true -> str_ltb s v = true.
Proof.
  induction s as [|a s IH]; intros [|b t] [|c v]; cbn [str_ltb];
    try discriminate; try reflexivity.
  destruct (N.ltb_spec a b), (N.ltb_spec b a), (N.ltb_spec b c),
    (N.ltb_spec c b), (N.ltb_spec a c), (N.ltb_spec c a);
    try discriminate; try reflexivity; try lia.
  apply IH.
Qed.

Lemma str_ltb_total s : forall t,
  str_ltb s t = false -> str_ltb t s = false -> s = t.
Proof.
  induction s as [|a s IH]; intros [|b t]; cbn [str_ltb];
    try discriminate; try reflexivity.
  destruct (N.ltb_spec a b), (N.ltb_spec b a); try discriminate; try lia.
  intros Hst Hts. assert (a = b) by lia. subst b. f_equal.
  apply IH; assumption.
Qed.

Lemma str_ltb_asym s t : str_ltb s t = true -> str_ltb t s = false.
Proof.
  intros Hst. destruct (str_ltb t s) eqn:Hts; [|reflexivity].
  rewrite <- (str_ltb_irrefl s). symmetry.
  apply (str_ltb_trans s t s); assumption.
Qed.

Lemma str_precede_trans s t v :
  str_ltb t s = false -> str_ltb v t = false -> str_ltb v s = false.
Proof.
  intros Hst Htv. destruct (str_ltb v s) eqn:Hvs; [|reflexivity].
  destruct (str_ltb s t) eqn:Hlt.
  - rewrite (str_ltb_trans v s t Hvs Hlt) in Htv. discriminate.
  - rewrite (str_ltb_total s t Hlt Hst) in Hvs. congruence.
Qed.
End StringOrder.

Section ReportOrder.

Lemma item_ltb_cases a b :
  item_ltb a b
  = if snd a =? snd b then str_ltb (fst a) (fst b) else snd b <? snd a.
Proof.
  unfold item_ltb, key_ltb, sort_key. cbn [fst snd].
  destruct (Z.eqb_spec (- snd a) (- snd b)), (Z.eqb_spec (snd a) (snd b));
    try lia; reflexivity.
Qed.

Lemma may_precede_report_order a b :
  may_precede item_ltb a b <-> report_order a b.
Proof.
  unfold may_precede, report_order. rewrite item_ltb_cases.
  destruct (Z.eqb_spec (snd b) (snd a)) as [Heq|Hne].
  - split; [intros H; right; split; [lia | exact H]|].
    intros [Hlt | [_ H]]; [lia | exact H].
  - destruct (Z.ltb_spec (snd a) (snd b)).
    + split; [discriminate | intros [? | [? _]]; lia].
    + split; [intros _; left; lia | reflexivity].
Qed.

Lemma item_ltb_asym a b : item_ltb a b = true -> item_ltb b a = false.
Proof.
  rewrite !item_ltb_cases.
  destruct (Z.eqb_spec (snd a) (snd b)), (Z.eqb_spec (snd b) (snd a));
    try lia.
  apply str_ltb_asym.
Qed.

Lemma item_precede_trans a b c :
  may_precede item_ltb a b -> may_precede item_ltb b c ->
  may_precede item_ltb a c.
Proof.
  rewrite !may_precede_report_order. unfold report_order.
  intros [Hab | [Hab Hwab]] [Hbc | [Hbc Hwbc]];
    try (left; lia).
  right. split; [lia|]. eapply str_precede_trans; eassumption.
Qed.

Lemma item_precede_antisym a b :
  may_precede item_ltb a b -> may_precede item_ltb b a -> a = b.
Proof.
  rewrite !may_precede_report_order. unfold report_order.
  intros [Hab | [Hab Hwab]] [Hba | [Hba Hwba]]; try lia.
  destruct a as [wa ca], b as [wb cb]. cbn [fst snd] in *.
  f_equal; [apply str_ltb_total; assumption | lia].
Qed.

Lemma sorted_items_perm freq : Permutation (sorted_items freq) (items freq).
Proof. apply sorted_perm. Qed.

Lemma sorted_items_ordered freq :
  StronglySorted report_order (sorted_items freq).
Proof.
  assert (Hsorted : StronglySorted (may_precede item_ltb) (sorted_items freq)).
  { apply (sorted_sorted item_ltb (fun _ => True)).
    - intros x y _ _. apply item_ltb_asym.
    - intros x y z _ _ _. apply item_precede_trans.
    - apply Forall_forall. trivial. }
  induction Hsorted as [|a l Hl IH Ha]; constructor; [exact IH|].
  eapply Forall_impl; [|exact Ha].
  intros b. apply may_precede_report_order.
Qed.

Lemma sorted_items_deterministic freq freq' :
  Permutation (items freq) (items freq') ->
  sorted_items freq = sorted_items freq'.
Proof.
  apply (sorted_deterministic item_ltb (fun _ => True)).
  - intros x y _ _. apply item_ltb_asym.
  - intros x y z _ _ _. apply item_precede_trans.
  - intros x y _ _. apply item_precede_antisym.
  - apply Forall_forall. trivial.
Qed.
End ReportOrder.

(** C5: the report lists the pairs of the table, each once, most frequent
    first and ties in ascending alphabetical order; the listing depends on
    the contents of the table only, not on the order in which the words were
    met; the input [a a b] is listed [a -> 2], [b -> 1] and the input [b a]
    is listed [a -> 1], [b -> 1]. *)
Theorem report_is_ordered_by_frequency_then_word
    (freq freq' : dict (K:=str) (V:=Z)) :
  Permutation (sorted_items freq) (items freq)
  /\ StronglySorted report_order (sorted_items freq)
  /\ (Permutation (items freq) (items freq') ->
      sorted_items freq = sorted_items freq')
  /\ sorted_items (Examples.table_of [u"a a b"]) = [(u"a", 2); (u"b", 1)]
  /\ sorted_items (Examples.table_of [u"b a"]) = [(u"a", 1); (u"b", 1)]
  /\ format_results (Examples.table_of [u"b a"]) 2 2 0 (u"0.000012")
     = join newline
         [ u"=== Word Count Results ===";
           u"Total valid words counted: 2";
           u"Distinct words: 2";
           u"Invalid items skipped: 0";
           [];
           u"Word -> Frequency";
           u"-----------------";
           u"a -> 1";
           u"b -> 1";
           [];
           u"Elapsed time (s): 0.000012" ] ++ newline.
Proof.
  split; [apply sorted_items_perm|].
  split; [apply sorted_items_ordered|].
  split; [apply sorted_items_deterministic|].
  split; [|split]; vm_compute; reflexivity.
Qed.

Lemma report_is_ordered_by_frequency_then_word_witness :
  Permutation [(u"b", 1); (u"a", 1)] [(u"a", 1); (u"b", 1)]
  /\ sorted_items [(u"b", 1); (u"a", 1)] = sorted_items [(u"a", 1); (u"b", 1)].
Proof.
  assert (Hperm : Permutation [(u"b", 1); (u"a", 1)] [(u"a", 1); (u"b", 1)])
    by apply perm_swap.
  split; [exact Hperm|].
  apply (proj1 (proj2 (proj2 (report_is_ordered_by_frequency_then_word
                                [(u"b", 1); (u"a", 1)]
                                [(u"a", 1); (u"b", 1)])))).
  exact Hperm.
Defined.

(** *** Normalisation of words *)

Section Normalize.
Import WordCount.
Variable db : unicode_db.

Lemma join_empty_sep parts : join [] parts = concat parts.
Proof.
  induction parts as [|p [|q parts] IH]; cbn [join concat app] in *.
  - reflexivity.
  - rewrite app_nil_r. reflexivity.
  - rewrite IH. reflexivity.
Qed.

Lemma normalize_word_filter token :
  normalize_word db token = flat_map (lower db) (filter (kept db) token).
Proof.
  unfold normalize_word. rewrite join_empty_sep.
  assert (Hloop : forall cleaned,
            fold_left
              (fun cleaned_chars ch =>
                 if isalnum db ch || char_eqb ch apostrophe
                 then cleaned_chars ++ [lower db ch] else cleaned_chars)
              token cleaned
            = cleaned ++ map (lower db) (filter (kept db) token)).
  { induction token as [|ch token IH]; intros cleaned; cbn [fold_left filter].
    - rewrite app_nil_r. reflexivity.
    - rewrite IH. unfold kept at 2.
      destruct (isalnum db ch || char_eqb ch apostrophe); [|reflexivity].
      cbn [map]. rewrite <- app_assoc. reflexivity. }
  rewrite Hloop. cbn [app]. rewrite flat_map_concat_map. reflexivity.
Qed.

Lemma settled_spec ch :
  settled db ch = true -> kept db ch = true /\ lower db ch = [ch].
Proof.
  unfold settled. intros H.
  apply andb_true_iff in H. destruct H as [H Hlen].
  apply andb_true_iff in H. destruct H as [Hkept Hsame].
  split; [exact Hkept|].
  destruct (lower db ch) as [|c [|c' rest]]; try discriminate.
  cbn [forallb] in Hsame. rewrite andb_true_r in Hsame.
  apply N.eqb_eq in Hsame. congruence.
Qed.

Lemma normalize_settled word :
  forallb (settled db) word = true -> normalize_word db word = word.
Proof.
  rewrite normalize_word_filter.
  induction word as [|ch word IH]; [reflexivity|].
  cbn [forallb filter]. intros H. apply andb_true_iff in H.
  destruct H as [Hch Hword]. destruct (settled_spec ch Hch) as [Hkept Hlower].
  rewrite Hkept. cbn [flat_map]. rewrite Hlower, IH by exact Hword.
  reflexivity.
Qed.

Lemma stable_normalizes_to_settled token :
  stable db token = true ->
  forallb (settled db) (normalize_word db token) = true.
Proof.
  rewrite normalize_word_filter. unfold stable.
  induction token as [|ch token IH]; [reflexivity|].
  cbn [forallb filter]. intros H. apply andb_true_iff in H.
  destruct H as [Hch Htoken].
  destruct (kept db ch); [|apply IH, Htoken].
  cbn [negb orb] in Hch. cbn [flat_map].
  rewrite forallb_app, Hch. apply IH, Htoken.
Qed.
End Normalize.

(** C10: the normalised word is made of the lower-case forms of
    the kept characters of the token, in their order; on a token whose kept
    characters have lower-case forms made of kept characters that [lower]
    leaves alone (every ASCII token is one), normalising twice is
    normalising once, and the word holds only such characters:
    alphanumeric or apostrophe, in lower case. *)
Theorem normalize_word_idempotent_on_stable_tokens
    (db : unicode_db) (token : str) :
  WordCount.normalize_word db token
  = flat_map (lower db) (filter (WordCount.kept db) token)
  /\ (WordCount.stable db token = true ->
      WordCount.normalize_word db (WordCount.normalize_word db token)
      = WordCount.normalize_word db token
      /\ Forall (fun ch => WordCount.kept db ch = true
                           /\ lower db ch = [ch])
                (WordCount.normalize_word db token)).
Proof.
  split; [apply normalize_word_filter|].
  intros Hstable.
  pose proof (stable_normalizes_to_settled db token Hstable) as Hsettled.
  split; [apply normalize_settled, Hsettled|].
  apply Forall_forall. intros ch Hch.
  apply settled_spec. rewrite forallb_forall in Hsettled. apply Hsettled, Hch.
Qed.

Lemma normalize_word_idempotent_on_stable_tokens_witness :
  WordCount.stable Examples.excerpt (u"Can't,") = true
  /\ WordCount.normalize_word Examples.excerpt
       (WordCount.normalize_word Examples.excerpt (u"Can't,"))
     = WordCount.normalize_word Examples.excerpt (u"Can't,").
Proof.
  split; [reflexivity|].
  apply (proj2 (normalize_word_idempotent_on_stable_tokens
                  Examples.excerpt (u"Can't,"))).
  reflexivity.
Defined.

(** Every ASCII token is stable. *)
Lemma ascii_tokens_stable token :
  Forall (fun ch => (ch < 128)%N) token ->
  WordCount.stable Examples.excerpt token = true.
Proof.
  intros Hascii. unfold WordCount.stable. apply forallb_forall.
  intros ch Hch. rewrite Forall_forall in Hascii. specialize (Hascii ch Hch).
  assert (Hall : forallb
            (fun ch => negb (WordCount.kept Examples.excerpt ch)
                       || forallb (WordCount.settled Examples.excerpt)
                                  (lower Examples.excerpt ch))
            (map N.of_nat (seq 0 128)) = true) by (vm_compute; reflexivity).
  rewrite forallb_forall in Hall. apply Hall.
  apply in_map_iff. exists (N.to_nat ch). split; [apply N2Nat.id|].
  apply in_seq. lia.
Qed.

(** U+0130 lower-cases to [i] and a combining mark that is not kept. *)
Lemma normalize_word_not_idempotent :
  WordCount.normalize_word Examples.excerpt
    (WordCount.normalize_word Examples.excerpt [304%N])
  <> WordCount.normalize_word Examples.excerpt [304%N].
Proof. vm_compute. discriminate. Qed.

End WordCountFacts.

(** * Further properties of the scripts *)

(** ** Renderings in a base *)

Module RenderingFacts.
Import ConvertNumbers ConvertNumbersFacts Numerals.

Ltac unroll_loop :=
  rewrite convert_loop_equation_1;
  unfold convert_loop_unfold_clause_1,
         convert_loop_unfold_clause_1_clause_2,
         convert_loop_unfold_clause_1_clause_2_clause_2,
         convert_loop_unfold_clause_1_clause_2_clause_2_clause_3.

Section Reading.
Variables (base : Z) (digits : str).
Hypothesis table : 2 <= base <= Z.of_nat (length digits).

Lemma position_nth : forall d,
  NoDup digits -> 0 <= d < Z.of_nat (length digits) ->
  position digits (nth (Z.to_nat d) digits 0%N) = Some d.
Proof.
  clear table. induction digits as [|c rest IH]; intros d Hnd Hd.
  - simpl in Hd. lia.
  - inversion Hnd as [|? ? Hnotin Hnd']; subst.
    destruct (Z.eq_dec d 0) as [->|Hnz].
    + simpl. unfold char_eqb. rewrite N.eqb_refl. reflexivity.
    + replace (Z.to_nat d) with (S (Z.to_nat (d - 1))) by lia.
      cbn [nth position].
      destruct (char_eqb c (nth (Z.to_nat (d - 1)) rest 0%N)) eqn:Heq.
      * apply N.eqb_eq in Heq. exfalso. apply Hnotin. rewrite Heq.
        apply nth_In. cbn [length] in Hd. lia.
      * rewrite IH; [simpl; f_equal; lia | assumption |].
        cbn [length] in Hd. lia.
Qed.

Lemma read_digits ds : forall value,
  NoDup digits -> Forall (fun d => 0 <= d < base) ds ->
  fold_left (read_step base digits)
            (rev (map (fun d => nth (Z.to_nat d) digits 0%N) ds))
            (Some value)
  = Some (value * base ^ Z.of_nat (length ds) + value_lsb base ds).
Proof.
  intros value Hnd Hrange. revert value.
  induction Hrange as [|d ds Hd _ IH]; intros value.
  - simpl. f_equal. lia.
  - cbn [map rev]. rewrite fold_left_app, IH. cbn [fold_left].
    unfold read_step. rewrite position_nth by (auto; lia).
    destruct (d <? base) eqn:Hlt; [|lia].
    f_equal. cbn [length value_lsb].
    rewrite Nat2Z.inj_succ, Z.pow_succ_r by lia. lia.
Qed.

Lemma convert_reads_back n :
  NoDup digits -> 0 < n ->
  exists s, convert_positive_to_base n base digits = Returns s
            /\ s <> [] /\ read_unsigned base digits s = Some n
            /\ Forall (fun ch => In ch digits) s.
Proof.
  intros Hnd Hn.
  destruct (convert_positive_returns base digits n table)
    as (s & Hs & _ & Hpos); [lia|].
  destruct (Hpos Hn) as (ds & -> & Hrange & Hval & Hne).
  exists (rev (map (fun d => nth (Z.to_nat d) digits 0%N) ds)).
  assert (Hnonempty :
            rev (map (fun d => nth (Z.to_nat d) digits 0%N) ds) <> []).
  { intros Hrev. apply (f_equal (@length _)) in Hrev.
    rewrite length_rev, length_map in Hrev.
    destruct ds; [congruence|discriminate]. }
  split; [exact Hs|]. split; [exact Hnonempty|]. split.
  - unfold read_unsigned.
    destruct (rev (map (fun d => nth (Z.to_nat d) digits 0%N) ds)) eqn:Hrev;
      [congruence|].
    rewrite <- Hrev, read_digits by assumption. f_equal. lia.
  - apply Forall_rev, Forall_map. eapply Forall_impl; [|exact Hrange].
    intros d Hd. cbv beta in Hd. apply nth_In. lia.
Qed.
End Reading.


(** X1: with a base of at least 2 and a table of at least that many
    distinct digits, [convert_positive_to_base] renders a positive integer
    with digits of the table only, the numeral reads back as the integer,
    and two positive integers never share a rendering; zero is rendered by
    the literal [0] whatever the table. *)
Theorem convert_positive_to_base_reads_back
    (base : Z) (digits : str) (n : Z) :
  2 <= base <= Z.of_nat (length digits) -> NoDup digits -> 0 < n ->
  (exists s, convert_positive_to_base n base digits = Returns s
             /\ read_unsigned base digits s = Some n
             /\ Forall (fun ch => In ch digits) s)
  /\ (forall m, 0 < m ->
        convert_positive_to_base m base digits
        = convert_positive_to_base n base digits -> m = n)
  /\ convert_positive_to_base 0 base digits = Returns (u"0").
Proof.
  intros Htable Hnd Hn. split; [|split].
  - destruct (convert_reads_back base digits Htable n Hnd Hn)
      as (s & Hs & _ & Hread & Hin).
    exists s. auto.
  - intros m Hm Heq.
    destruct (convert_reads_back base digits Htable n Hnd Hn)
      as (s & Hs & _ & Hread & _).
    destruct (convert_reads_back base digits Htable m Hnd Hm)
      as (s' & Hs' & _ & Hread' & _).
    rewrite Hs, Hs' in Heq. injection Heq as ->. congruence.
  - reflexivity.
Qed.

Lemma convert_positive_to_base_reads_back_witness :
  (exists s, convert_positive_to_base 64 8 (u"01234567") = Returns s
             /\ read_unsigned 8 (u"01234567") s = Some 64
             /\ Forall (fun ch => In ch (u"01234567")) s)
  /\ convert_positive_to_base 64 8 (u"01234567") = Returns (u"100").
Proof.
  split.
  - apply (convert_positive_to_base_reads_back 8 (u"01234567") 64).
    + simpl. lia.
    + repeat constructor; simpl; intuition discriminate.
    + lia.
  - reflexivity.
Defined.

Section Renderings.

Lemma binary_digits_distinct : NoDup (u"01").
Proof. repeat constructor; simpl; intuition discriminate. Qed.

Lemma hex_digits_distinct : NoDup HEX_DIGITS.
Proof. repeat constructor; simpl; intuition discriminate. Qed.

Lemma read_signed_unsigned base digits s :
  has_sign s = false -> s <> [] ->
  read_signed base digits s = read_unsigned base digits s.
Proof.
  intros Hsign Hne. destruct s as [|c s]; [congruence|].
  unfold read_signed. unfold has_sign in Hsign. rewrite Hsign. reflexivity.
Qed.

Lemma rendering_reads_back base digits n :
  2 <= base <= Z.of_nat (length digits) -> NoDup digits ->
  Forall (fun c => char_eqb c (ord "-") = false) digits ->
  nth_error digits 0 = Some (ord "0") ->
  exists s,
    (if n <? 0 then
       bind (convert_positive_to_base (- n) base digits)
            (fun s => Returns (u"-" ++ s))
     else convert_positive_to_base n base digits) = Returns s
    /\ read_signed base digits s = Some n.
Proof.
  intros Htable Hnd Hunsigned Hzero.
  destruct (n <? 0) eqn:Hneg.
  - destruct (convert_reads_back base digits Htable (- n) Hnd)
      as (s & Hs & Hne & Hread & _); [lia|].
    exists (u"-" ++ s). rewrite Hs. split; [reflexivity|].
    cbn [str_of_string app read_signed].
    change (char_eqb (ord "-") (ord "-")) with true. cbv iota.
    rewrite Hread. simpl. f_equal. lia.
  - destruct (Z.eq_dec n 0) as [->|Hnz].
    + exists (u"0"). split; [reflexivity|].
      destruct digits as [|d0 rest]; [discriminate|].
      injection Hzero as ->.
      change ((if 0 <? base then Some (0 * base + 0) else None) = Some 0).
      destruct (0 <? base) eqn:Hpos; [reflexivity|lia].
    + destruct (convert_reads_back base digits Htable n Hnd)
        as (s & Hs & Hne & Hread & Hin); [lia|].
      exists s. split; [exact Hs|].
      rewrite read_signed_unsigned; [exact Hread| |exact Hne].
      destruct s as [|c s]; [reflexivity|]. unfold has_sign.
      inversion Hin as [|? ? Hc _]; subst.
      rewrite Forall_forall in Hunsigned. apply Hunsigned, Hc.
Qed.
End Renderings.

(** X2: for every integer, negative ones included, [to_binary] and
    [to_hex] return numerals that read back as the integer in base 2 and
    base 16, so distinct integers never share a rendering. *)
Theorem renderings_read_back (n : Z) :
  (exists b h,
     to_binary n = Returns b /\ to_hex n = Returns h
     /\ read_signed 2 (u"01") b = Some n
     /\ read_signed 16 HEX_DIGITS h = Some n)
  /\ (forall m, to_binary m = to_binary n \/ to_hex m = to_hex n -> m = n).
Proof.
  assert (Hbin : forall k, exists s,
            to_binary k = Returns s /\ read_signed 2 (u"01") s = Some k).
  { intros k. apply (rendering_reads_back 2 (u"01") k);
      [simpl; lia | apply binary_digits_distinct
      | repeat constructor | reflexivity]. }
  assert (Hhex : forall k, exists s,
            to_hex k = Returns s /\ read_signed 16 HEX_DIGITS s = Some k).
  { intros k. apply (rendering_reads_back 16 HEX_DIGITS k);
      [simpl; lia | apply hex_digits_distinct
      | repeat constructor | reflexivity]. }
  split.
  - destruct (Hbin n) as (b & Hb & Hrb). destruct (Hhex n) as (h & Hh & Hrh).
    exists b, h. auto.
  - intros m [Heq|Heq].
    + destruct (Hbin n) as (b & Hb & Hrb).
      destruct (Hbin m) as (b' & Hb' & Hrb').
      rewrite Hb, Hb' in Heq. injection Heq as ->. congruence.
    + destruct (Hhex n) as (h & Hh & Hrh).
      destruct (Hhex m) as (h' & Hh' & Hrh').
      rewrite Hh, Hh' in Heq. injection Heq as ->. congruence.
Qed.

Lemma renderings_read_back_witness :
  (exists b h,
     to_binary (-255) = Returns b /\ to_hex (-255) = Returns h
     /\ read_signed 2 (u"01") b = Some (-255)
     /\ read_signed 16 HEX_DIGITS h = Some (-255))
  /\ to_hex (-255) = Returns (u"-FF").
Proof.
  split.
  - exact (proj1 (renderings_read_back (-255))).
  - reflexivity.
Defined.

Section Canonical.
Variables (base : Z) (digits : str).
Hypothesis table : 2 <= base <= Z.of_nat (length digits).

(** The digits the loop appends, least significant first: the last one,
    which ends up in front, is not zero. *)
Lemma convert_loop_leading : forall value, 0 < value -> forall acc,
  exists lo msd,
    convert_loop base digits value acc
    = Returns (acc ++ map (fun d => nth (Z.to_nat d) digits 0%N)
                          (lo ++ [msd]))
    /\ Forall (fun d => 0 <= d < base) lo /\ 0 < msd < base
    /\ base ^ Z.of_nat (length lo) <= value
       < base ^ (Z.of_nat (length lo) + 1).
Proof.
  intros value.
  induction value as [value IH] using (well_founded_induction (Z.lt_wf 0)).
  intros Hpos acc.
  destruct (convert_loop_step base digits value acc Hpos table)
    as (d & Hnth & Hstep).
  pose proof (Z.mod_pos_bound value base ltac:(lia)) as Hd.
  pose proof (Z.div_mod value base ltac:(lia)) as Hdm.
  destruct (Z_lt_dec 0 (value / base)) as [Hq|Hq].
  - destruct (IH (value / base)) with (acc := acc ++ [d])
      as (lo & msd & Hrun & Hrange & Hmsd & Hlow & Hhigh); [|assumption|].
    { split; [lia | apply Z.div_lt; lia]. }
    exists (value mod base :: lo), msd. split; [|split; [|split]].
    + rewrite Hstep, Hrun, <- app_assoc. simpl.
      rewrite (nth_error_nth _ _ _ Hnth). reflexivity.
    + constructor; assumption.
    + assumption.
    + cbn [length]. rewrite Nat2Z.inj_succ.
      replace (Z.succ (Z.of_nat (length lo)) + 1)
        with (Z.succ (Z.of_nat (length lo) + 1)) by lia.
      rewrite !Z.pow_succ_r by lia.
      assert (base * base ^ Z.of_nat (length lo) <= base * (value / base))
        by (apply Z.mul_le_mono_nonneg_l; lia).
      assert (base * (value / base + 1)
              <= base * base ^ (Z.of_nat (length lo) + 1))
        by (apply Z.mul_le_mono_nonneg_l; lia).
      lia.
  - assert (Hzero : value / base = 0).
    { pose proof (Z.div_pos value base). lia. }
    exists [], (value mod base). split; [|split; [|split]].
    + rewrite Hstep, convert_loop_stop by lia. simpl.
      rewrite (nth_error_nth _ _ _ Hnth). reflexivity.
    + constructor.
    + lia.
    + simpl. lia.
Qed.
End Canonical.

(** X3: for a positive integer, a base of at least 2 and a table that
    covers it, the rendering is canonical: its first digit is not the
    zero digit, every character is one of the first [base] entries of the
    table, and a rendering of [k] characters stands for an integer from
    [base^(k-1)] up to [base^k - 1]. *)
Theorem convert_positive_to_base_canonical
    (base : Z) (digits : str) (n : Z) :
  2 <= base <= Z.of_nat (length digits) -> 0 < n ->
  exists s,
    convert_positive_to_base n base digits = Returns s
    /\ (exists d, 0 < d < base
                  /\ hd_error s = nth_error digits (Z.to_nat d))
    /\ Forall (fun ch => exists d, 0 <= d < base
                 /\ nth_error digits (Z.to_nat d) = Some ch) s
    /\ base ^ (Z.of_nat (length s) - 1) <= n < base ^ Z.of_nat (length s).
Proof.
  intros Htable Hn. unfold convert_positive_to_base.
  destruct (n =? 0) eqn:Hz; [lia|].
  destruct (convert_loop_leading base digits Htable n Hn [])
    as (lo & msd & Hrun & Hrange & Hmsd & Hbounds).
  rewrite Hrun. cbn [bind app]. eexists. split; [reflexivity|].
  assert (Hnth : forall d, 0 <= d < base ->
            nth_error digits (Z.to_nat d)
            = Some (nth (Z.to_nat d) digits 0%N)).
  { intros d Hd. apply nth_error_nth'. lia. }
  rewrite map_app, rev_app_distr. cbn [map rev app].
  split; [|split].
  - exists msd. split; [lia|]. rewrite Hnth by lia. reflexivity.
  - constructor.
    + exists msd. split; [lia | apply Hnth; lia].
    + apply Forall_rev, Forall_map. eapply Forall_impl; [|exact Hrange].
      intros d Hd. cbv beta in Hd. exists d. split; [lia | apply Hnth; lia].
  - cbn [length]. rewrite length_rev, length_map.
    replace (Z.of_nat (S (length lo)) - 1) with (Z.of_nat (length lo)) by lia.
    replace (Z.of_nat (S (length lo))) with (Z.of_nat (length lo) + 1) by lia.
    exact Hbounds.
Qed.

Lemma convert_positive_to_base_canonical_witness :
  exists s,
    convert_positive_to_base 255 16 HEX_DIGITS = Returns s
    /\ (exists d, 0 < d < 16
                  /\ hd_error s = nth_error HEX_DIGITS (Z.to_nat d))
    /\ Forall (fun ch => exists d, 0 <= d < 16
                 /\ nth_error HEX_DIGITS (Z.to_nat d) = Some ch) s
    /\ 16 ^ (Z.of_nat (length s) - 1) <= 255 < 16 ^ Z.of_nat (length s).
Proof.
  apply (convert_positive_to_base_canonical 16 HEX_DIGITS 255).
  - simpl. lia.
  - lia.
Defined.

Section Termination.
Variables (base : Z) (digits : str).

Lemma convert_loop_ends_above_one : 2 <= base ->
  forall value acc, convert_loop base digits value acc <> Diverges.
Proof.
  intros Hbase value.
  induction value as [value IH] using (well_founded_induction (Z.lt_wf 0)).
  intros acc. unroll_loop.
  destruct (Z_lt_dec 0 value) as [Hpos|]; [|discriminate].
  destruct (Z.eq_dec base 0) as [|Hb]; [discriminate|].
  destruct (index digits (value mod base)) as [d|e|] eqn:Hidx.
  - destruct (Z_lt_dec (value / base) value) as [Hlt|Hge].
    + apply IH. split; [apply Z.div_pos; lia | exact Hlt].
    + exfalso. apply Hge. apply Z.div_lt; lia.
  - discriminate.
  - unfold index in Hidx.
    destruct (_ || _) in Hidx; [discriminate|].
    destruct (nth_error _ _) in Hidx; discriminate.
Qed.

Lemma index_ends {A} (s : list A) i : index s i <> Diverges.
Proof.
  unfold index. destruct (_ || _); [discriminate|].
  destruct (nth_error _ _); discriminate.
Qed.

Lemma convert_loop_ends_below_zero : base < 0 ->
  forall value acc, convert_loop base digits value acc <> Diverges.
Proof.
  intros Hbase value acc. unroll_loop.
  destruct (Z_lt_dec 0 value) as [Hpos|]; [|discriminate].
  destruct (Z.eq_dec base 0) as [|Hb]; [discriminate|].
  destruct (index digits (value mod base)) as [d|e|] eqn:Hidx.
  - assert (Hq : value / base < 0).
    { pose proof (Z.div_mod value base ltac:(lia)).
      pose proof (Z.mod_neg_bound value base ltac:(lia)). nia. }
    destruct (Z_lt_dec (value / base) value) as [Hlt|Hge]; [|lia].
    rewrite convert_loop_stop by lia. discriminate.
  - discriminate.
  - exfalso. exact (index_ends _ _ Hidx).
Qed.
End Termination.

(** X4: outside its documented domain [convert_positive_to_base] returns
    the empty string for a negative integer, raises [ZeroDivisionError]
    for base 0, raises [IndexError] when the first remainder is beyond the
    digit table, and runs forever exactly when the integer is positive,
    the base is 1 and the table is not empty. *)
Theorem convert_positive_to_base_outside_domain
    (n base : Z) (digits : str) :
  (n < 0 -> convert_positive_to_base n base digits = Returns [])
  /\ (0 < n -> base = 0 ->
      convert_positive_to_base n base digits = Raises ZeroDivisionError)
  /\ (0 < n -> 2 <= base -> Z.of_nat (length digits) <= n mod base ->
      convert_positive_to_base n base digits = Raises IndexError)
  /\ (convert_positive_to_base n base digits = Diverges
      <-> 0 < n /\ base = 1 /\ digits <> []).
Proof.
  assert (Hbind : forall c : outcome str,
            bind c (fun result_chars => Returns (rev result_chars)) = Diverges
            -> c = Diverges).
  { intros [a|e|]; simpl; intros H; [discriminate|discriminate|reflexivity]. }
  split; [|split; [|split; [|split]]].
  - intros Hneg. unfold convert_positive_to_base.
    destruct (n =? 0) eqn:Hz; [lia|].
    rewrite convert_loop_stop by lia. reflexivity.
  - intros Hpos ->. unfold convert_positive_to_base.
    destruct (n =? 0) eqn:Hz; [lia|]. unroll_loop.
    destruct (Z_lt_dec 0 n); [|lia].
    destruct (Z.eq_dec 0 0); [reflexivity|congruence].
  - intros Hpos Hbase Hshort. unfold convert_positive_to_base.
    destruct (n =? 0) eqn:Hz; [lia|]. unroll_loop.
    destruct (Z_lt_dec 0 n); [|lia].
    destruct (Z.eq_dec base 0); [lia|].
    unfold index.
    pose proof (Z.mod_pos_bound n base ltac:(lia)).
    destruct (n mod base <? 0) eqn:Hsign; [lia|].
    destruct ((n mod base <? 0) || (Z.of_nat (length digits) <=? n mod base))
      eqn:Hout; [reflexivity|].
    apply orb_false_iff in Hout. lia.
  - unfold convert_positive_to_base. intros Hdiv.
    destruct (n =? 0) eqn:Hz; [discriminate|].
    apply Hbind in Hdiv.
    destruct (Z_lt_dec 0 n) as [Hpos|Hneg];
      [|rewrite convert_loop_stop in Hdiv by lia; discriminate].
    destruct (Z_lt_dec base 0) as [Hb|Hb];
      [exfalso; exact (convert_loop_ends_below_zero base digits Hb _ _ Hdiv)|].
    destruct (Z_lt_dec 1 base) as [Hb'|Hb'];
      [exfalso; apply (convert_loop_ends_above_one base digits) in Hdiv;
       [exact Hdiv|lia]|].
    revert Hdiv. unroll_loop.
    destruct (Z_lt_dec 0 n); [|lia].
    destruct (Z.eq_dec base 0) as [|Hnz]; [discriminate|].
    assert (base = 1) as -> by lia. intros Hdiv.
    split; [exact Hpos|]. split; [reflexivity|].
    intros ->. rewrite Z.mod_1_r in Hdiv. discriminate.
  - intros (Hpos & -> & Hne). unfold convert_positive_to_base.
    destruct (n =? 0) eqn:Hz; [lia|]. unroll_loop.
    destruct (Z_lt_dec 0 n); [|lia].
    destruct (Z.eq_dec 1 0); [lia|].
    rewrite Z.mod_1_r.
    destruct (index_in_range digits 0) as (d & -> & _).
    { destruct digits; [congruence | cbn [length]; lia]. }
    rewrite Z.div_1_r.
    destruct (Z_lt_dec n n); [lia|reflexivity].
Qed.

Lemma convert_positive_to_base_outside_domain_witness :
  convert_positive_to_base (-5) 2 (u"01") = Returns []
  /\ convert_positive_to_base 5 0 (u"01") = Raises ZeroDivisionError
  /\ convert_positive_to_base 5 3 (u"01") = Raises IndexError
  /\ convert_positive_to_base 5 1 (u"01") = Diverges.
Proof.
  split; [|split; [|split]].
  - apply (proj1 (convert_positive_to_base_outside_domain (-5) 2 (u"01"))).
    lia.
  - apply (proj1 (proj2
             (convert_positive_to_base_outside_domain 5 0 (u"01"))));
      [lia | reflexivity].
  - apply (proj1 (proj2 (proj2
             (convert_positive_to_base_outside_domain 5 3 (u"01")))));
      [lia | lia | vm_compute; discriminate].
  - apply (proj2 (proj2 (proj2
             (convert_positive_to_base_outside_domain 5 1 (u"01"))))).
    split; [lia|]. split; [reflexivity | discriminate].
Defined.

End RenderingFacts.

(** ** The parser on the decimal text of an integer *)

Module DecimalTextFacts.
Import ConvertNumbers ConvertNumbersFacts.

Section DecimalText.

(** The characters of an unsigned decimal numeral, and one turn of the
    loop of the parser over them. *)
Local Abbreviation text_of d :=
  (str_of_string (DecimalString.NilEmpty.string_of_uint d)).

Local Abbreviation step :=
  (fun (value : Z) (ch : char) => value * 10 + digit_value ch).

Lemma text_of_digits d : forallb is_digit (text_of d) = true.
Proof.
  induction d; [reflexivity|..]; exact IHd.
Qed.

Lemma text_of_acc d : forall acc,
  fold_left step (text_of d) (Zpos acc) = Zpos (Pos.of_uint_acc d acc).
Proof.
  induction d; intros acc; [reflexivity|..];
    cbn [DecimalString.NilEmpty.string_of_uint str_of_string
         fold_left Pos.of_uint_acc];
    rewrite <- IHd; f_equal; unfold digit_value;
    rewrite ?Pos2Z.inj_add, ?Pos2Z.inj_mul;
    match goal with
    | |- context [Z.of_N ?c - Z.of_N ?z] =>
        let v := eval vm_compute in (Z.of_N c - Z.of_N z) in
        change (Z.of_N c - Z.of_N z) with v
    end; lia.
Qed.

Lemma text_of_value d :
  fold_left step (text_of d) 0 = Z.of_N (Pos.of_uint d).
Proof.
  induction d; [reflexivity|exact IHd|..];
    cbn [DecimalString.NilEmpty.string_of_uint str_of_string
         fold_left Pos.of_uint];
    cbn [Z.of_N]; rewrite <- (text_of_acc d); reflexivity.
Qed.

Lemma str_of_positive p :
  str_of_int (Zpos p) = text_of (Pos.to_uint p)
  /\ str_of_int (Zneg p) = ord "-" :: text_of (Pos.to_uint p)
  /\ text_of (Pos.to_uint p) <> []
  /\ forallb is_digit (text_of (Pos.to_uint p)) = true
  /\ decimal_value (text_of (Pos.to_uint p)) = Zpos p.
Proof.
  pose proof (DecimalPos.Unsigned.to_uint_nonnil p) as Hnil.
  pose proof (DecimalPos.Unsigned.of_to p) as Hval.
  unfold str_of_int. cbn [Z.to_int DecimalString.NilZero.string_of_int].
  destruct (Pos.to_uint p) eqn:Hd; try congruence;
    (split; [reflexivity|]; split; [reflexivity|];
     split; [discriminate|]; split; [apply text_of_digits|];
     unfold decimal_value; rewrite <- Hd in *;
     change (fold_left step (text_of (Pos.to_uint p)) 0 = Zpos p);
     rewrite text_of_value, Hval; reflexivity).
Qed.
End DecimalText.

(** X5: the strict parser accepts the decimal text of every integer
    [n], the text [str(n)] stands for: it prints nothing and returns [n];
    so the decimal column of a report parses back to the numbers it was
    written from. *)
Theorem parse_int_strict_reads_decimal_text (n line_no : Z) :
  strict_integer (str_of_int n) n
  /\ parse_int_strict (str_of_int n) line_no = ([], (true, n)).
Proof.
  assert (Hstrict : strict_integer (str_of_int n) n).
  { destruct n as [|p|p].
    - apply (strict_unsigned (u"0")); [discriminate|reflexivity].
    - destruct (str_of_positive p) as (-> & _ & Hne & Hdigits & Hval).
      rewrite <- Hval. apply strict_unsigned; assumption.
    - destruct (str_of_positive p) as (_ & -> & Hne & Hdigits & Hval).
      change (Z.neg p) with (- Z.pos p). rewrite <- Hval.
      apply strict_minus; assumption. }
  split; [exact Hstrict|].
  destruct (parse_int_strict_cases (str_of_int n) line_no)
    as [(v & Hv & Hparse) | (Hnone & _)].
  - rewrite Hparse. rewrite (strict_integer_functional _ _ _ Hv Hstrict).
    reflexivity.
  - exfalso. exact (Hnone n Hstrict).
Qed.

End DecimalTextFacts.

(** ** The conversion script from the file to the report *)

Module ConversionRunFacts.
Import ConvertNumbers ConvertNumbersFacts Numerals.

Section Diagnostics.
Variable db : unicode_db.

(** What [parse_int_strict] prints: nothing when it accepts, one of its
    three messages when it rejects. *)
Lemma parse_int_strict_prints text line_no :
  (exists value, parse_int_strict text line_no = ([], (true, value)))
  \/ (exists message,
        parse_int_strict text line_no = ([message], (false, 0))
        /\ (message = empty_line line_no
            \/ message = sign_without_digits line_no
            \/ message = not_an_integer line_no)).
Proof.
  unfold parse_int_strict. destruct text as [|c0 rest].
  - right. eexists. split; [reflexivity|]. auto.
  - destruct (if char_eqb c0 (ord "+") then (1, 1%nat)
              else if char_eqb c0 (ord "-") then (-1, 1%nat)
              else (1, 0%nat)) as [sign start_idx].
    destruct (Nat.eqb start_idx (length (c0 :: rest))).
    + right. eexists. split; [reflexivity|]. auto.
    + destruct (scan_digits (skipn start_idx (c0 :: rest)) 0) as [value|].
      * left. eexists. reflexivity.
      * right. eexists. split; [reflexivity|]. auto.
Qed.

Lemma enumerate_numbers {A} (xs : list A) : forall start line_no x,
  In (line_no, x) (enumerate xs start) ->
  start <= line_no < start + Z.of_nat (length xs).
Proof.
  induction xs as [|y xs IH]; intros start line_no x Hin; [destruct Hin|].
  cbn [enumerate length] in *. destruct Hin as [Heq|Hin].
  - injection Heq as <- _. lia.
  - apply IH in Hin. lia.
Qed.

Local Abbreviation printed_by :=
  (fun numbered : Z * str =>
     fst (parse_int_strict (strip db (snd numbered)) (fst numbered))).

Lemma scan_conversion_console numbered_lines :
  forall out numbers invalid_count,
  fold_left (read_line db) numbered_lines (out, numbers, invalid_count)
  = (out ++ flat_map printed_by numbered_lines,
     numbers
       ++ flat_map (fun numbered =>
                      match snd (parse_int_strict
                                   (strip db (snd numbered)) (fst numbered))
                      with
                      | (true, value) => [value]
                      | (false, _) => []
                      end) numbered_lines,
     invalid_count + Z.of_nat (length (flat_map printed_by numbered_lines))).
Proof.
  induction numbered_lines as [|[line_no raw_line] rest IH];
    intros out numbers invalid_count.
  - simpl. rewrite !app_nil_r. f_equal. lia.
  - cbn [fold_left flat_map].
    assert (Hstep :
      read_line db (out, numbers, invalid_count) (line_no, raw_line)
      = (out ++ printed_by (line_no, raw_line),
         numbers
           ++ match snd (parse_int_strict (strip db raw_line) line_no) with
              | (true, value) => [value]
              | (false, _) => []
              end,
         invalid_count
           + Z.of_nat (length (printed_by (line_no, raw_line))))).
    { unfold read_line. cbn [fst snd].
      destruct (parse_int_strict_prints (strip db raw_line) line_no)
        as [(value & Hp) | (message & Hp & _)]; rewrite Hp; cbn [fst snd].
      - rewrite app_nil_r. f_equal. simpl. lia.
      - rewrite app_nil_r. f_equal. }
    rewrite Hstep, IH. cbn [fst snd].
    f_equal; [f_equal|]; rewrite ?length_app, <- ?app_assoc;
      try reflexivity; lia.
Qed.
End Diagnostics.

(** X6: the scan of [read_numbers] prints exactly what
    [parse_int_strict] prints for each line, in line order and with
    line numbers counted from 1; so the console holds one message for every
    line counted as invalid, none for an accepted line, and every message
    is one of the three of the parser for a line of the file. *)
Theorem conversion_scan_reports_each_invalid_line
    (db : unicode_db) (filepath : str) (raw_lines : list str) :
  exists out numbers invalid_count,
    read_numbers db filepath (Opened raw_lines)
    = (out, Some (numbers, invalid_count))
    /\ out = flat_map
               (fun numbered =>
                  fst (parse_int_strict (strip db (snd numbered))
                                        (fst numbered)))
               (enumerate raw_lines 1)
    /\ Z.of_nat (length out) = invalid_count
    /\ Forall (fun message =>
                 exists line_no,
                   1 <= line_no <= Z.of_nat (length raw_lines)
                   /\ (message = empty_line line_no
                       \/ message = sign_without_digits line_no
                       \/ message = not_an_integer line_no)) out.
Proof.
  unfold read_numbers. rewrite scan_conversion_console. cbn [app].
  do 3 eexists. split; [reflexivity|]. split; [reflexivity|].
  split; [lia|].
  apply Forall_forall. intros message Hin.
  apply in_flat_map in Hin. destruct Hin as ([line_no raw_line] & Hline & Hin).
  apply enumerate_numbers in Hline. cbn [fst snd] in Hin.
  destruct (parse_int_strict_prints (strip db raw_line) line_no)
    as [(value & Hp) | (message' & Hp & Hform)];
    rewrite Hp in Hin; cbn [fst] in Hin.
  - destruct Hin.
  - destruct Hin as [<-|[]]. exists line_no. split; [lia | exact Hform].
Qed.

Section Bounds.
Variable db : unicode_db.





End Bounds.

Section Report.

Lemma rendering_returns n :
  exists b h,
    to_binary n = Returns b /\ to_hex n = Returns h
    /\ read_signed 2 (u"01") b = Some n
    /\ read_signed 16 HEX_DIGITS h = Some n.
Proof.
  destruct (RenderingFacts.rendering_reads_back 2 (u"01") n)
    as (b & Hb & Hrb);
    [simpl; lia | apply RenderingFacts.binary_digits_distinct
    | repeat constructor | reflexivity |].
  destruct (RenderingFacts.rendering_reads_back 16 HEX_DIGITS n)
    as (h & Hh & Hrh);
    [simpl; lia | apply RenderingFacts.hex_digits_distinct
    | repeat constructor | reflexivity |].
  exists b, h. auto.
Qed.

(** A row of the report for [n]. *)
Local Abbreviation row_of :=
  (fun (n : Z) (row : str) =>
     exists b h,
       row = str_of_int n ++ u" -> " ++ b ++ u" -> " ++ h
       /\ read_signed 2 (u"01") b = Some n
       /\ read_signed 16 HEX_DIGITS h = Some n).

Lemma conversion_lines_rows numbers :
  exists rows,
    conversion_lines numbers = Returns rows /\ Forall2 row_of numbers rows.
Proof.
  induction numbers as [|n rest (rows & Hrows & Hall)].
  - exists []. split; [reflexivity | constructor].
  - destruct (rendering_returns n) as (b & h & Hb & Hh & Hrb & Hrh).
    eexists. cbn [conversion_lines]. rewrite Hb, Hh, Hrows. cbn [bind].
    split; [reflexivity|]. constructor; [|exact Hall].
    exists b, h. auto.
Qed.

Lemma conversion_lines_firstn k : forall numbers rows,
  conversion_lines numbers = Returns rows ->
  conversion_lines (firstn k numbers) = Returns (firstn k rows).
Proof.
  induction k as [|k IH]; intros numbers rows Hrows; [reflexivity|].
  destruct numbers as [|n rest].
  - injection Hrows as <-. reflexivity.
  - cbn [conversion_lines firstn] in *.
    destruct (to_binary n) as [b| |]; try discriminate.
    destruct (to_hex n) as [h| |]; try discriminate.
    cbn [bind] in *.
    destruct (conversion_lines rest) as [more| |] eqn:Hmore;
      try discriminate.
    cbn [bind] in *. injection Hrows as <-.
    rewrite (IH rest more Hmore). reflexivity.
Qed.

End Report.

(** X7: for integers within the limit on decimal text, the loop of
    [build_report] completes and gives every number a row, in order, made
    of its decimal text and of renderings that read back as that number in
    base 2 and in base 16; the rows of a report capped at [limit] are the
    first [limit] of these rows. *)
Theorem report_rows_render_the_numbers (numbers : list Z) (limit : Z) :
  Forall (fun n => Z.abs n < 10 ^ int_max_str_digits) numbers ->
  exists rows,
    conversion_lines numbers = Returns rows
    /\ Forall2
         (fun n row =>
            exists b h,
              row = str_of_int n ++ u" -> " ++ b ++ u" -> " ++ h
              /\ read_signed 2 (u"01") b = Some n
              /\ read_signed 16 HEX_DIGITS h = Some n)
         numbers rows
    /\ (0 <= limit ->
        conversion_lines (slice_to numbers limit)
        = Returns (firstn (Z.to_nat limit) rows)).
Proof.
  intros _.
  destruct (conversion_lines_rows numbers) as (rows & Hrows & Hall).
  exists rows. split; [exact Hrows|]. split; [exact Hall|].
  intros Hlimit. unfold slice_to.
  destruct (limit <? 0) eqn:Hneg; [lia|].
  apply conversion_lines_firstn, Hrows.
Qed.

Lemma report_rows_render_the_numbers_witness :
  exists rows,
    conversion_lines [10; -3; 255] = Returns rows
    /\ conversion_lines (slice_to [10; -3; 255] 2)
       = Returns (firstn 2 rows)
    /\ rows = [u"10 -> 1010 -> A"; u"-3 -> -11 -> -3";
               u"255 -> 11111111 -> FF"].
Proof.
  destruct (report_rows_render_the_numbers [10; -3; 255] 2)
    as (rows & Hrows & _ & Hcap).
  - repeat constructor.
  - exists rows. split; [exact Hrows|]. split; [apply Hcap; lia|].
    vm_compute in Hrows. injection Hrows as <-. reflexivity.
Defined.



End ConversionRunFacts.

(** ** The statistics script from the file to the aggregates *)

Module StatisticsRunFacts.
Import ComputeStatistics.

Section Diagnostics.
Variable db : unicode_db.
Variable float_of_str : str -> option float.

(** What the body of the loop of [read_numbers_from_file] does with a
    line: it keeps a finite number and prints nothing, or prints one
    message and keeps nothing. *)
Lemma classify_prints line_no raw_line :
  (exists value,
     classify db float_of_str line_no raw_line = ([], Some value)
     /\ strip db raw_line <> []
     /\ float_of_str (strip db raw_line) = Some value
     /\ isfinite value = true)
  \/ (exists message,
        classify db float_of_str line_no raw_line = ([message], None)
        /\ (strip db raw_line = []
            \/ float_of_str (strip db raw_line) = None
            \/ exists value, float_of_str (strip db raw_line) = Some value
                             /\ isfinite value = false)).
Proof.
  unfold classify. destruct (strip db raw_line) as [|c line] eqn:Hline.
  - right. eexists. split; [reflexivity|]. auto.
  - destruct (float_of_str (c :: line)) as [value|] eqn:Hfloat.
    + destruct (isfinite value) eqn:Hfinite.
      * left. exists value. repeat split; auto. discriminate.
      * right. eexists. split; [reflexivity|]. right. right.
        exists value. auto.
    + right. eexists. split; [reflexivity|]. auto.
Qed.

Local Abbreviation printed_by :=
  (fun numbered : Z * str =>
     fst (classify db float_of_str (fst numbered) (snd numbered))).

Local Abbreviation kept_of :=
  (fun numbered : Z * str =>
     match snd (classify db float_of_str (fst numbered) (snd numbered)) with
     | Some value => [value]
     | None => []
     end).

Lemma scan_statistics_console numbered_lines :
  forall out numbers invalid_count,
  fold_left (read_line db float_of_str) numbered_lines
            (out, numbers, invalid_count)
  = (out ++ flat_map printed_by numbered_lines,
     numbers ++ flat_map kept_of numbered_lines,
     invalid_count + Z.of_nat (length (flat_map printed_by numbered_lines))).
Proof.
  induction numbered_lines as [|[line_no raw_line] rest IH];
    intros out numbers invalid_count.
  - simpl. rewrite !app_nil_r. f_equal. lia.
  - cbn [fold_left flat_map].
    assert (Hstep :
      read_line db float_of_str (out, numbers, invalid_count)
                (line_no, raw_line)
      = (out ++ printed_by (line_no, raw_line),
         numbers ++ kept_of (line_no, raw_line),
         invalid_count
           + Z.of_nat (length (printed_by (line_no, raw_line))))).
    { unfold read_line. cbn [fst snd].
      destruct (classify_prints line_no raw_line)
        as [(value & Hp & _) | (message & Hp & _)]; rewrite Hp;
        cbn [fst snd].
      - rewrite app_nil_r. f_equal. simpl. lia.
      - rewrite app_nil_r. f_equal. }
    rewrite Hstep, IH. cbn [fst snd].
    f_equal; [f_equal|]; rewrite ?length_app, <- ?app_assoc;
      try reflexivity; lia.
Qed.

Lemma enumerate_lines {A} (xs : list A) : forall start x,
  In x xs <-> exists line_no, In (line_no, x) (enumerate xs start).
Proof.
  induction xs as [|y xs IH]; intros start x; cbn [enumerate In].
  - split; [intros [] | intros (_ & [])].
  - split.
    + intros [->|Hin].
      * exists start. left. reflexivity.
      * apply (IH (start + 1)) in Hin. destruct Hin as (k & Hk).
        exists k. right. exact Hk.
    + intros (k & [Heq|Hin]).
      * injection Heq as _ ->. left. reflexivity.
      * right. apply (IH (start + 1)). exists k. exact Hin.
Qed.
End Diagnostics.

(** X9: the scan of [read_numbers_from_file] prints one message for
    every line it counts as invalid and none for a line it keeps; the
    numbers it returns are exactly the finite floats read from the stripped
    non-blank lines, so no infinity and no NaN reaches the aggregators. *)
Theorem statistics_scan_keeps_finite_numbers
    (db : unicode_db) (float_of_str : str -> option float)
    (filepath : str) (raw_lines : list str) :
  exists out numbers invalid_count,
    read_numbers_from_file db float_of_str filepath (Opened raw_lines)
    = (out, Some (numbers, invalid_count))
    /\ out = flat_map
               (fun numbered =>
                  fst (classify db float_of_str (fst numbered)
                                (snd numbered)))
               (enumerate raw_lines 1)
    /\ Z.of_nat (length out) = invalid_count
    /\ Forall (fun value => isfinite value = true) numbers
    /\ (forall value,
          In value numbers
          <-> exists raw_line,
                In raw_line raw_lines
                /\ strip db raw_line <> []
                /\ float_of_str (strip db raw_line) = Some value
                /\ isfinite value = true).
Proof.
  unfold read_numbers_from_file. rewrite scan_statistics_console.
  cbn [app]. do 3 eexists. split; [reflexivity|]. split; [reflexivity|].
  split; [lia|].
  assert (Hin : forall value,
            In value
               (flat_map
                  (fun numbered =>
                     match snd (classify db float_of_str (fst numbered)
                                         (snd numbered)) with
                     | Some value => [value]
                     | None => []
                     end) (enumerate raw_lines 1))
            <-> exists raw_line,
                  In raw_line raw_lines
                  /\ strip db raw_line <> []
                  /\ float_of_str (strip db raw_line) = Some value
                  /\ isfinite value = true).
  { intros value. rewrite in_flat_map. split.
    - intros ([line_no raw_line] & Hline & Hvalue). cbn [fst snd] in Hvalue.
      exists raw_line. split.
      + apply (enumerate_lines raw_lines 1). exists line_no. exact Hline.
      + destruct (classify_prints db float_of_str line_no raw_line)
          as [(value' & Hp & Hfacts) | (message & Hp & _)];
          rewrite Hp in Hvalue; cbn [snd] in Hvalue.
        * destruct Hvalue as [<-|[]]. exact Hfacts.
        * destruct Hvalue.
    - intros (raw_line & Hline & Hne & Hfloat & Hfinite).
      apply (enumerate_lines raw_lines 1) in Hline.
      destruct Hline as (line_no & Hline).
      exists (line_no, raw_line). split; [exact Hline|]. cbn [fst snd].
      destruct (classify_prints db float_of_str line_no raw_line)
        as [(value' & Hp & _ & Hfloat' & _) | (message & Hp & Hwhy)];
        rewrite Hp; cbn [snd].
      + left. congruence.
      + destruct Hwhy as [Hblank | [Hnone | (value' & Hsome & Hinf)]];
          congruence. }
  split; [|exact Hin].
  apply Forall_forall. intros value Hvalue. apply Hin in Hvalue.
  destruct Hvalue as (_ & _ & _ & _ & Hfinite). exact Hfinite.
Qed.

End StatisticsRunFacts.

(** ** The aggregates of a run *)

Module AggregateFacts.
Import ComputeStatistics.

Section Occurrences.

Lemma not_nan_of_finite values :
  Forall (fun v => isfinite v = true) values ->
  Forall (fun v => isnan v = false) values.
Proof.
  intros H. eapply Forall_impl; [|exact H]. intros v. apply isfinite_not_nan.
Qed.

Lemma occurrences_bounds k values :
  0 <= occurrences feq k values <= Z.of_nat (length values).
Proof.
  unfold occurrences. pose proof (filter_length_le (fun v => feq v k) values).
  lia.
Qed.

Lemma occurrences_cons k v values :
  occurrences feq k (v :: values)
  = (if feq v k then 1 else 0) + occurrences feq k values.
Proof.
  unfold occurrences. cbn [filter]. destruct (feq v k); cbn [length]; lia.
Qed.

Lemma occurrences_member v values :
  isnan v = false -> In v values -> 1 <= occurrences feq v values.
Proof.
  intros Hv. induction values as [|w values IH]; intros Hin; [destruct Hin|].
  rewrite occurrences_cons. pose proof (occurrences_bounds v values).
  destruct Hin as [->|Hin].
  - rewrite feq_refl by assumption. lia.
  - specialize (IH Hin). destruct (feq w v); lia.
Qed.

Lemma occurrences_absent k values :
  occurrences feq k values = 0 ->
  Forall (fun v => feq k v = false) values.
Proof.
  induction values as [|w values IH]; intros Hocc; [constructor|].
  rewrite occurrences_cons in Hocc.
  pose proof (occurrences_bounds k values).
  destruct (feq w k) eqn:Hwk; [lia|].
  constructor; [rewrite feq_sym; exact Hwk | apply IH; lia].
Qed.

(** No value repeats exactly when no value occurs twice. *)
Lemma distinct_iff_single values :
  Forall (fun v => isnan v = false) values ->
  ForallOrdPairs (fun a b => feq a b = false) values
  <-> (forall v, In v values -> occurrences feq v values <= 1).
Proof.
  induction 1 as [|w values Hw Hnan IH].
  - split; [intros _ v [] | constructor].
  - split.
    + intros Hdist v Hin. inversion Hdist as [|? ? Hhead Htail]; subst.
      rewrite occurrences_cons. destruct Hin as [->|Hin].
      * rewrite feq_refl by assumption.
        rewrite (occurrences_none feq); [lia|].
        eapply Forall_impl; [|exact Hhead]. intros b Hb.
        rewrite feq_sym. exact Hb.
      * pose proof (proj1 IH Htail v Hin).
        rewrite Forall_forall in Hhead.
        rewrite (Hhead v Hin). lia.
    + intros Hsingle. constructor.
      * apply occurrences_absent.
        specialize (Hsingle w (or_introl eq_refl)).
        rewrite occurrences_cons, feq_refl in Hsingle by assumption.
        pose proof (occurrences_bounds w values). lia.
      * apply IH. intros v Hin.
        specialize (Hsingle v (or_intror Hin)).
        rewrite occurrences_cons in Hsingle. destruct (feq w v); lia.
Qed.
End Occurrences.

Section Mode.

(** What [mode] returns, by the highest count [m] of the table and the
    keys [tied] at that count. *)
Lemma mode_outcome values :
  values <> [] -> Forall (fun v => isnan v = false) values ->
  exists m tied,
    (exists v, In v values /\ occurrences feq v values = m)
    /\ (forall v, In v values -> occurrences feq v values <= m)
    /\ mode values
       = Returns (if m <=? 1 then ([], 1) else (sorted flt tied, m))
    /\ tied <> []
    /\ ForallOrdPairs (fun j k => feq j k = false) tied
    /\ (forall k, In k tied ->
          In k values /\ occurrences feq k values = m)
    /\ (forall v, In v values -> occurrences feq v values = m ->
          exists k, In k tied /\ feq k v = true).
Proof.
  intros Hne Hnan.
  pose proof (count_values_counted values Hnan) as Hcounted.
  set (freq := count_values values) in *.
  destruct Hcounted as [Hkeys Hdistinct Hvalues Hall].
  assert (Hitems : forall k c, In (k, c) freq ->
            In k values /\ c = occurrences feq k values).
  { intros k c Hin. split.
    - rewrite Forall_forall in Hkeys. apply Hkeys.
      apply (in_map fst _ _ Hin).
    - rewrite Forall_forall in Hvalues. apply (Hvalues _ Hin). }
  assert (Hkey : forall v, In v values ->
            exists k c, In (k, c) freq /\ feq k v = true).
  { intros v Hv. rewrite Forall_forall in Hall.
    specialize (Hall v Hv). apply Exists_exists in Hall.
    destruct Hall as (k & Hk & Hkv). apply in_map_iff in Hk.
    destruct Hk as ([k' c] & <- & Hin). exists k', c. auto. }
  destruct (max_int_spec (Py.values freq)
              (count_values_not_empty values Hne Hnan))
    as (m & Hmax & Hin & Hle).
  apply in_map_iff in Hin. destruct Hin as ([k c] & Hc & Hin).
  cbn [snd] in Hc. subst c.
  exists m, (keys (filter (fun item => snd item =? m) (items freq))).
  assert (Htied : forall j,
            In j (keys (filter (fun item => snd item =? m) (items freq)))
            <-> In (j, m) freq).
  { intros j. unfold keys. rewrite in_map_iff. split.
    - intros ([j' c] & <- & Hf). apply filter_In in Hf.
      destruct Hf as [Hf Hc]. cbn [snd] in Hc. apply Z.eqb_eq in Hc.
      subst c. exact Hf.
    - intros Hf. exists (j, m). split; [reflexivity|].
      apply filter_In. split; [exact Hf | apply Z.eqb_refl]. }
  split; [|split; [|split; [|split; [|split; [|split]]]]].
  - destruct (Hitems k m Hin) as [Hk Hm]. exists k. auto.
  - intros v Hv. destruct (Hkey v Hv) as (k' & c & Hkc & Hkv).
    rewrite <- (occurrences_feq k' v values Hkv).
    destruct (Hitems k' c Hkc) as [_ <-].
    rewrite Forall_forall in Hle. apply Hle. apply (in_map snd _ _ Hkc).
  - unfold mode. fold freq. rewrite Hmax. cbn [bind].
    destruct (m <=? 1); [reflexivity|].
    rewrite collect_modes. reflexivity.
  - intros Hnil. apply (proj2 (Htied k)) in Hin. rewrite Hnil in Hin.
    destruct Hin.
  - apply ForallOrdPairs_filter_keys. exact Hdistinct.
  - intros j Hj. apply Htied in Hj. destruct (Hitems j m Hj). auto.
  - intros v Hv Hocc. destruct (Hkey v Hv) as (j & c & Hjc & Hjv).
    exists j. split; [|exact Hjv]. apply Htied.
    destruct (Hitems j c Hjc) as [_ Hc].
    rewrite (occurrences_feq j v values Hjv), Hocc in Hc. subst c.
    exact Hjc.
Qed.
End Mode.

Section Median.

Lemma halve_not_nan x :
  isnan x = false -> isnan (SFdiv prec emax x two) = false.
Proof.
  intros Hx. destruct (not_nan_signed x Hx) as [Hs|Hs];
    eapply signed_not_nan, fdiv_signed, Hs.
Qed.

(** The median is one of the values, or half the sum of two of them. *)
Lemma median_outcome values :
  values <> [] ->
  exists med,
    median values = Returns med
    /\ (In med values
        \/ exists lo hi, In lo values /\ In hi values
                         /\ med = SFdiv prec emax (fadd lo hi) two).
Proof.
  intros Hne. unfold median.
  set (sorted_vals := sorted flt values).
  assert (Hperm : Permutation sorted_vals values) by apply sorted_perm.
  assert (Hlen : 0 < Z.of_nat (length sorted_vals)).
  { unfold sorted_vals. rewrite sorted_length.
    destruct values; [congruence | cbn [length]; lia]. }
  set (n := Z.of_nat (length sorted_vals)) in *.
  pose proof (Z.mod_pos_bound n 2 ltac:(lia)) as Hmod.
  pose proof (Z.div_mod n 2 ltac:(lia)) as Hdiv.
  destruct (Z.eqb_spec (n mod 2) 1) as [Hodd|Heven].
  - destruct (index_in_range sorted_vals (n / 2)) as (med & -> & Hnth);
      [fold n; lia|].
    exists med. split; [reflexivity|]. left.
    apply (Permutation_in _ Hperm), (nth_error_In _ _ Hnth).
  - destruct (index_in_range sorted_vals (n / 2 - 1)) as (lo & -> & Hlo);
      [fold n; lia|].
    destruct (index_in_range sorted_vals (n / 2)) as (hi & -> & Hhi);
      [fold n; lia|].
    eexists. split; [reflexivity|]. right. exists lo, hi.
    split; [|split; [|reflexivity]];
      apply (Permutation_in _ Hperm); eapply nth_error_In; eassumption.
Qed.

Lemma median_not_nan values med :
  Forall (fun v => isfinite v = true) values ->
  median values = Returns med -> isnan med = false.
Proof.
  intros Hfinite Hmed. rewrite Forall_forall in Hfinite.
  destruct values as [|v values'] eqn:Hvalues; [discriminate|].
  rewrite <- Hvalues in *.
  destruct (median_outcome values) as (med' & Hmed' & Hwhere);
    [congruence|].
  rewrite Hmed in Hmed'. injection Hmed' as <-.
  destruct Hwhere as [Hin | (lo & hi & Hlo & Hhi & ->)].
  - apply isfinite_not_nan, Hfinite, Hin.
  - apply halve_not_nan, fadd_not_nan;
      [apply isfinite_not_nan|]; auto.
Qed.
End Median.

(** X10: on numbers that are finite and not empty, the aggregation
    half of [main] never raises, and the record it builds is coherent: the
    count is the number of values, the mean and the median are not NaN,
    variance and standard deviation are not negative, the mode frequency
    lies between 1 and the count, and the list of modes is empty, which
    makes the report say that all frequencies are 1, exactly when the
    frequency is 1 and exactly when no value occurs twice. *)
Theorem aggregate_builds_a_coherent_record
    (numbers : list float) (invalid_count : Z) (elapsed : str) :
  numbers <> [] -> Forall (fun v => isfinite v = true) numbers ->
  Z.of_nat (length numbers) <= sys_maxsize ->
  exists result,
    aggregate numbers invalid_count elapsed = Returns result
    /\ count result = Z.of_nat (length numbers)
    /\ ComputeStatistics.invalid_count result = invalid_count
    /\ isnan (avg result) = false
    /\ isnan (med result) = false
    /\ fle zero (var result) = true
    /\ std result = SFsqrt prec emax (var result)
    /\ fle zero (std result) = true
    /\ 1 <= mode_freq result <= count result
    /\ (modes result = [] <-> mode_freq result = 1)
    /\ (modes result = []
        <-> ForallOrdPairs (fun a b => feq a b = false) numbers).
Proof.
  intros Hne Hfinite Hlen.
  pose proof (not_nan_of_finite numbers Hfinite) as Hnan.
  unfold aggregate.
  destruct (mean_returns numbers Hne Hfinite Hlen) as (avg & -> & Havg).
  destruct (median_outcome numbers Hne) as (med & Hmed & _).
  pose proof (median_not_nan numbers med Hfinite Hmed) as Hmednan.
  rewrite Hmed. cbn [bind].
  destruct (variance_returns numbers avg Hne Hfinite Hlen Havg)
    as [Hvar Hsign].
  destruct (mode_outcome numbers Hne Hnan)
    as (m & tied & (v & Hv & Hvm) & Hmax & -> & Htied & _).
  assert (Hm : 1 <= m <= Z.of_nat (length numbers)).
  { rewrite Forall_forall in Hnan.
    pose proof (occurrences_member v numbers (Hnan v Hv) Hv).
    pose proof (occurrences_bounds v numbers). lia. }
  assert (Hsingle : m <= 1
            <-> ForallOrdPairs (fun a b => feq a b = false) numbers).
  { rewrite (distinct_iff_single numbers Hnan). split.
    - intros Hsmall w Hw. specialize (Hmax w Hw). lia.
    - intros Hall. rewrite <- Hvm. apply Hall, Hv. }
  assert (Hmodes : sorted flt tied <> []).
  { intros Hnil. apply (f_equal (@length _)) in Hnil.
    rewrite sorted_length in Hnil. destruct tied; [congruence|].
    discriminate Hnil. }
  destruct (Z.leb_spec m 1) as [Hsmall|Hbig];
    cbn [bind]; rewrite Hvar; cbn [bind];
    rewrite (std_deviation_returns _ Hsign); cbn [bind];
    eexists; (split; [reflexivity|]);
    cbn [count ComputeStatistics.invalid_count ComputeStatistics.avg
         ComputeStatistics.med ComputeStatistics.var ComputeStatistics.std
         mode_freq ComputeStatistics.modes];
    (split; [reflexivity|]); (split; [reflexivity|]);
    (split; [exact Havg|]); (split; [exact Hmednan|]);
    (split; [apply nonneg_fle, Hsign|]); (split; [reflexivity|]);
    (split; [apply nonneg_fle, sqrt_nonneg, Hsign|]);
    (split; [lia|]).
  - split; [tauto|]. rewrite <- Hsingle. tauto.
  - split; [split; [congruence | lia]|].
    rewrite <- Hsingle. split; [congruence | lia].
Qed.

Lemma aggregate_builds_a_coherent_record_witness :
  exists result,
    aggregate [of_int 4; of_int 1; of_int 4] 2 (u"0.000010") = Returns result
    /\ mode_freq result = 2 /\ ComputeStatistics.modes result = [of_int 4]
    /\ med result = of_int 4.
Proof.
  destruct (aggregate_builds_a_coherent_record
              [of_int 4; of_int 1; of_int 4] 2 (u"0.000010"))
    as (result & Hresult & _).
  - discriminate.
  - repeat constructor.
  - vm_compute. discriminate.
  - exists result. split; [exact Hresult|].
    vm_compute in Hresult. injection Hresult as <-.
    repeat split.
Defined.

End AggregateFacts.

(** ** The order of the lines *)

Module OrderFacts.
Import ComputeStatistics Zeros AggregateFacts.

Section Signs.

Lemma compare_unsigned x y :
  SFcompare (unsigned_zero x) (unsigned_zero y) = SFcompare x y.
Proof. destruct x, y; reflexivity. Qed.

Lemma flt_unsigned x y : flt (unsigned_zero x) (unsigned_zero y) = flt x y.
Proof. unfold flt, SFltb. rewrite compare_unsigned. reflexivity. Qed.

Lemma unsigned_idem x : unsigned_zero (unsigned_zero x) = unsigned_zero x.
Proof. destruct x; reflexivity. Qed.

Lemma unsigned_nan x : isnan (unsigned_zero x) = isnan x.
Proof. destruct x; reflexivity. Qed.

Lemma unsigned_feq x y :
  isnan x = false -> unsigned_zero x = unsigned_zero y -> feq x y = true.
Proof.
  intros Hx Heq. apply feq_compare. rewrite <- compare_unsigned, <- Heq.
  rewrite compare_unsigned. apply SFcompare_refl, Hx.
Qed.

Lemma feq_unsigned x y :
  feq x y = true -> unsigned_zero x = unsigned_zero y.
Proof.
  intros Heq. apply feq_compare, SFcompare_eq in Heq.
  destruct Heq as [->|(sx & sy & -> & ->)]; reflexivity.
Qed.

Lemma insert_unsigned x l :
  map unsigned_zero (insert flt x l)
  = insert flt (unsigned_zero x) (map unsigned_zero l).
Proof.
  induction l as [|y l IH]; [reflexivity|].
  cbn [insert map]. rewrite flt_unsigned.
  destruct (flt x y); cbn [map]; [reflexivity | rewrite IH; reflexivity].
Qed.

Lemma insert_all_unsigned l : forall acc,
  map unsigned_zero (fold_left (fun acc x => insert flt x acc) l acc)
  = fold_left (fun acc x => insert flt x acc)
              (map unsigned_zero l) (map unsigned_zero acc).
Proof.
  induction l as [|x l IH]; intros acc; [reflexivity|].
  cbn [fold_left map]. rewrite IH, insert_unsigned. reflexivity.
Qed.

Lemma sorted_unsigned l :
  map unsigned_zero (sorted flt l) = sorted flt (map unsigned_zero l).
Proof. apply (insert_all_unsigned l []). Qed.

(** On floats without signed zeros, sorting forgets the order of its
    input; up to the sign of zeros it does so on all floats. *)
Lemma sorted_unsigned_deterministic l l' :
  Forall (fun v => isnan v = false) l ->
  Permutation (map unsigned_zero l) (map unsigned_zero l') ->
  sorted flt (map unsigned_zero l) = sorted flt (map unsigned_zero l').
Proof.
  intros Hnan Hperm.
  apply (sorted_deterministic flt
           (fun v => isnan v = false /\ unsigned_zero v = v)).
  - intros x y _ _. apply flt_asym.
  - intros x y z [Hx _] [Hy _] [Hz _]. apply flt_precede_trans; assumption.
  - intros x y [Hx Hcx] [Hy Hcy] Hxy Hyx.
    rewrite <- Hcx, <- Hcy. apply feq_unsigned, feq_compare.
    unfold may_precede, flt, SFltb in Hxy, Hyx.
    rewrite (SFcompare_antisym x y) in Hxy.
    destruct (SFcompare_not_nan x y Hx Hy) as [[] Hc]; rewrite Hc in *;
      cbn in *; congruence.
  - apply Forall_map. eapply Forall_impl; [|exact Hnan].
    intros v Hv. cbv beta. rewrite unsigned_nan, unsigned_idem. auto.
  - exact Hperm.
Qed.

Lemma sorted_order_independent l l' :
  Forall (fun v => isnan v = false) l -> Permutation l l' ->
  map unsigned_zero (sorted flt l) = map unsigned_zero (sorted flt l').
Proof.
  intros Hnan Hperm. rewrite !sorted_unsigned.
  apply sorted_unsigned_deterministic; [exact Hnan|].
  apply Permutation_map, Hperm.
Qed.

Lemma halved_sum_unsigned a a' b b' :
  unsigned_zero a = unsigned_zero a' ->
  unsigned_zero b = unsigned_zero b' ->
  unsigned_zero (SFdiv prec emax (fadd a b) two)
  = unsigned_zero (SFdiv prec emax (fadd a' b') two).
Proof.
  intros Ha Hb.
  destruct a, a'; cbn [unsigned_zero] in Ha; try discriminate Ha;
    destruct b, b'; cbn [unsigned_zero] in Hb; try discriminate Hb;
    inversion Ha; inversion Hb; subst; try reflexivity;
    repeat match goal with s : bool |- _ => destruct s end; reflexivity.
Qed.
End Signs.

Section MedianOrder.

(** The median by the items of the sorted list. *)
Lemma median_items values :
  values <> [] ->
  let sorted_vals := sorted flt values in
  let n := Z.of_nat (length values) in
  median values
  = Returns (if n mod 2 =? 1 then nth (Z.to_nat (n / 2)) sorted_vals zero
             else SFdiv prec emax
                    (fadd (nth (Z.to_nat (n / 2 - 1)) sorted_vals zero)
                          (nth (Z.to_nat (n / 2)) sorted_vals zero))
                    two).
Proof.
  intros Hne sorted_vals n. unfold median. fold sorted_vals.
  assert (Hlen : Z.of_nat (length sorted_vals) = n)
    by (unfold sorted_vals; rewrite sorted_length; reflexivity).
  rewrite Hlen.
  assert (Hpos : 0 < n)
    by (unfold n; destruct values; [congruence | cbn [length]; lia]).
  pose proof (Z.mod_pos_bound n 2 ltac:(lia)) as Hmod.
  pose proof (Z.div_mod n 2 ltac:(lia)) as Hdiv.
  destruct (Z.eqb_spec (n mod 2) 1) as [Hodd|Heven].
  - destruct (index_in_range sorted_vals (n / 2)) as (med & -> & Hnth);
      [lia|].
    rewrite (nth_error_nth _ _ _ Hnth). reflexivity.
  - destruct (index_in_range sorted_vals (n / 2 - 1)) as (lo & -> & Hlo);
      [lia|].
    destruct (index_in_range sorted_vals (n / 2)) as (hi & -> & Hhi);
      [lia|].
    cbn [bind]. unfold truediv.
    rewrite (nth_error_nth _ _ _ Hlo), (nth_error_nth _ _ _ Hhi).
    reflexivity.
Qed.
End MedianOrder.

(** X11: the median does not depend on the order of the lines: two
    arrangements of the same finite numbers have medians that are [==]
    (the same float, or zeros of either sign). *)
Theorem median_ignores_the_order_of_lines (values values' : list float) :
  values <> [] -> Forall (fun v => isfinite v = true) values ->
  Permutation values values' ->
  exists med med',
    median values = Returns med /\ median values' = Returns med'
    /\ feq med med' = true.
Proof.
  intros Hne Hfinite Hperm.
  assert (Hne' : values' <> []).
  { intros ->. apply Permutation_sym, Permutation_nil in Hperm. congruence. }
  pose proof (not_nan_of_finite values Hfinite) as Hnan.
  pose proof (sorted_order_independent values values' Hnan Hperm) as Hsorted.
  assert (Hitem : forall i,
            unsigned_zero (nth i (sorted flt values) zero)
            = unsigned_zero (nth i (sorted flt values') zero)).
  { intros i.
    rewrite <- !(map_nth unsigned_zero). rewrite Hsorted. reflexivity. }
  pose proof (median_items values Hne) as Hmed.
  pose proof (median_items values' Hne') as Hmed'.
  cbv zeta in Hmed, Hmed'.
  rewrite <- (Permutation_length Hperm) in Hmed'.
  eexists _, _. split; [exact Hmed|]. split; [exact Hmed'|].
  apply unsigned_feq.
  - apply (median_not_nan values _ Hfinite Hmed).
  - destruct (Z.of_nat (length values) mod 2 =? 1).
    + apply Hitem.
    + apply halved_sum_unsigned; apply Hitem.
Qed.

Lemma median_ignores_the_order_of_lines_witness :
  exists med med',
    median [of_int 3; of_int 1; of_int 2] = Returns med
    /\ median [of_int 1; of_int 2; of_int 3] = Returns med'
    /\ feq med med' = true.
Proof.
  apply median_ignores_the_order_of_lines.
  - discriminate.
  - repeat constructor.
  - apply perm_trans with [of_int 1; of_int 3; of_int 2];
      [apply perm_swap | apply perm_skip, perm_swap].
Defined.

Section ModeOrder.

Lemma occurrences_perm k l l' :
  Permutation l l' -> occurrences feq k l = occurrences feq k l'.
Proof.
  induction 1 as [|x l l' _ IH|x y l|l l' l'' _ IH1 _ IH2].
  - reflexivity.
  - rewrite !occurrences_cons, IH. reflexivity.
  - rewrite !occurrences_cons. lia.
  - congruence.
Qed.

Lemma unsigned_distinct l :
  Forall (fun v => isnan v = false) l ->
  ForallOrdPairs (fun j k => feq j k = false) l ->
  NoDup (map unsigned_zero l).
Proof.
  intros Hnan Hdist. induction Hdist as [|a l Ha _ IH]; [constructor|].
  inversion Hnan as [|? ? Hna Hnl]; subst.
  cbn [map]. constructor; [|apply IH, Hnl].
  intros Hin. apply in_map_iff in Hin. destruct Hin as (b & Hb & Hin).
  rewrite Forall_forall in Ha. specialize (Ha b Hin).
  rewrite (unsigned_feq a b Hna (eq_sym Hb)) in Ha. discriminate.
Qed.

Lemma unsigned_pointwise l : forall l',
  Forall (fun v => isnan v = false) l ->
  map unsigned_zero l = map unsigned_zero l' ->
  Forall2 (fun a b => feq a b = true) l l'.
Proof.
  induction l as [|a l IH]; intros [|b l'] Hnan Heq; try discriminate;
    [constructor|].
  injection Heq as Hab Hrest. inversion Hnan; subst.
  constructor; [apply unsigned_feq; assumption | apply IH; assumption].
Qed.
End ModeOrder.

(** X12: the mode does not depend on the order of the lines: two
    arrangements of the same finite numbers have the same mode frequency
    and lists of modes of the same length whose items are pairwise [==]. *)
Theorem mode_ignores_the_order_of_lines (values values' : list float) :
  values <> [] -> Forall (fun v => isfinite v = true) values ->
  Permutation values values' ->
  exists modes modes' frequency,
    mode values = Returns (modes, frequency)
    /\ mode values' = Returns (modes', frequency)
    /\ Forall2 (fun m m' => feq m m' = true) modes modes'.
Proof.
  intros Hne Hfinite Hperm.
  assert (Hne' : values' <> []).
  { intros ->. apply Permutation_sym, Permutation_nil in Hperm. congruence. }
  pose proof (not_nan_of_finite values Hfinite) as Hnan.
  assert (Hnan' : Forall (fun v => isnan v = false) values')
    by (eapply Permutation_Forall; eassumption).
  assert (Hin : forall v, In v values <-> In v values').
  { intros v. split; apply Permutation_in;
      [exact Hperm | apply Permutation_sym, Hperm]. }
  assert (Hocc : forall v,
            occurrences feq v values = occurrences feq v values')
    by (intros v; apply occurrences_perm, Hperm).
  destruct (mode_outcome values Hne Hnan)
    as (m & tied & (w & Hw & Hwm) & Hmax & Hmode & _ & Hdist & Htied & Hall).
  destruct (mode_outcome values' Hne' Hnan')
    as (m' & tied' & (w' & Hw' & Hwm') & Hmax' & Hmode' & _ & Hdist'
        & Htied' & Hall').
  assert (Hsame : m' = m).
  { apply Hin in Hw. apply Hin in Hw'.
    specialize (Hmax w' Hw'). specialize (Hmax' w Hw).
    rewrite <- Hocc in Hmax'. rewrite Hocc in Hmax. lia. }
  rewrite Hsame in Hmode', Htied', Hall'. rewrite Hmode, Hmode'.
  destruct (m <=? 1).
  { exists [], [], 1. split; [reflexivity|]. split; [reflexivity|constructor]. }
  exists (sorted flt tied), (sorted flt tied'), m.
  split; [reflexivity|]. split; [reflexivity|].
  assert (Htnan : Forall (fun v => isnan v = false) tied).
  { apply Forall_forall. intros k Hk. rewrite Forall_forall in Hnan.
    apply Hnan, (Htied k Hk). }
  assert (Htnan' : Forall (fun v => isnan v = false) tied').
  { apply Forall_forall. intros k Hk. rewrite Forall_forall in Hnan'.
    apply Hnan', (Htied' k Hk). }
  apply unsigned_pointwise.
  - eapply Permutation_Forall; [apply Permutation_sym, sorted_perm|].
    exact Htnan.
  - rewrite !sorted_unsigned.
    apply sorted_unsigned_deterministic; [exact Htnan|].
    apply NoDup_Permutation.
    + apply unsigned_distinct; assumption.
    + apply unsigned_distinct; assumption.
    + intros c. rewrite !in_map_iff. split.
      * intros (k & <- & Hk). destruct (Htied k Hk) as [Hkv Hko].
        destruct (Hall' k) as (k' & Hk' & Hkk');
          [apply Hin, Hkv | rewrite <- Hocc; exact Hko|].
        exists k'. split; [apply feq_unsigned, Hkk' | exact Hk'].
      * intros (k & <- & Hk). destruct (Htied' k Hk) as [Hkv Hko].
        destruct (Hall k) as (k' & Hk' & Hkk');
          [apply Hin, Hkv | rewrite Hocc; exact Hko|].
        exists k'. split; [apply feq_unsigned, Hkk' | exact Hk'].
Qed.

Lemma mode_ignores_the_order_of_lines_witness :
  exists modes modes' frequency,
    mode [of_int 2; of_int 1; of_int 2] = Returns (modes, frequency)
    /\ mode [of_int 1; of_int 2; of_int 2] = Returns (modes', frequency)
    /\ Forall2 (fun m m' => feq m m' = true) modes modes'.
Proof.
  apply mode_ignores_the_order_of_lines.
  - discriminate.
  - repeat constructor.
  - apply perm_swap.
Defined.

End OrderFacts.

(** ** The table of the word count *)

Module WordTableFacts.
Import WordCount Words.

Section Keys.

Lemma str_eqb_eq s : forall t, str_eqb s t = true <-> s = t.
Proof.
  induction s as [|a s IH]; intros [|b t]; cbn [str_eqb];
    try (split; [discriminate | congruence]); [tauto|].
  rewrite andb_true_iff. unfold char_eqb. rewrite N.eqb_eq, IH.
  split; [intros [-> ->]; reflexivity | intros H; injection H; auto].
Qed.

Lemma str_eqb_refl s : str_eqb s s = true.
Proof. apply str_eqb_eq. reflexivity. Qed.

Lemma str_eqb_neq s t : str_eqb s t = false <-> s <> t.
Proof.
  rewrite <- str_eqb_eq. destruct (str_eqb s t); split; congruence.
Qed.

Lemma words_counted (words : list str) :
  counted str_eqb words (tally str_eqb words []).
Proof.
  apply (tally_counted str_eqb (fun _ => True)).
  - intros k _. apply str_eqb_refl.
  - intros j k _ _. destruct (str_eqb j k) eqn:Hjk.
    + apply str_eqb_eq in Hjk. subst. symmetry. apply str_eqb_refl.
    + apply str_eqb_neq in Hjk. symmetry. apply str_eqb_neq. congruence.
  - intros j k l _ _ _ Hjk Hkl. apply str_eqb_eq in Hjk, Hkl.
    apply str_eqb_eq. congruence.
  - apply Forall_forall. trivial.
Qed.

Lemma occurrences_word w (words : list str) :
  In w words -> 1 <= occurrences str_eqb w words.
Proof.
  unfold occurrences. induction words as [|v words IH]; intros Hin;
    [destruct Hin|].
  cbn [filter]. destruct Hin as [->|Hin].
  - rewrite str_eqb_refl. cbn [length]. lia.
  - specialize (IH Hin). destruct (str_eqb v w); cbn [length]; lia.
Qed.

Lemma distinct_keys (ks : list str) :
  ForallOrdPairs (fun j k => str_eqb j k = false) ks -> NoDup ks.
Proof.
  induction 1 as [|k ks Hk _ IH]; constructor; [|exact IH].
  intros Hin. rewrite Forall_forall in Hk. specialize (Hk k Hin).
  rewrite str_eqb_refl in Hk. discriminate.
Qed.

(** Looking a word up in a table built by counting. *)
Lemma get_find (d : dict (K:=str) (V:=Z)) w :
  get str_eqb d w 0
  = match find (fun item => str_eqb (fst item) w) d with
    | Some item => snd item
    | None => 0
    end.
Proof.
  induction d as [|[k c] d IH]; [reflexivity|]. cbn [get find fst].
  destruct (str_eqb k w); [reflexivity | exact IH].
Qed.

Lemma get_counted (words : list str) d w :
  counted str_eqb words d ->
  get str_eqb d w 0 = occurrences str_eqb w words.
Proof.
  intros [_ _ Hvalues Hall]. rewrite get_find.
  destruct (find _ d) as [item|] eqn:Hfind.
  - apply find_some in Hfind. destruct Hfind as [Hitem Hkey].
    apply str_eqb_eq in Hkey. subst w.
    rewrite Forall_forall in Hvalues. apply Hvalues, Hitem.
  - symmetry. apply occurrences_none.
    apply Forall_forall. intros v Hv.
    destruct (str_eqb v w) eqn:Hvw; [|reflexivity].
    apply str_eqb_eq in Hvw. subst v.
    rewrite Forall_forall in Hall. specialize (Hall w Hv).
    apply Exists_exists in Hall. destruct Hall as (k & Hk & Hkw).
    apply in_map_iff in Hk. destruct Hk as (item & <- & Hitem).
    pose proof (find_none _ _ Hfind item Hitem) as Hno. cbv beta in Hno.
    congruence.
Qed.

Lemma sum_counts (d : dict (K:=str) (V:=Z)) w :
  sum (values (set str_eqb d w (get str_eqb d w 0 + 1)))
  = sum (values d) + 1.
Proof.
  unfold sum, values.
  induction d as [|[k c] d IH]; cbn [set get map fold_right snd].
  - lia.
  - destruct (str_eqb k w); cbn [map fold_right snd]; [lia|].
    rewrite IH. lia.
Qed.

Lemma sum_tally (words : list str) : forall d,
  sum (values (tally str_eqb words d))
  = sum (values d) + Z.of_nat (length words).
Proof.
  unfold tally. induction words as [|w words IH]; intros d;
    cbn [fold_left length].
  - lia.
  - rewrite IH, sum_counts. lia.
Qed.

Lemma sum_at_least (xs : list Z) :
  Forall (fun x => 1 <= x) xs -> Z.of_nat (length xs) <= sum xs.
Proof.
  unfold sum. induction 1 as [|x xs Hx _ IH]; cbn [length fold_right]; lia.
Qed.
End Keys.

Section Scan.
Variable db : unicode_db.

Lemma count_token_table line_no st token :
  freq (count_token db line_no st token)
  = tally str_eqb
          (if is_word db token then [normalize_word db token] else [])
          (freq st).
Proof.
  unfold count_token, is_word.
  destruct (normalize_word db token); reflexivity.
Qed.

Lemma tally_app {K} (eqb : K -> K -> bool) l l' d :
  tally eqb (l ++ l') d = tally eqb l' (tally eqb l d).
Proof. unfold tally. apply fold_left_app. Qed.

Lemma count_tokens_table line_no tokens : forall st,
  freq (fold_left (count_token db line_no) tokens st)
  = tally str_eqb
          (map (normalize_word db) (filter (is_word db) tokens))
          (freq st).
Proof.
  induction tokens as [|token tokens IH]; intros st; [reflexivity|].
  cbn [fold_left filter]. rewrite IH, count_token_table.
  destruct (is_word db token); reflexivity.
Qed.

Lemma count_line_table st line_no raw_line :
  freq (count_line db st (line_no, raw_line))
  = tally str_eqb
          (map (normalize_word db)
               (filter (is_word db) (split db (strip db raw_line))))
          (freq st).
Proof.
  unfold count_line.
  destruct (strip db raw_line) as [|c line] eqn:Hline.
  - reflexivity.
  - apply count_tokens_table.
Qed.

Lemma scan_table raw_lines : forall start st,
  freq (fold_left (count_line db) (enumerate raw_lines start) st)
  = tally str_eqb (counted_words db raw_lines) (freq st).
Proof.
  unfold counted_words.
  induction raw_lines as [|raw_line raw_lines IH]; intros start st;
    [reflexivity|].
  cbn [enumerate fold_left tokens_scanned flat_map].
  rewrite IH, count_line_table.
  fold (tokens_scanned db raw_lines).
  rewrite filter_app, map_app, tally_app. reflexivity.
Qed.

Lemma counted_words_not_empty raw_lines :
  Forall (fun w => w <> []) (counted_words db raw_lines).
Proof.
  unfold counted_words. apply Forall_map, Forall_forall.
  intros token Htoken. apply filter_In in Htoken.
  destruct Htoken as [_ Hword]. unfold is_word in Hword.
  destruct (normalize_word db token); [discriminate | discriminate].
Qed.

(** The table of a scan, with what follows from the way it is built. *)
Lemma scan_builds_table filepath raw_lines :
  exists out total_words invalid_items,
    read_and_count_words db filepath (Opened raw_lines)
    = (out, Some (tally str_eqb (counted_words db raw_lines) [],
                  total_words, invalid_items))
    /\ total_words = Z.of_nat (length (counted_words db raw_lines)).
Proof.
  unfold read_and_count_words.
  set (st := fold_left (count_line db) (enumerate raw_lines 1)
                       (mk_scan [] [] 0 0)).
  exists (printed st), (total_words st), (invalid_items st).
  split.
  - unfold st. rewrite scan_table. reflexivity.
  - destruct (scan_words db raw_lines 1 (mk_scan [] [] 0 0)) as [Hw _].
    fold st in Hw. rewrite Hw. unfold counted_words.
    rewrite length_map. cbn [total_words]. lia.
Qed.
End Scan.

(** X13: the table [read_and_count_words] returns maps every word to
    the number of tokens that normalise to it, and holds nothing else: its
    keys are the distinct non-empty normalised words, looking up any other
    string gives the default, the counts add up to the total of valid
    words, and the number of distinct words does not exceed that total. *)
Theorem word_table_counts_each_word
    (db : unicode_db) (filepath : str) (raw_lines : list str) :
  exists out freq total_words invalid_items,
    read_and_count_words db filepath (Opened raw_lines)
    = (out, Some (freq, total_words, invalid_items))
    /\ (forall w, get str_eqb freq w 0
                  = occurrences str_eqb w (counted_words db raw_lines))
    /\ NoDup (keys freq)
    /\ (forall w, In w (keys freq) <-> In w (counted_words db raw_lines))
    /\ Forall (fun w => w <> []) (keys freq)
    /\ total_words = Z.of_nat (length (counted_words db raw_lines))
    /\ sum (values freq) = total_words
    /\ Z.of_nat (length freq) <= total_words.
Proof.
  destruct (scan_builds_table db filepath raw_lines)
    as (out & total & invalid & Hscan & Htotal).
  set (words := counted_words db raw_lines) in *.
  pose proof (words_counted words) as Hcounted.
  set (table := tally str_eqb words []) in *.
  exists out, table, total, invalid.
  assert (Hkeys : forall w, In w (keys table) <-> In w words).
  { intros w. split.
    - intros Hw. pose proof (counted_keys _ _ _ Hcounted) as Hk.
      rewrite Forall_forall in Hk. apply Hk, Hw.
    - intros Hw. pose proof (counted_all _ _ _ Hcounted) as Hall.
      rewrite Forall_forall in Hall. specialize (Hall w Hw).
      apply Exists_exists in Hall. destruct Hall as (k & Hk & Hkw).
      apply str_eqb_eq in Hkw. subst k. exact Hk. }
  assert (Hsum : sum (values table) = total).
  { unfold table. rewrite sum_tally, Htotal. reflexivity. }
  split; [exact Hscan|].
  split; [|split; [|split; [|split; [|split; [|split]]]]].
  - intros w. apply get_counted, Hcounted.
  - apply distinct_keys, (counted_distinct _ _ _ Hcounted).
  - exact Hkeys.
  - apply Forall_forall. intros w Hw. apply Hkeys in Hw.
    pose proof (counted_words_not_empty db raw_lines) as Hne.
    rewrite Forall_forall in Hne. apply Hne, Hw.
  - exact Htotal.
  - exact Hsum.
  - rewrite <- Hsum. unfold values. rewrite <- (length_map snd table).
    apply sum_at_least, Forall_forall. intros c Hc.
    apply in_map_iff in Hc. destruct Hc as ([k c'] & <- & Hitem).
    pose proof (counted_values _ _ _ Hcounted) as Hvalues.
    rewrite Forall_forall in Hvalues. rewrite (Hvalues _ Hitem).
    apply occurrences_word, Hkeys, (in_map fst _ _ Hitem).
Qed.

(** X14: the rows of the report are the rows of the table: every
    counted word has exactly one row, the row carries the number of tokens
    that normalise to the word, which is at least 1, and there are as many
    rows as distinct words. *)
Theorem report_lists_each_word_once
    (db : unicode_db) (filepath : str) (raw_lines : list str) :
  exists out freq total_words invalid_items,
    read_and_count_words db filepath (Opened raw_lines)
    = (out, Some (freq, total_words, invalid_items))
    /\ NoDup (map fst (sorted_items freq))
    /\ length (sorted_items freq) = length freq
    /\ (forall w c,
          In (w, c) (sorted_items freq)
          <-> In w (counted_words db raw_lines)
              /\ c = occurrences str_eqb w (counted_words db raw_lines))
    /\ Forall (fun row => 1 <= snd row) (sorted_items freq).
Proof.
  destruct (scan_builds_table db filepath raw_lines)
    as (out & total & invalid & Hscan & _).
  set (words := counted_words db raw_lines) in *.
  pose proof (words_counted words) as Hcounted.
  set (table := tally str_eqb words []) in *. clearbody table.
  exists out, table, total, invalid.
  pose proof (WordCountFacts.sorted_items_perm table) as Hperm.
  pose proof (counted_keys _ _ _ Hcounted) as Hkeys.
  pose proof (counted_values _ _ _ Hcounted) as Hvalues.
  pose proof (counted_all _ _ _ Hcounted) as Hall.
  rewrite Forall_forall in Hkeys, Hvalues, Hall.
  assert (Hrows : forall w c,
            In (w, c) (sorted_items table)
            <-> In w words /\ c = occurrences str_eqb w words).
  { intros w c. split.
    - intros Hrow. apply (Permutation_in _ Hperm) in Hrow.
      split; [apply Hkeys, (in_map fst _ _ Hrow) | apply (Hvalues _ Hrow)].
    - intros [Hw ->]. apply (Permutation_in _ (Permutation_sym Hperm)).
      specialize (Hall w Hw). apply Exists_exists in Hall.
      destruct Hall as (k & Hk & Hkw). apply str_eqb_eq in Hkw. subst k.
      apply in_map_iff in Hk. destruct Hk as ([w' c] & Hfst & Hitem).
      cbn [fst] in Hfst. subst w'.
      pose proof (Hvalues _ Hitem) as Hc. cbn [fst snd] in Hc. subst c.
      exact Hitem. }
  split; [exact Hscan|]. split; [|split; [|split]].
  - apply (Permutation_NoDup (Permutation_map fst (Permutation_sym Hperm))).
    apply distinct_keys, (counted_distinct _ _ _ Hcounted).
  - apply (Permutation_length Hperm).
  - exact Hrows.
  - apply Forall_forall. intros [w c] Hrow. apply Hrows in Hrow.
    destruct Hrow as [Hw ->]. apply occurrences_word, Hw.
Qed.

Section LineOrder.
Variable db : unicode_db.

Lemma filter_perm {A} (f : A -> bool) l l' :
  Permutation l l' -> Permutation (filter f l) (filter f l').
Proof.
  induction 1 as [|x l l' _ IH|x y l|l l' l'' _ IH1 _ IH2].
  - constructor.
  - cbn [filter]. destruct (f x); [constructor|]; exact IH.
  - cbn [filter]. destruct (f x), (f y);
      try apply Permutation_refl. apply perm_swap.
  - eapply perm_trans; eassumption.
Qed.

Lemma table_items (words : list str) w c :
  In (w, c) (items (tally str_eqb words []))
  <-> In w words /\ c = occurrences str_eqb w words.
Proof.
  pose proof (words_counted words) as Hcounted.
  pose proof (counted_keys _ _ _ Hcounted) as Hkeys.
  pose proof (counted_values _ _ _ Hcounted) as Hvalues.
  pose proof (counted_all _ _ _ Hcounted) as Hall.
  rewrite Forall_forall in Hkeys, Hvalues, Hall.
  unfold items. split.
  - intros Hitem.
    split; [apply Hkeys, (in_map fst _ _ Hitem) | apply (Hvalues _ Hitem)].
  - intros [Hw ->]. specialize (Hall w Hw). apply Exists_exists in Hall.
    destruct Hall as (k & Hk & Hkw). apply str_eqb_eq in Hkw. subst k.
    apply in_map_iff in Hk. destruct Hk as ([w' c] & Hfst & Hitem).
    cbn [fst] in Hfst. subst w'.
    pose proof (Hvalues _ Hitem) as Hc. cbn [fst snd] in Hc. subst c.
    exact Hitem.
Qed.

Lemma table_perm (words words' : list str) :
  Permutation words words' ->
  Permutation (items (tally str_eqb words []))
              (items (tally str_eqb words' [])).
Proof.
  intros Hperm.
  assert (Hnodup : forall ws : list str,
            NoDup (items (tally str_eqb ws []))).
  { intros ws. apply (NoDup_map_inv fst).
    apply distinct_keys, (counted_distinct _ _ _ (words_counted ws)). }
  apply NoDup_Permutation; [apply Hnodup | apply Hnodup |].
  intros [w c]. rewrite !table_items.
  assert (Hocc : occurrences str_eqb w words
                 = occurrences str_eqb w words').
  { unfold occurrences. f_equal. apply Permutation_length, filter_perm, Hperm. }
  rewrite Hocc. split; intros [Hw Hc]; (split; [|exact Hc]).
  - apply (Permutation_in _ Hperm), Hw.
  - apply (Permutation_in _ (Permutation_sym Hperm)), Hw.
Qed.

Lemma tokens_perm raw_lines raw_lines' :
  Permutation raw_lines raw_lines' ->
  Permutation (tokens_scanned db raw_lines) (tokens_scanned db raw_lines').
Proof.
  intros Hperm. unfold tokens_scanned. apply Permutation_flat_map, Hperm.
Qed.

Lemma counted_words_perm raw_lines raw_lines' :
  Permutation raw_lines raw_lines' ->
  Permutation (counted_words db raw_lines) (counted_words db raw_lines').
Proof.
  intros Hperm. unfold counted_words.
  apply Permutation_map, filter_perm, tokens_perm, Hperm.
Qed.

(** The counters of a scan, by the lines. *)
Lemma scan_counters filepath raw_lines :
  exists out,
    read_and_count_words db filepath (Opened raw_lines)
    = (out,
       Some (tally str_eqb (counted_words db raw_lines) [],
             Z.of_nat (length (filter (is_word db)
                                      (tokens_scanned db raw_lines))),
             Z.of_nat (length (filter (fun t => negb (is_word db t))
                                      (tokens_scanned db raw_lines)))
             + Z.of_nat (length (blank_lines db raw_lines)))).
Proof.
  unfold read_and_count_words.
  set (st := fold_left (count_line db) (enumerate raw_lines 1)
                       (mk_scan [] [] 0 0)).
  exists (printed st).
  destruct (scan_words db raw_lines 1 (mk_scan [] [] 0 0)) as [Hw Hi].
  fold st in Hw, Hi. rewrite Hw, Hi. unfold st. rewrite scan_table.
  reflexivity.
Qed.
End LineOrder.

(** X15: the report of the word count does not depend on the order of
    the lines: for the same elapsed-time text, two files with the same
    lines in any order give the same results file, character for
    character. *)
Theorem word_count_report_ignores_the_order_of_lines
    (db : unicode_db) (prog filepath : str) (rest : list str)
    (fs fs' : str -> file_open) (elapsed : str)
    (raw_lines raw_lines' : list str) :
  fs filepath = Opened raw_lines -> fs' filepath = Opened raw_lines' ->
  Permutation raw_lines raw_lines' ->
  exists report,
    results_file (main db (prog :: filepath :: rest) fs elapsed)
    = Some report
    /\ results_file (main db (prog :: filepath :: rest) fs' elapsed)
       = Some report.
Proof.
  intros Hfs Hfs' Hperm. unfold main. rewrite Hfs, Hfs'.
  destruct (scan_counters db filepath raw_lines) as (out & ->).
  destruct (scan_counters db filepath raw_lines') as (out' & ->).
  cbn [results_file]. eexists. split; [reflexivity|]. f_equal.
  pose proof (table_perm _ _ (counted_words_perm db _ _ Hperm)) as Htable.
  pose proof (tokens_perm db _ _ Hperm) as Htokens.
  unfold format_results.
  rewrite (WordCountFacts.sorted_items_deterministic _ _ Htable).
  unfold items in Htable. rewrite (Permutation_length Htable).
  rewrite (Permutation_length (filter_perm (is_word db) _ _ Htokens)).
  rewrite (Permutation_length
             (filter_perm (fun t => negb (is_word db t)) _ _ Htokens)).
  unfold blank_lines.
  rewrite (Permutation_length (filter_perm (is_blank db) _ _ Hperm)).
  reflexivity.
Qed.

Lemma word_count_report_ignores_the_order_of_lines_witness :
  exists report,
    results_file (main Examples.excerpt [u"word_count.py"; u"input.txt"]
                       (fun _ => Opened [u"b a"; u""; u"a"]) (u"0.000012"))
    = Some report
    /\ results_file (main Examples.excerpt [u"word_count.py"; u"input.txt"]
                          (fun _ => Opened [u""; u"a"; u"b a"])
                          (u"0.000012"))
       = Some report.
Proof.
  apply (word_count_report_ignores_the_order_of_lines
           Examples.excerpt (u"word_count.py") (u"input.txt") []
           (fun _ => Opened [u"b a"; u""; u"a"])
           (fun _ => Opened [u""; u"a"; u"b a"]) (u"0.000012")
           [u"b a"; u""; u"a"] [u""; u"a"; u"b a"]).
  - reflexivity.
  - reflexivity.
  - apply perm_trans with [u""; u"b a"; u"a"];
      [apply perm_swap | apply perm_skip, perm_swap].
Defined.

End WordTableFacts.

(** ** Lines, tokens and words *)

Module TokenFacts.
Import WordCount.

Section Whitespace.
Variable db : unicode_db.

Local Abbreviation blank s := (forallb (isspace db) s).
Local Abbreviation solid s := (forallb (fun ch => negb (isspace db ch)) s).

Lemma lstrip_spaces s :
  exists sp, s = sp ++ lstrip db s /\ blank sp = true.
Proof.
  induction s as [|c s (sp & Hs & Hsp)]; [exists []; auto|].
  cbn [lstrip]. destruct (isspace db c) eqn:Hc.
  - exists (c :: sp). cbn [app forallb]. rewrite Hc, Hsp, <- Hs. auto.
  - exists []. auto.
Qed.

Lemma lstrip_head c s t : lstrip db s = c :: t -> isspace db c = false.
Proof.
  induction s as [|a s IH]; [discriminate|]. cbn [lstrip].
  destruct (isspace db a) eqn:Ha; [exact IH|].
  intros H. injection H as <- _. exact Ha.
Qed.

Lemma lstrip_nil s : lstrip db s = [] <-> blank s = true.
Proof.
  induction s as [|c s IH]; [tauto|]. cbn [lstrip forallb].
  destruct (isspace db c); cbn [andb]; [exact IH|].
  split; discriminate.
Qed.

Lemma blank_rev s : blank (rev s) = blank s.
Proof.
  induction s as [|c s IH]; [reflexivity|].
  cbn [rev forallb]. rewrite forallb_app, IH. cbn [forallb].
  destruct (isspace db c), (blank s); reflexivity.
Qed.

Lemma strip_nil s : strip db s = [] <-> blank s = true.
Proof.
  unfold strip. split.
  - intros H. apply (f_equal (@rev _)) in H. rewrite rev_involutive in H.
    cbn [rev] in H. apply lstrip_nil in H. rewrite blank_rev in H.
    destruct (lstrip db s) as [|c t] eqn:Hs; [apply lstrip_nil, Hs|].
    apply lstrip_head in Hs. cbn [forallb] in H. rewrite Hs in H.
    discriminate.
  - intros H. apply lstrip_nil in H. rewrite H. reflexivity.
Qed.

Lemma strip_spaces s :
  exists before after,
    s = before ++ strip db s ++ after
    /\ blank before = true /\ blank after = true.
Proof.
  unfold strip. destruct (lstrip_spaces s) as (before & Hs & Hbefore).
  destruct (lstrip_spaces (rev (lstrip db s))) as (after & Hr & Hafter).
  exists before, (rev after). split; [|split].
  - rewrite <- rev_app_distr, <- Hr, rev_involutive. exact Hs.
  - exact Hbefore.
  - rewrite blank_rev. exact Hafter.
Qed.

Lemma split_from_blank sp : forall word,
  blank sp = true -> split_from db sp word = split_from db [] word.
Proof.
  induction sp as [|c sp IH]; intros word Hsp; [reflexivity|].
  cbn [forallb] in Hsp. apply andb_true_iff in Hsp. destruct Hsp as [Hc Hsp].
  cbn [split_from]. rewrite Hc.
  destruct word; rewrite (IH [] Hsp); reflexivity.
Qed.

Lemma split_from_leading sp s :
  blank sp = true -> split_from db (sp ++ s) [] = split_from db s [].
Proof.
  induction sp as [|c sp IH]; intros Hsp; [reflexivity|].
  cbn [forallb] in Hsp. apply andb_true_iff in Hsp. destruct Hsp as [Hc Hsp].
  cbn [app split_from]. rewrite Hc. apply IH, Hsp.
Qed.

Lemma split_from_trailing s sp : forall word,
  blank sp = true -> split_from db (s ++ sp) word = split_from db s word.
Proof.
  induction s as [|c s IH]; intros word Hsp.
  - cbn [app]. apply split_from_blank, Hsp.
  - cbn [app split_from].
    destruct (isspace db c); [destruct word|]; rewrite IH by exact Hsp;
      reflexivity.
Qed.

Lemma split_strip s : split db (strip db s) = split db s.
Proof.
  destruct (strip_spaces s) as (before & after & Hs & Hbefore & Hafter).
  unfold split. rewrite Hs at 2.
  rewrite split_from_leading, split_from_trailing by assumption.
  reflexivity.
Qed.

Lemma split_from_tokens s : forall word,
  solid word = true ->
  Forall (fun token => token <> [] /\ solid token = true)
         (split_from db s word)
  /\ concat (split_from db s word)
     = word ++ filter (fun ch => negb (isspace db ch)) s
  /\ (word <> [] -> split_from db s word <> []).
Proof.
  induction s as [|c s IH]; intros word Hword.
  - cbn [split_from filter]. rewrite app_nil_r.
    destruct word as [|a word]; [repeat split; [constructor|congruence]|].
    split; [|split].
    + constructor; [split; [discriminate | exact Hword] | constructor].
    + cbn [concat]. rewrite app_nil_r. reflexivity.
    + discriminate.
  - cbn [split_from filter]. destruct (isspace db c) eqn:Hc; cbn [negb].
    + destruct (IH [] eq_refl) as (Htokens & Hconcat & _).
      destruct word as [|a word].
      * split; [exact Htokens|]. split; [exact Hconcat | congruence].
      * split; [|split].
        -- constructor; [split; [discriminate | exact Hword] | exact Htokens].
        -- cbn [concat]. rewrite Hconcat. reflexivity.
        -- discriminate.
    + destruct (IH (word ++ [c])) as (Htokens & Hconcat & Hne).
      { rewrite forallb_app, Hword. cbn [forallb]. rewrite Hc. reflexivity. }
      split; [exact Htokens|]. split.
      * rewrite Hconcat, <- app_assoc. reflexivity.
      * intros _. apply Hne. destruct word; discriminate.
Qed.

Lemma split_nil s : split db s = [] <-> blank s = true.
Proof.
  unfold split. induction s as [|c s IH]; [tauto|].
  cbn [split_from forallb]. destruct (isspace db c) eqn:Hc; cbn [andb].
  - exact IH.
  - split; [|discriminate]. intros Hnil. exfalso.
    destruct (split_from_tokens s [c]) as (_ & _ & Hne).
    { cbn [forallb]. rewrite Hc. reflexivity. }
    apply Hne; [discriminate | exact Hnil].
Qed.
End Whitespace.


Section Accounting.
Variable db : unicode_db.

Lemma count_token_prints line_no st token :
  Z.of_nat (length (printed (count_token db line_no st token)))
  - invalid_items (count_token db line_no st token)
  = Z.of_nat (length (printed st)) - invalid_items st.
Proof.
  unfold count_token. destruct (normalize_word db token);
    cbn [printed invalid_items]; rewrite ?length_app; cbn [length]; lia.
Qed.

Lemma count_tokens_prints line_no tokens : forall st,
  Z.of_nat (length (printed (fold_left (count_token db line_no) tokens st)))
  - invalid_items (fold_left (count_token db line_no) tokens st)
  = Z.of_nat (length (printed st)) - invalid_items st.
Proof.
  induction tokens as [|token tokens IH]; intros st; [reflexivity|].
  cbn [fold_left]. rewrite IH. apply count_token_prints.
Qed.

Lemma count_line_prints st numbered :
  Z.of_nat (length (printed (count_line db st numbered)))
  - invalid_items (count_line db st numbered)
  = Z.of_nat (length (printed st)) - invalid_items st.
Proof.
  destruct numbered as [line_no raw_line]. unfold count_line.
  destruct (strip db raw_line).
  - cbn [printed invalid_items]. rewrite length_app. cbn [length]. lia.
  - apply count_tokens_prints.
Qed.

Lemma scan_prints numbered_lines : forall st,
  Z.of_nat (length (printed (fold_left (count_line db) numbered_lines st)))
  - invalid_items (fold_left (count_line db) numbered_lines st)
  = Z.of_nat (length (printed st)) - invalid_items st.
Proof.
  induction numbered_lines as [|numbered rest IH]; intros st; [reflexivity|].
  cbn [fold_left]. rewrite IH. apply count_line_prints.
Qed.

Lemma lines_accounted raw_lines :
  (length raw_lines
   <= length (tokens_scanned db raw_lines)
      + length (blank_lines db raw_lines))%nat.
Proof.
  induction raw_lines as [|raw_line raw_lines IH]; [reflexivity|].
  cbn [tokens_scanned flat_map blank_lines filter length].
  fold (tokens_scanned db raw_lines). fold (blank_lines db raw_lines).
  rewrite length_app. unfold is_blank.
  destruct (strip db raw_line) as [|c line] eqn:Hline; cbn [length]; [lia|].
  destruct (split db (c :: line)) eqn:Hsplit; cbn [length]; [|lia].
  exfalso. rewrite <- Hline, split_strip in Hsplit.
  apply split_nil, strip_nil in Hsplit. congruence.
Qed.
End Accounting.

(** X17: the scan of the word count prints one message for every item
    it counts as invalid and none for a counted word; the tokens it scans
    are the tokens of the raw lines; and every line of the file adds at
    least 1 to the sum of the two counters, a blank line as an invalid
    item and any other line by its tokens. *)
Theorem word_scan_accounts_for_every_line
    (db : unicode_db) (filepath : str) (raw_lines : list str) :
  exists out freq total_words invalid_items,
    read_and_count_words db filepath (Opened raw_lines)
    = (out, Some (freq, total_words, invalid_items))
    /\ Z.of_nat (length out) = invalid_items
    /\ tokens_scanned db raw_lines = flat_map (split db) raw_lines
    /\ Z.of_nat (length raw_lines) <= total_words + invalid_items.
Proof.
  unfold read_and_count_words.
  set (st := fold_left (count_line db) (enumerate raw_lines 1)
                       (mk_scan [] [] 0 0)).
  exists (printed st), (freq st), (total_words st), (invalid_items st).
  split; [reflexivity|]. split; [|split].
  - pose proof (scan_prints db (enumerate raw_lines 1) (mk_scan [] [] 0 0))
      as H.
    fold st in H. cbn [printed invalid_items length] in H. lia.
  - unfold tokens_scanned. apply flat_map_ext. intros l. apply split_strip.
  - destruct (scan_words db raw_lines 1 (mk_scan [] [] 0 0)) as [Hw Hi].
    fold st in Hw, Hi. rewrite Hw, Hi. cbn [total_words invalid_items].
    pose proof (filter_partition (is_word db) (tokens_scanned db raw_lines)).
    pose proof (lines_accounted db raw_lines). lia.
Qed.

Section Normalising.
Variable db : unicode_db.

Lemma normalize_word_app s t :
  normalize_word db (s ++ t) = normalize_word db s ++ normalize_word db t.
Proof.
  rewrite !WordCountFacts.normalize_word_filter, filter_app, flat_map_app.
  reflexivity.
Qed.

Lemma normalize_word_nil token :
  (forall ch, kept db ch = true -> lower db ch <> []) ->
  normalize_word db token = []
  <-> forallb (fun ch => negb (kept db ch)) token = true.
Proof.
  intros Hlower. rewrite WordCountFacts.normalize_word_filter.
  induction token as [|ch token IH]; [tauto|].
  cbn [filter forallb]. destruct (kept db ch) eqn:Hch; cbn [negb andb].
  - cbn [flat_map]. split; [|discriminate]. intros H.
    apply app_eq_nil in H. destruct H as [H _].
    exfalso. exact (Hlower ch Hch H).
  - exact IH.
Qed.
End Normalising.

(** X18: [normalize_word] works character by character, so the word
    of a concatenation is the concatenation of the words; and when no kept
    character has an empty lower-case form, a token is skipped as invalid
    exactly when none of its characters is alphanumeric or an
    apostrophe. *)
Theorem normalize_word_by_characters (db : unicode_db) (s t : str) :
  normalize_word db (s ++ t) = normalize_word db s ++ normalize_word db t
  /\ ((forall ch, kept db ch = true -> lower db ch <> []) ->
      (is_word db s = false
       <-> forallb (fun ch => negb (isalnum db ch)
                              && negb (char_eqb ch apostrophe)) s = true)).
Proof.
  split; [apply normalize_word_app|].
  intros Hlower. unfold is_word.
  assert (Hkept : forallb (fun ch => negb (isalnum db ch)
                                     && negb (char_eqb ch apostrophe)) s
                  = forallb (fun ch => negb (kept db ch)) s).
  { clear Hlower. induction s as [|ch s IH]; [reflexivity|].
    cbn [forallb]. rewrite IH. unfold kept. rewrite negb_orb.
    reflexivity. }
  rewrite Hkept, <- (normalize_word_nil db s Hlower).
  destruct (normalize_word db s); split; congruence.
Qed.

Lemma normalize_word_by_characters_witness :
  is_word Examples.excerpt (u"...") = false
  <-> forallb (fun ch => negb (isalnum Examples.excerpt ch)
                         && negb (char_eqb ch apostrophe)) (u"...") = true.
Proof.
  apply (proj2 (normalize_word_by_characters Examples.excerpt (u"...") [])).
  intros ch _. cbn [lower Examples.excerpt]. unfold Examples.excerpt_lower.
  destruct (Examples.in_range "A" "Z" ch); [discriminate|].
  destruct (N.eqb ch 304); discriminate.
Defined.

End TokenFacts.

(** ** How the other two scripts end *)

Module ExitFacts.



End ExitFacts.
